(** * Comment board: shallow embedding of [server.js]

    The development follows the server's code: the JSON values a request
    body can carry, the dataset kept in [db.json], the tree builder
    [buildCommentsTree], and the four mutating handlers (create, edit,
    delete, react) with the event each one emits.

    Conventions of the embedding.
    - JavaScript numbers are modelled as mathematical integers ([Z]); the
      ids and user ids of the program come from integer counters.  A
      counter is a double, which counts exactly up to 2^53: [++] is taken
      as the successor, which it is below that bound.  Fractions and [NaN]
      are outside the model.
    - [createdAt] and [updatedAt] hold the millisecond time value that
      [new Date(...)] reads back from the stored ISO string; the clock
      reading [new Date()] of a handler is an explicit argument [now].
    - A handler is a function from the dataset it read (what [loadDB]
      returned) and the request to a [result]: the dataset it leaves in
      [db.json], whether it wrote it, the response sent (or none, when the
      handler throws) and the events handed to [io.emit].  The handlers are
      [async]: [serve] and [final] run requests one at a time, [run] takes
      a schedule in which requests overlap.
    - The JavaScript call stack is finite: the recursive [markDescendants]
      takes the number of frames it may still use and yields [None] when
      they are used up (a [RangeError] in the program). *)

From stdpp Require Import base gmap strings list pretty sorting.
From Stdlib Require Import ZArith Lia Ascii.

Set Warnings "-register-all,-clear-no-such-hyp".
Open Scope Z_scope.

(** ** JSON values *)

Inductive jsval :=
  | JUndefined                              (* the field is absent *)
  | JNull
  | JBool (b : bool)
  | JNum (n : Z)
  | JStr (s : string)
  | JArr (items : list jsval)
  | JObj (fields : list (string * jsval)).

(** Truthiness, as used by [!x] and [x || y]. *)
Definition to_boolean (v : jsval) : bool :=
  match v with
  | JUndefined | JNull => false
  | JBool b => b
  | JNum n => negb (n =? 0)
  | JStr s => negb (bool_decide (s = ""))
  | JArr _ | JObj _ => true
  end.

(** [v == null] *)
Definition is_nullish (v : jsval) : bool :=
  match v with
  | JUndefined | JNull => true
  | _ => false
  end.

(** [v === n] for a number [n] *)
Definition strict_equals_num (v : jsval) (n : Z) : bool :=
  match v with
  | JNum m => m =? n
  | _ => false
  end.

Definition has_field (k : string) (fields : list (string * jsval)) : bool :=
  existsb (λ kv, bool_decide (kv.1 = k)) fields.

(** The string a value becomes when it is used as a property name
    ([obj[v]]).  An array is joined with commas, [null] and [undefined]
    items giving the empty string.  A plain object prints as
    "[object Object]" through the inherited [toString]; when it has a
    field of its own called [toString] (data, hence not callable) the
    conversion throws a [TypeError], here [None]. *)
Fixpoint to_property_key (v : jsval) : option string :=
  match v with
  | JUndefined => Some "undefined"
  | JNull => Some "null"
  | JBool true => Some "true"
  | JBool false => Some "false"
  | JNum n => Some (pretty n)
  | JStr s => Some s
  | JArr items =>
      (fix join (l : list jsval) : option string :=
         match l with
         | [] => Some ""
         | x :: rest =>
             s ← (if is_nullish x then Some "" else to_property_key x);
             match rest with
             | [] => Some s
             | _ => r ← join rest; Some (s +:+ "," +:+ r)
             end
         end) items
  | JObj fields =>
      if has_field "toString" fields then None else Some "[object Object]"
  end.

(** ** The dataset *)

Record reactions := {
  like : list Z; love : list Z; haha : list Z;
  wow : list Z; sad : list Z; angry : list Z }.

Record comment := {
  c_id : Z;
  c_userId : Z;
  c_userName : jsval;
  c_avatar : string;
  c_content : string;
  c_createdAt : Z;
  c_updatedAt : option Z;
  c_parentId : jsval;
  c_reactions : reactions }.

Record user := {
  u_id : Z;
  u_name : jsval;             (* [register] stores the fields as sent, *)
  u_email : jsval;            (* whatever truthy value they are *)
  u_passwordHash : string;
  u_avatar : string }.

Record db := {
  users : list user;
  comments : list comment;
  nextCommentId : Z;
  nextUserId : Z }.

(** What [loadDB] writes when [db.json] does not exist yet. *)
Definition initial_db : db :=
  {| users := []; comments := []; nextCommentId := 1; nextUserId := 1 |}.

(** [loadDB], on the content of [db.json] if the file exists. *)
Definition loadDB (file : option db) : db :=
  match file with
  | Some d => d
  | None => initial_db
  end.

(** ** buildCommentsTree *)

(** The property name of a numeric id, [map[c.id]]. *)
Definition id_key (n : Z) : string := pretty n.

(** An entry of [map]: the copy [{ ...c, replies: [] }].  [replies] holds
    references to other entries of [map]; a reference is the key of the
    entry, since every entry is created in the first pass and only its
    [replies] array changes afterwards. *)
Record node := { n_comment : comment; n_replies : list string }.

(** [map] starts as [{}], so a lookup that finds no own property goes on to
    [Object.prototype].  These are the names found there; each one reads as
    a function (or, for [__proto__], as the prototype object): truthy, and
    without a [replies] property. *)
Definition object_prototype_keys : list string :=
  [ "constructor"; "__proto__"; "hasOwnProperty"; "isPrototypeOf";
    "propertyIsEnumerable"; "toLocaleString"; "toString"; "valueOf";
    "__defineGetter__"; "__defineSetter__"; "__lookupGetter__";
    "__lookupSetter__" ].

Inductive property :=
  | Own (nd : node)
  | Inherited
  | Missing.

(** [map[k]] *)
Definition get_property (map : gmap string node) (k : string) : property :=
  match map !! k with
  | Some nd => Own nd
  | None => if bool_decide (k ∈ object_prototype_keys) then Inherited else Missing
  end.

(** First [forEach]: [map[c.id] = { ...c, replies: [] }]. *)
Definition index_comments (cs : list comment) : gmap string node :=
  foldl (λ map c, <[id_key (c_id c) := {| n_comment := c; n_replies := [] |}]> map)
        ∅ cs.

Definition push_reply (child : string) (nd : node) : node :=
  {| n_comment := n_comment nd; n_replies := n_replies nd ++ [child] |}.

(** The state of the second [forEach]: the [roots] array and [map]. *)
Record linking := { l_roots : list string; l_map : gmap string node }.

(** One iteration of the second [forEach]; [None] is a thrown [TypeError]:
    either the parentId cannot be turned into a property name, or the
    lookup found an inherited property, whose [replies] is [undefined]. *)
Definition link_comment (st : linking) (c : comment) : option linking :=
  if is_nullish (c_parentId c) then
    Some {| l_roots := l_roots st ++ [id_key (c_id c)]; l_map := l_map st |}
  else
    k ← to_property_key (c_parentId c);
    match get_property (l_map st) k with
    | Own nd =>
        Some {| l_roots := l_roots st;
                l_map := <[k := push_reply (id_key (c_id c)) nd]> (l_map st) |}
    | Inherited => None
    | Missing => Some st
    end.

Definition link_comments (cs : list comment) (st : linking) : option linking :=
  foldl (λ acc c, st' ← acc; link_comment st' c) (Some st) cs.

(** [Array.prototype.sort] with a comparator: the sort is stable, so with a
    consistent comparator its result is the one of an insertion sort: [x]
    goes before the first [y] it does not have to follow. *)
Fixpoint sort_insert {A} (cmp : A → A → Z) (x : A) (l : list A) : list A :=
  match l with
  | [] => [x]
  | y :: l' => if cmp x y <=? 0 then x :: l else y :: sort_insert cmp x l'
  end.

Definition array_sort {A} (cmp : A → A → Z) (l : list A) : list A :=
  foldr (sort_insert cmp) [] l.

(** [new Date(map[k].createdAt)] as a number *)
Definition created_of (map : gmap string node) (k : string) : Z :=
  match map !! k with
  | Some nd => c_createdAt (n_comment nd)
  | None => 0
  end.

(** [(a,b) => new Date(b.createdAt) - new Date(a.createdAt)] *)
Definition sortFn (map : gmap string node) (a b : string) : Z :=
  created_of map b - created_of map a.

(** The returned array of root entries together with the entries they
    reach through [replies]. *)
Record forest := { roots : list string; nodes : gmap string node }.

Definition buildCommentsTree (cs : list comment) : option forest :=
  st ← link_comments cs {| l_roots := []; l_map := index_comments cs |};
  Some {| roots := array_sort (sortFn (l_map st)) (l_roots st);
          nodes := l_map st |}.

(** The nested value a client receives, unfolded from the entries down to a
    given depth. *)
Inductive tree := Tree (c : comment) (replies : list tree).

Fixpoint unfold_node (depth : nat) (map : gmap string node) (k : string)
  : option tree :=
  match depth with
  | O => None
  | S depth' =>
      nd ← map !! k;
      rs ← mapM (unfold_node depth' map) (n_replies nd);
      Some (Tree (n_comment nd) rs)
  end.

Definition unfold_forest (depth : nat) (f : forest) : option (list tree) :=
  mapM (unfold_node depth (nodes f)) (roots f).

(** The comments a forest holds: those reached from [roots] through
    [replies]. *)
Inductive reaches (f : forest) : string → Prop :=
  | reaches_root k : k ∈ roots f → reaches f k
  | reaches_reply k nd child :
      reaches f k → nodes f !! k = Some nd → child ∈ n_replies nd →
      reaches f child.

Definition root_comments (f : forest) : list comment :=
  omap (λ k, n_comment <$> nodes f !! k) (roots f).

Definition reply_comments (f : forest) (k : string) : list comment :=
  match nodes f !! k with
  | Some nd => omap (λ r, n_comment <$> nodes f !! r) (n_replies nd)
  | None => []
  end.

(** ** Request handling *)

(** The body of a JSON response. *)
Inductive body :=
  | Message (m : string)
  | CommentBody (c : comment)
  | ReactionsBody (r : reactions).

Inductive response :=
  | Json (status : Z) (b : body)
  | Threw.                     (* the handler threw: no response is sent *)

(** The only event: [io.emit('comments:update', { comments: tree })]. *)
Inductive event := CommentsUpdate (tree : forest).

Record result := {
  persisted : db;              (* what it wrote; what it read, if it wrote nothing *)
  saved : bool;                (* the handler got to [await saveDB(db)] *)
  sent : response;
  emitted : list event }.

(** [return res.status(code).json({ message })] before anything is saved. *)
Definition reject (d : db) (code : Z) (m : string) : result :=
  {| persisted := d; saved := false; sent := Json code (Message m);
     emitted := [] |}.

(** An exception before [saveDB]. *)
Definition throw_before_save (d : db) : result :=
  {| persisted := d; saved := false; sent := Threw; emitted := [] |}.

(** The common tail of the four handlers, after [await saveDB(db)]:
    [io.emit('comments:update', { comments: buildCommentsTree(db.comments) })]
    and then the response.  When [buildCommentsTree] throws, neither the
    event nor the response goes out; the dataset is already saved. *)
Definition emit_and_respond (d : db) (r : response) : result :=
  match buildCommentsTree (comments d) with
  | Some t => {| persisted := d; saved := true; sent := r;
                 emitted := [CommentsUpdate t] |}
  | None => {| persisted := d; saved := true; sent := Threw; emitted := [] |}
  end.

(** [io.emit]: the event goes to every connected socket. *)
Definition io_emit {S} (sockets : list S) (e : event) : list (S * event) :=
  map (λ s, (s, e)) sockets.

Definition deliveries {S} (sockets : list S) (r : result) : list (S * event) :=
  flat_map (io_emit sockets) (emitted r).

(** A string of the program is modelled by the bytes of its UTF-8 encoding
    (what [express.json] decodes and [db.json] holds); a string with a lone
    surrogate has no such encoding and is outside the model.

    The white space of [String.prototype.trim]: the code points WhiteSpace
    and LineTerminator of ECMAScript, each by its UTF-8 bytes. *)
Definition white_space : list (list Z) :=
  [ [9]; [10]; [11]; [12]; [13]; [32];   (* TAB LF VT FF CR SP *)
    [194; 160];                            (* U+00A0 no-break space *)
    [225; 154; 128];                       (* U+1680 *)
    [226; 128; 128]; [226; 128; 129]; [226; 128; 130]; [226; 128; 131];
    [226; 128; 132]; [226; 128; 133]; [226; 128; 134]; [226; 128; 135];
    [226; 128; 136]; [226; 128; 137]; [226; 128; 138];   (* U+2000..U+200A *)
    [226; 128; 168]; [226; 128; 169];      (* U+2028, U+2029 *)
    [226; 128; 175];                       (* U+202F *)
    [226; 129; 159];                       (* U+205F *)
    [227; 128; 128];                       (* U+3000 *)
    [239; 187; 191] ].                     (* U+FEFF *)

Definition byte (a : ascii) : Z := Z.of_N (N_of_ascii a).

Definition white (bytes : list ascii) : bool :=
  bool_decide (byte <$> bytes ∈ white_space).

(** A string without its leading white space; [w] tells the byte sequences
    that are white space. *)
Fixpoint strip (w : list ascii → bool) (s : string) : string :=
  match s with
  | String a s1 =>
      if w [a] then strip w s1 else
      match s1 with
      | String b s2 =>
          if w [a; b] then strip w s2 else
          match s2 with
          | String c s3 => if w [a; b; c] then strip w s3 else s
          | EmptyString => s
          end
      | EmptyString => s
      end
  | EmptyString => EmptyString
  end.

(** [String.prototype.trimStart] *)
Definition trim_start (s : string) : string := strip white s.

(** [String.prototype.trimEnd]: the same from the other end, where the
    bytes of a code point come last byte first. *)
Definition trim_end (s : string) : string :=
  String.rev (strip (λ bytes, white (reverse bytes)) (String.rev s)).

(** [String.prototype.trim] *)
Definition trim (s : string) : string := trim_end (trim_start s).

(** [if (!content || !content.trim())]: a falsy content and a blank string
    are refused; a truthy value that is not a string has no [trim] method,
    so the call throws. *)
Inductive content_check :=
  | Blank
  | NotAString
  | Text (trimmed : string).

Definition check_content (content : jsval) : content_check :=
  if to_boolean content then
    match content with
    | JStr s => if bool_decide (trim s = "") then Blank else Text (trim s)
    | _ => NotAString
    end
  else Blank.

(** [db.comments.find(c => c.id === commentId)] *)
Definition find_comment (commentId : Z) (cs : list comment) : option comment :=
  find (λ c, c_id c =? commentId) cs.

(** A change made through the reference [find] returned: the first comment
    with that id is the one that changes. *)
Fixpoint update_first (p : comment → bool) (f : comment → comment)
    (cs : list comment) : list comment :=
  match cs with
  | [] => []
  | c :: cs' => if p c then f c :: cs' else c :: update_first p f cs'
  end.

Definition no_reactions : reactions :=
  {| like := []; love := []; haha := []; wow := []; sad := []; angry := [] |}.

(** [app.post('/api/comments')] *)
Definition create_comment (d : db) (uid : Z) (content parentId : jsval)
    (now : Z) : result :=
  (* const { content, parentId = null } = req.body *)
  let parentId := match parentId with JUndefined => JNull | v => v end in
  match check_content content with
  | Blank => reject d 400 "Empty content"
  | NotAString => throw_before_save d
  | Text trimmed =>
      match find (λ u, u_id u =? uid) (users d) with
      | None => reject d 401 "User not found"
      | Some user =>
          let newComment :=
            {| c_id := nextCommentId d;
               c_userId := u_id user;
               c_userName := u_name user;
               c_avatar := u_avatar user;
               c_content := trimmed;
               c_createdAt := now;
               c_updatedAt := None;
               c_parentId := if to_boolean parentId then parentId else JNull;
               c_reactions := no_reactions |} in
          let d' :=
            {| users := users d;
               comments := comments d ++ [newComment];
               nextCommentId := nextCommentId d + 1;
               nextUserId := nextUserId d |} in
          emit_and_respond d' (Json 201 (CommentBody newComment))
      end
  end.

Definition set_content (text : string) (now : Z) (c : comment) : comment :=
  {| c_id := c_id c;
     c_userId := c_userId c;
     c_userName := c_userName c;
     c_avatar := c_avatar c;
     c_content := text;
     c_createdAt := c_createdAt c;
     c_updatedAt := Some now;
     c_parentId := c_parentId c;
     c_reactions := c_reactions c |}.

(** [app.put('/api/comments/:id')]; [commentId] is the integer [parseInt]
    read from the path. *)
Definition edit_comment (d : db) (uid commentId : Z) (content : jsval)
    (now : Z) : result :=
  match check_content content with
  | Blank => reject d 400 "Empty content"
  | NotAString => throw_before_save d
  | Text trimmed =>
      match find_comment commentId (comments d) with
      | None => reject d 404 "Comment not found"
      | Some comment =>
          if negb (c_userId comment =? uid) then reject d 403 "Not allowed"
          else
            let d' :=
              {| users := users d;
                 comments := update_first (λ c, c_id c =? commentId)
                               (set_content trimmed now) (comments d);
                 nextCommentId := nextCommentId d;
                 nextUserId := nextUserId d |} in
            emit_and_respond d'
              (Json 200 (CommentBody (set_content trimmed now comment)))
      end
  end.

(** The traversal of the delete handler.  [toRemove] is the [Set] of the
    handler; [visited] records the calls [markDescendants(id)] in the order
    they are made, so that the theorems can count them. *)
Record marking := { toRemove : gset Z; visited : list Z }.

Definition no_marks : marking := {| toRemove := ∅; visited := [] |}.

(** [db.comments.filter(c => c.parentId === id)] *)
Definition children (cs : list comment) (id : Z) : list comment :=
  List.filter (λ c, strict_equals_num (c_parentId c) id) cs.

(** [function markDescendants(id)], with the frames left on the stack. *)
Fixpoint markDescendants (stack : nat) (cs : list comment) (id : Z)
    (m : marking) : option marking :=
  match stack with
  | O => None
  | S stack' =>
      (* toRemove.add(Number(id)) *)
      let m1 := {| toRemove := {[id]} ∪ toRemove m;
                   visited := visited m ++ [id] |} in
      foldl (λ acc child, m' ← acc; markDescendants stack' cs (c_id child) m')
            (Some m1) (children cs id)
  end.

(** [app.delete('/api/comments/:id')] *)
Definition delete_comment (stack : nat) (d : db) (uid commentId : Z) : result :=
  match find_comment commentId (comments d) with
  | None => reject d 404 "Comment not found"
  | Some comment =>
      if negb (c_userId comment =? uid) then reject d 403 "Not allowed"
      else
        match markDescendants stack (comments d) commentId no_marks with
        | None => throw_before_save d
        | Some m =>
            let d' :=
              {| users := users d;
                 comments :=
                   List.filter (λ c, negb (bool_decide (c_id c ∈ toRemove m)))
                               (comments d);
                 nextCommentId := nextCommentId d;
                 nextUserId := nextUserId d |} in
            emit_and_respond d' (Json 200 (Message "Deleted"))
        end
  end.

(** The six reaction kinds, [valid]. *)
Inductive kind := Like | Love | Haha | Wow | Sad | Angry.

#[global] Instance kind_eq_dec : EqDecision kind.
Proof. solve_decision. Defined.

(** [valid.includes(reaction)] together with the kind that was named. *)
Definition valid_kind (reaction : jsval) : option kind :=
  match reaction with
  | JStr s =>
      if bool_decide (s = "like") then Some Like
      else if bool_decide (s = "love") then Some Love
      else if bool_decide (s = "haha") then Some Haha
      else if bool_decide (s = "wow") then Some Wow
      else if bool_decide (s = "sad") then Some Sad
      else if bool_decide (s = "angry") then Some Angry
      else None
  | _ => None
  end.

(** [comment.reactions[reaction]] *)
Definition reaction_users (k : kind) (r : reactions) : list Z :=
  match k with
  | Like => like r | Love => love r | Haha => haha r
  | Wow => wow r | Sad => sad r | Angry => angry r
  end.

Definition set_reaction_users (k : kind) (l : list Z) (r : reactions)
  : reactions :=
  {| like := if k is Like then l else like r;
     love := if k is Love then l else love r;
     haha := if k is Haha then l else haha r;
     wow := if k is Wow then l else wow r;
     sad := if k is Sad then l else sad r;
     angry := if k is Angry then l else angry r |}.

(** [arr.indexOf(userId)]; [None] stands for [-1]. *)
Fixpoint indexOf (x : Z) (arr : list Z) : option nat :=
  match arr with
  | [] => None
  | y :: arr' => if y =? x then Some O else S <$> indexOf x arr'
  end.

(** [if (idx === -1) arr.push(userId); else arr.splice(idx, 1);] *)
Definition toggle (userId : Z) (arr : list Z) : list Z :=
  match indexOf userId arr with
  | None => arr ++ [userId]
  | Some idx => delete idx arr
  end.

Definition toggle_reaction (k : kind) (userId : Z) (c : comment) : comment :=
  {| c_id := c_id c;
     c_userId := c_userId c;
     c_userName := c_userName c;
     c_avatar := c_avatar c;
     c_content := c_content c;
     c_createdAt := c_createdAt c;
     c_updatedAt := c_updatedAt c;
     c_parentId := c_parentId c;
     c_reactions :=
       set_reaction_users k (toggle userId (reaction_users k (c_reactions c)))
                          (c_reactions c) |}.

(** [app.post('/api/reactions')]; [commentId] is the integer
    [Number(commentId)] evaluates to. *)
Definition react (d : db) (uid commentId : Z) (reaction : jsval) : result :=
  match valid_kind reaction with
  | None => reject d 400 "Invalid reaction"
  | Some k =>
      match find_comment commentId (comments d) with
      | None => reject d 404 "Comment not found"
      | Some comment =>
          let d' :=
            {| users := users d;
               comments := update_first (λ c, c_id c =? commentId)
                             (toggle_reaction k uid) (comments d);
               nextCommentId := nextCommentId d;
               nextUserId := nextUserId d |} in
          emit_and_respond d'
            (Json 200 (ReactionsBody (c_reactions (toggle_reaction k uid comment))))
      end
  end.

(** ** Runs of the server *)

Inductive request :=
  | Create (uid : Z) (content parentId : jsval) (now : Z)
  | Edit (uid commentId : Z) (content : jsval) (now : Z)
  | Delete (uid commentId : Z)
  | React (uid commentId : Z) (reaction : jsval).

Definition handle (stack : nat) (d : db) (r : request) : result :=
  match r with
  | Create uid content parentId now => create_comment d uid content parentId now
  | Edit uid commentId content now => edit_comment d uid commentId content now
  | Delete uid commentId => delete_comment stack d uid commentId
  | React uid commentId reaction => react d uid commentId reaction
  end.

(** The requests are served in turn, each on the dataset the one before
    left on disk: no request is taken while another is between its
    [loadDB] and its [saveDB]. *)
Fixpoint serve (stack : nat) (d : db) (rs : list request) : list result :=
  match rs with
  | [] => []
  | r :: rs' =>
      let res := handle stack d r in
      res :: serve stack (persisted res) rs'
  end.

(** The id a create request was answered with ([201 { comment }]). *)
Definition created_id (r : result) : option Z :=
  match sent r with
  | Json 201 (CommentBody c) => Some (c_id c)
  | _ => None
  end.

Definition created_ids (rs : list result) : list Z := omap created_id rs.

(** The dataset on disk after the requests [rs], served in turn. *)
Definition final (stack : nat) (d : db) (rs : list request) : db :=
  foldl (λ d r, persisted (handle stack d r)) d rs.

(** ** Requests in flight

    The handlers are [async] functions: one gives way at [await loadDB()]
    and at [await saveDB(db)], and the server takes other requests in
    between; nothing in the program makes a handler wait for another.
    What a handler computes depends on the dataset it read, and [saveDB]
    replaces the whole file by what the handler made of it, whatever was
    written since.  The file is read and written in one piece each. *)

(** A turn of the event loop: a new request is taken and runs until it has
    read [db.json]; or the request in flight at position [i] goes on from
    there to its end. *)
Inductive turn :=
  | Takes (r : request)
  | Resumes (i : nat).

Record server := {
  file : db;                          (* [db.json] *)
  in_flight : list (request * db);    (* the requests that have read the
                                         file, each with what it read *)
  answers : list result }.            (* the requests that are over, in the
                                         order they ended *)

Definition idle (d : db) : server :=
  {| file := d; in_flight := []; answers := [] |}.

Definition take_turn (stack : nat) (s : server) (t : turn) : server :=
  match t with
  | Takes r =>
      {| file := file s;
         in_flight := in_flight s ++ [(r, file s)];
         answers := answers s |}
  | Resumes i =>
      match in_flight s !! i with
      | Some (r, read) =>
          let res := handle stack read r in
          {| file := if saved res then persisted res else file s;
             in_flight := delete i (in_flight s);
             answers := answers s ++ [res] |}
      | None => s
      end
  end.

Definition run (stack : nat) (s : server) (ts : list turn) : server :=
  foldl (take_turn stack) s ts.

(** The schedule of [serve]: each request is over before the next is
    taken. *)
Definition one_at_a_time (rs : list request) : list turn :=
  r ← rs; [Takes r; Resumes 0].

(** The integers a counter counts exactly: a JavaScript number is a
    double, and [n++] adds one as long as both [n] and [n + 1] are among
    these. *)
Definition exact (n : Z) : Prop := - 2 ^ 53 ≤ n ≤ 2 ^ 53.

(** ** Vocabulary of the statements *)

(** The keys under which [buildCommentsTree] files the comments of a list. *)
Definition comment_key (c : comment) : string := id_key (c_id c).

Definition is_root (c : comment) : bool := is_nullish (c_parentId c).

(** [c] is filed under the entry [k]: its parentId is not null and reads
    as the property name [k]. *)
Definition replies_to (k : string) (c : comment) : bool :=
  negb (is_nullish (c_parentId c))
  && bool_decide (to_property_key (c_parentId c) = Some k).

Definition root_keys (cs : list comment) : list string :=
  comment_key <$> List.filter is_root cs.

Definition reply_keys (cs : list comment) (k : string) : list string :=
  comment_key <$> List.filter (replies_to k) cs.

(** The second pass goes through for [c]: its parentId is null, or it
    reads as a property name that is either the key of a comment of the
    list or not a name inherited from [Object.prototype]. *)
Definition linkable (cs : list comment) (c : comment) : Prop :=
  is_nullish (c_parentId c) = true ∨
  ∃ k, to_property_key (c_parentId c) = Some k ∧
       (k ∈ comment_key <$> cs ∨ k ∉ object_prototype_keys).

Definition occurrences (k : string) (l : list string) : nat :=
  length (List.filter (λ x, bool_decide (x = k)) l).

(** The entry a comment gets in the first pass. *)
Definition entry (c : comment) (replies : list string) : node :=
  {| n_comment := c; n_replies := replies |}.

(** An entry after some more replies were pushed. *)
Definition add_replies (l : list string) (nd : node) : node :=
  {| n_comment := n_comment nd; n_replies := n_replies nd ++ l |}.

(** The second pass throws on [c] exactly when the parentId is not null and
    either has no property name or names an inherited property. *)
Definition throws_on (map : gmap string node) (c : comment) : bool :=
  negb (is_nullish (c_parentId c)) &&
  match to_property_key (c_parentId c) with
  | None => true
  | Some k =>
      match get_property map k with
      | Inherited => true
      | _ => false
      end
  end.

(** The [forEach] of [markDescendants]: the calls on the children, one
    after the other, on the marking the one before left. *)
Definition mark_children (stack : nat) (cs : list comment)
    (l : list comment) (m : marking) : option marking :=
  foldl (λ acc child, m' ← acc; markDescendants stack cs (c_id child) m')
        (Some m) l.

(** [x] is [root] or is reached from it through parentId links; a comment
    is linked to the comment its parentId strictly equals the id of. *)
Inductive descends (cs : list comment) (root : Z) : Z → Prop :=
  | descends_refl : descends cs root root
  | descends_step c p :
      descends cs root p → c ∈ cs → c_parentId c = JNum p →
      descends cs root (c_id c).

(** No cycle among the links below [root]: every link there goes from a
    comment to a parent of greater rank. *)
Definition acyclic_below (cs : list comment) (root : Z) (rank : Z → nat) : Prop :=
  ∀ c p, c ∈ cs → c_parentId c = JNum p → descends cs root p →
         (rank (c_id c) < rank p)%nat.

(** The least number of frames, up to [bound], with which the traversal
    from [x] returns. *)
Definition frames_needed (cs : list comment) (bound : nat) (x : Z) : nat :=
  match list_find (λ s, is_Some (markDescendants s cs x no_marks))
                  (seq 0 (S bound)) with
  | Some (i, _) => i
  | None => S bound
  end.

(** Every comment of the dataset has an id below the counter. *)
Definition ids_below_counter (d : db) : Prop :=
  ∀ c, c ∈ comments d → c_id c < nextCommentId d.

(** ** Sample data *)

Definition ann : user :=
  {| u_id := 1; u_name := JStr "ann"; u_email := JStr "ann@example.org";
     u_passwordHash := "hash-a"; u_avatar := "avatar-a" |}.

Definition bob : user :=
  {| u_id := 2; u_name := JStr "bob"; u_email := JStr "bob@example.org";
     u_passwordHash := "hash-b"; u_avatar := "avatar-b" |}.

(** A comment by ann (user 1) or bob as [create_comment] would store it. *)
Definition sample_comment (id uid created : Z) (parent : jsval) : comment :=
  let author := if uid =? 1 then ann else bob in
  {| c_id := id; c_userId := uid; c_userName := u_name author;
     c_avatar := u_avatar author; c_content := "text"; c_createdAt := created;
     c_updatedAt := None; c_parentId := parent; c_reactions := no_reactions |}.

Definition board (cs : list comment) (next : Z) : db :=
  {| users := [ann; bob]; comments := cs; nextCommentId := next; nextUserId := 3 |}.

(** A thread: 1 is a root, 2 and 3 reply to 1, 4 replies to 2; 5 is a
    second, newer root. *)
Definition thread : list comment :=
  [ sample_comment 1 1 10 JNull; sample_comment 2 2 20 (JNum 1);
    sample_comment 3 1 30 (JNum 1); sample_comment 4 1 40 (JNum 2);
    sample_comment 5 2 50 JNull ].

(** A comment that names itself as its parent: what the first create
    request on an empty board stores when its body has [parentId: 1]. *)
Definition self_reply : list comment := [ sample_comment 1 1 10 (JNum 1) ].

(** Two comments that name each other. *)
Definition two_cycle : list comment :=
  [ sample_comment 1 1 10 (JNum 2); sample_comment 2 1 20 (JNum 1) ].

(** Comment 1 names a comment that does not exist; comment 2 replies to
    comment 1. *)
Definition dangling_thread : list comment :=
  [ sample_comment 1 1 10 (JNum 99); sample_comment 2 1 20 (JNum 1) ].

(** ** Accounts and tokens

    The account routes and the middleware call libraries and built-ins
    that are parameters here: [jsonwebtoken] ([sign], [verify], both
    reading the clock for the issue and expiry dates), [bcryptjs]
    ([compare] on two strings; the salted hash [bcrypt.hash] resolved to is
    an argument of [register], like the clock), [encodeURIComponent] on a
    string, and [String.prototype.toLowerCase].
    A field of a request body is any JSON value, [JUndefined] when it is
    absent. *)

(** The payload of a token: [{ id, name, email }]. *)
Record payload := { p_id : Z; p_name : jsval; p_email : jsval }.

(** [s.split(' ')] *)
Fixpoint split_spaces (s : string) : list string :=
  match s with
  | EmptyString => [EmptyString]
  | String a s' =>
      if bool_decide (a = " "%char) then EmptyString :: split_spaces s'
      else
        match split_spaces s' with
        | w :: ws => String a w :: ws
        | [] => [String a EmptyString]
        end
  end.

Fixpoint has_space (s : string) : bool :=
  match s with
  | EmptyString => false
  | String a s' => bool_decide (a = " "%char) || has_space s'
  end.

(** [!field], of the [authorization] header: a missing header and the
    empty string are falsy. *)
Definition given (field : option string) : option string :=
  match field with
  | Some s => if bool_decide (s = "") then None else Some s
  | None => None
  end.

(** The [user] object of a response: the record without its hash. *)
Record public_user := {
  pu_id : Z; pu_name : jsval; pu_email : jsval; pu_avatar : string }.

Definition public (u : user) : public_user :=
  {| pu_id := u_id u; pu_name := u_name u; pu_email := u_email u;
     pu_avatar := u_avatar u |}.

Inductive account_body :=
  | AccountMessage (m : string)
  | Session (u : public_user) (token : string).

Inductive account_response :=
  | AccountJson (status : Z) (b : account_body)
  | AccountThrew.              (* the handler threw: no response is sent *)

Record account_result := {
  a_persisted : db;            (* [db.json] when the handler is over *)
  a_sent : account_response }.

(** [return res.status(code).json({ message })] *)
Definition refuse (d : db) (code : Z) (m : string) : account_result :=
  {| a_persisted := d; a_sent := AccountJson code (AccountMessage m) |}.

(** An exception; both account handlers can only throw before [saveDB]. *)
Definition account_throws (d : db) : account_result :=
  {| a_persisted := d; a_sent := AccountThrew |}.

(** What the middleware does with a request. *)
Inductive auth_outcome :=
  | Unauthorized (m : string)  (* [res.status(401).json({ message })] *)
  | Next (user : payload).     (* [req.user = payload; next()] *)

(** The routes behind the middleware, without the user they act for. *)
Inductive api_request :=
  | ApiCreate (content parentId : jsval)
  | ApiEdit (commentId : Z) (content : jsval)
  | ApiDelete (commentId : Z)
  | ApiReact (commentId : Z) (reaction : jsval).

Definition on_behalf_of (uid : Z) (now : Z) (r : api_request) : request :=
  match r with
  | ApiCreate content parentId => Create uid content parentId now
  | ApiEdit commentId content => Edit uid commentId content now
  | ApiDelete commentId => Delete uid commentId
  | ApiReact commentId reaction => React uid commentId reaction
  end.

Section Accounts.

Variable sign : Z → payload → string.
Variable verify : Z → string → option payload.
Variable compare : string → string → bool.
Variable encodeURIComponent : string → string.
Variable toLowerCase : string → string.

(** [function generateToken(user)] *)
Definition generateToken (now : Z) (u : user) : string :=
  sign now {| p_id := u_id u; p_name := u_name u; p_email := u_email u |}.

(** [function authMiddleware(req, res, next)], on the [authorization]
    header; [verify] gives [None] when [jwt.verify] throws. *)
Definition authMiddleware (now : Z) (authorization : option string)
  : auth_outcome :=
  match given authorization with
  | None => Unauthorized "Missing authorization header"
  | Some auth =>
      match split_spaces auth with
      | [_; token] =>
          match verify now token with
          | Some p => Next p
          | None => Unauthorized "Invalid token"
          end
      | _ => Unauthorized "Invalid authorization header"
      end
  end.

(** A route registered as [app.post(path, authMiddleware, handler)]: the
    handler runs for the user of the token, or not at all. *)
Definition api_handle (stack : nat) (now : Z) (authorization : option string)
    (d : db) (r : api_request) : result :=
  match authMiddleware now authorization with
  | Unauthorized m => reject d 401 m
  | Next p => handle stack d (on_behalf_of (p_id p) now r)
  end.

(** [db.users.find(u => u.email.toLowerCase() === email.toLowerCase())]:
    the users are tried in order up to the first one with that e-mail.
    Only a string has a [toLowerCase] method: at the first user tried the
    call throws a [TypeError] ([None]) when the stored e-mail or the e-mail
    sent is not a string.  When there is no user the callback is never
    called. *)
Fixpoint find_email (email : jsval) (us : list user) : option (option user) :=
  match us with
  | [] => Some None
  | u :: us' =>
      match u_email u, email with
      | JStr stored, JStr sent =>
          if bool_decide (toLowerCase stored = toLowerCase sent)
          then Some (Some u)
          else find_email email us'
      | _, _ => None
      end
  end.

(** [app.post('/api/auth/register')].  [bcrypt.hash] rejects a password
    that is not a string, and the [await] throws.  [encodeURIComponent]
    first turns its argument into a string, by the conversion that
    [to_property_key] is, which can throw. *)
Definition register (d : db) (name email password : jsval)
    (passwordHash : string) (now : Z) : account_result :=
  if negb (to_boolean name) || negb (to_boolean email)
     || negb (to_boolean password)
  then refuse d 400 "name, email, password required"
  else
    match find_email email (users d) with
    | None => account_throws d
    | Some (Some _) => refuse d 400 "Email already registered"
    | Some None =>
        match password with
        | JStr _ =>
            match to_property_key email with
            | Some text =>
                let newUser :=
                  {| u_id := nextUserId d;
                     u_name := name;
                     u_email := email;
                     u_passwordHash := passwordHash;
                     u_avatar := "https://i.pravatar.cc/48?u=" +:+ encodeURIComponent text |} in
                let d' :=
                  {| users := users d ++ [newUser];
                     comments := comments d;
                     nextCommentId := nextCommentId d;
                     nextUserId := nextUserId d + 1 |} in
                {| a_persisted := d';
                   a_sent := AccountJson 200
                               (Session (public newUser) (generateToken now newUser)) |}
            | None => account_throws d
            end
        | _ => account_throws d
        end
    end.

(** [app.post('/api/auth/login')].  [bcrypt.compare] rejects a password
    that is not a string, and the [await] throws. *)
Definition login (d : db) (email password : jsval) (now : Z)
  : account_result :=
  if negb (to_boolean email) || negb (to_boolean password)
  then refuse d 400 "email and password required"
  else
    match find_email email (users d) with
    | None => account_throws d
    | Some None => refuse d 400 "Invalid credentials"
    | Some (Some user) =>
        match password with
        | JStr pw =>
            if compare pw (u_passwordHash user) then
              {| a_persisted := d;
                 a_sent := AccountJson 200
                             (Session (public user) (generateToken now user)) |}
            else refuse d 400 "Invalid credentials"
        | _ => account_throws d
        end
    end.

(** *** Vocabulary of the account statements *)

(** The three fields of a registration are truthy. *)
Definition all_given (name email password : jsval) : Prop :=
  to_boolean name = true ∧ to_boolean email = true ∧ to_boolean password = true.

(** No stored user has the e-mail sent, and the search goes through:
    there is no user at all, or the e-mail sent and the stored e-mails are
    strings that differ by more than the case of their letters. *)
Definition email_free (email : jsval) (us : list user) : Prop :=
  us = [] ∨
  ∃ sent, email = JStr sent ∧
    ∀ u, u ∈ us → ∃ stored, u_email u = JStr stored ∧
                            toLowerCase stored ≠ toLowerCase sent.

(** [u] is the first user with the e-mail sent, letter case apart, the
    e-mail sent and the e-mails stored up to [u] being strings. *)
Definition email_of (email : jsval) (us : list user) (u : user) : Prop :=
  ∃ sent stored before after,
    email = JStr sent ∧ us = before ++ u :: after ∧
    u_email u = JStr stored ∧ toLowerCase stored = toLowerCase sent ∧
    ∀ v, v ∈ before → ∃ other, u_email v = JStr other ∧
                               toLowerCase other ≠ toLowerCase sent.

(** The e-mail as [find] compares it. *)
Definition email_key (v : jsval) : jsval :=
  match v with
  | JStr s => JStr (toLowerCase s)
  | _ => v
  end.

(** The e-mails of the dataset differ by more than the case of their
    letters. *)
Definition emails_distinct (d : db) : Prop :=
  NoDup ((λ u, email_key (u_email u)) <$> users d).

End Accounts.

(** [app.get('/api/comments')]: the forest sent, or [None] when the
    builder throws. *)
Definition list_comments (d : db) : option forest :=
  buildCommentsTree (comments d).

(** The users of the dataset have ids below the counter. *)
Definition user_ids_below_counter (d : db) : Prop :=
  ∀ u, u ∈ users d → u_id u < nextUserId d.

(** Stand-ins for the libraries, for the examples: a token names the user
    id and is valid for a week, a hash is the password behind a prefix, and
    letters are folded over ASCII. *)
Definition sample_sign (now : Z) (p : payload) : string :=
  pretty now +:+ "." +:+ pretty (p_id p).

Definition sample_verify (now : Z) (token : string) : option payload :=
  if bool_decide (token = "100.3") && (100 <=? now) && (now <? 100 + 604800)
  then Some {| p_id := 3; p_name := JStr "cid"; p_email := JStr "Cid@Example.org" |}
  else None.

Definition sample_compare (password hash : string) : bool :=
  bool_decide (hash = "bcrypt:" +:+ password).

Definition sample_encode (s : string) : string := s.

Definition lower_ascii (a : ascii) : ascii :=
  let n := Ascii.N_of_ascii a in
  if ((65 <=? n) && (n <=? 90))%N then Ascii.ascii_of_N (n + 32) else a.

Fixpoint sample_toLowerCase (s : string) : string :=
  match s with
  | EmptyString => EmptyString
  | String a s' => String (lower_ascii a) (sample_toLowerCase s')
  end.

(** Cid registers on the sample board. *)
Definition cid_registration : account_result :=
  register sample_sign sample_encode sample_toLowerCase (board [] 1)
    (JStr "cid") (JStr "Cid@Example.org") (JStr "pw") "bcrypt:pw" 100.

Definition cid : public_user :=
  {| pu_id := 3; pu_name := JStr "cid"; pu_email := JStr "Cid@Example.org";
     pu_avatar := "https://i.pravatar.cc/48?u=Cid@Example.org" |}.

(** ** Vocabulary of the invariants *)

(** The fields no handler writes after the comment is created. *)
Definition same_origin (c c' : comment) : Prop :=
  c_id c' = c_id c ∧ c_userId c' = c_userId c ∧ c_userName c' = c_userName c ∧
  c_avatar c' = c_avatar c ∧ c_createdAt c' = c_createdAt c ∧
  c_parentId c' = c_parentId c.

(** The place of a comment in the thread and in time. *)
Definition same_place (c c' : comment) : Prop :=
  c_id c' = c_id c ∧ c_createdAt c' = c_createdAt c ∧ c_parentId c' = c_parentId c.


(** No reaction list names a user twice. *)
Definition reactions_distinct (d : db) : Prop :=
  ∀ c k, c ∈ comments d → NoDup (reaction_users k (c_reactions c)).

(** Every parentId that is a number is the id of a comment of the list. *)
Definition parents_exist (cs : list comment) : Prop :=
  ∀ c p, c ∈ cs → c_parentId c = JNum p → p ∈ c_id <$> cs.

(** A content as the handlers store it: not blank, and without white space
    at either end. *)
Definition clean (s : string) : Prop := s ≠ "" ∧ trim s = s.

Definition contents_clean (d : db) : Prop :=
  ∀ c, c ∈ comments d → clean (c_content c).

(** The user a request acts for, [req.user.id]. *)
Definition requester (r : request) : Z :=
  match r with
  | Create uid _ _ _ | Edit uid _ _ _ | Delete uid _ | React uid _ _ => uid
  end.

(** A create request whose parentId, when it is a number other than 0,
    is the id of a comment of the dataset. *)
Definition replies_in_place (d : db) (r : request) : Prop :=
  match r with
  | Create _ _ (JNum p) _ => p = 0 ∨ p ∈ c_id <$> comments d
  | _ => True
  end.

(** Two forests of the same shape: the same roots in the same order, and
    under every key the same replies in the same order. *)
Definition same_shape (f f' : forest) : Prop :=
  roots f' = roots f ∧
  ∀ k, n_replies <$> nodes f' !! k = n_replies <$> nodes f !! k.

(** One step of [strip]: what follows the white space a string begins
    with, if it begins with one. *)
Definition drop_white (w : list ascii → bool) (s : string) : option string :=
  match s with
  | String a s1 =>
      if w [a] then Some s1 else
      match s1 with
      | String b s2 =>
          if w [a; b] then Some s2 else
          match s2 with
          | String c s3 => if w [a; b; c] then Some s3 else None
          | EmptyString => None
          end
      | EmptyString => None
      end
  | EmptyString => None
  end.

(** * Properties

    ** Lists, lookups and the common tail of the handlers *)

Lemma find_comment_split commentId cs c :
  find_comment commentId cs = Some c →
  ∃ before after,
    cs = before ++ c :: after ∧ c_id c = commentId ∧
    ∀ x, x ∈ before → c_id x ≠ commentId.
Proof.
  unfold find_comment. induction cs as [|y cs IH]; simpl; [done|].
  destruct (Z.eqb_spec (c_id y) commentId) as [Heq|Hne].
  - intros [= ->]. exists [], cs. split_and!; [done..|].
    intros x Hx. by apply not_elem_of_nil in Hx.
  - intros (before & after & -> & Hid & Hb)%IH.
    exists (y :: before), after. split_and!; [done..|].
    intros x [->|Hx]%elem_of_cons; auto.
Qed.

Lemma find_comment_first commentId before c after :
  c_id c = commentId → (∀ x, x ∈ before → c_id x ≠ commentId) →
  find_comment commentId (before ++ c :: after) = Some c.
Proof.
  intros Hid. unfold find_comment.
  induction before as [|y before IH]; intros Hb; simpl.
  - by rewrite (proj2 (Z.eqb_eq _ _) Hid).
  - destruct (Z.eqb_spec (c_id y) commentId) as [Heq|Hne].
    + exfalso. eapply Hb; [left|done].
    + apply IH. intros x Hx. apply Hb. by right.
Qed.

Lemma update_first_split commentId f before c after :
  c_id c = commentId → (∀ x, x ∈ before → c_id x ≠ commentId) →
  update_first (λ x, c_id x =? commentId) f (before ++ c :: after)
  = before ++ f c :: after.
Proof.
  intros Hid. induction before as [|y before IH]; intros Hb; simpl.
  - by rewrite (proj2 (Z.eqb_eq _ _) Hid).
  - destruct (Z.eqb_spec (c_id y) commentId) as [Heq|Hne].
    + exfalso. eapply Hb; [left|done].
    + f_equal. apply IH. intros x Hx. apply Hb. by right.
Qed.

Lemma persisted_emit_and_respond d r : persisted (emit_and_respond d r) = d.
Proof. unfold emit_and_respond. by destruct (buildCommentsTree _). Qed.

Lemma sent_emit_and_respond d r s b :
  sent (emit_and_respond d r) = Json s b →
  r = Json s b ∧
  ∃ t, buildCommentsTree (comments d) = Some t ∧
       emitted (emit_and_respond d r) = [CommentsUpdate t].
Proof.
  unfold emit_and_respond. destruct (buildCommentsTree _) as [t|]; simpl; [|done].
  intros ->. eauto.
Qed.

(** ** Toggling a reaction *)

Lemma indexOf_None x arr : indexOf x arr = None ↔ x ∉ arr.
Proof.
  induction arr as [|y arr IH]; simpl.
  - split; [intros _; apply not_elem_of_nil | done].
  - destruct (Z.eqb_spec y x) as [->|Hne].
    + split; [done | intros H; exfalso; apply H; left].
    + rewrite fmap_None, IH, not_elem_of_cons. split; [intros ?; split; congruence | by intros [_ ?]].
Qed.

Lemma indexOf_Some x arr i : indexOf x arr = Some i → arr !! i = Some x.
Proof.
  revert i. induction arr as [|y arr IH]; intros i; simpl; [done|].
  destruct (Z.eqb_spec y x) as [->|Hne].
  - by intros [= <-].
  - intros [j [Hj ->]]%fmap_Some. simpl. by apply IH.
Qed.

Lemma toggle_absent x arr : x ∉ arr → toggle x arr = arr ++ [x].
Proof. intros H. unfold toggle. by apply indexOf_None in H as ->. Qed.

Lemma toggle_present x arr :
  x ∈ arr → ∃ i, arr !! i = Some x ∧ toggle x arr = delete i arr.
Proof.
  intros H. unfold toggle. destruct (indexOf x arr) as [i|] eqn:E.
  - exists i. split; [by apply indexOf_Some | done].
  - by apply indexOf_None in E.
Qed.

Lemma toggle_present_perm x arr : x ∈ arr → arr ≡ₚ x :: toggle x arr.
Proof.
  intros (i & Hi & ->)%toggle_present. by apply delete_Permutation.
Qed.

Lemma toggle_NoDup x arr : NoDup arr → NoDup (toggle x arr).
Proof.
  intros Hnd. destruct (decide (x ∈ arr)) as [Hin|Hout].
  - pose proof (toggle_present_perm _ _ Hin) as Hp.
    rewrite Hp in Hnd. by apply NoDup_cons in Hnd as [_ ?].
  - rewrite toggle_absent by done. apply NoDup_app. split_and!; [done| |apply NoDup_singleton].
    intros y Hy ->%list_elem_of_singleton. done.
Qed.

Lemma toggle_removes x arr : NoDup arr → x ∈ arr → x ∉ toggle x arr.
Proof.
  intros Hnd Hin. pose proof (toggle_present_perm _ _ Hin) as Hp.
  rewrite Hp in Hnd. by apply NoDup_cons in Hnd as [? _].
Qed.

Lemma toggle_adds x arr : x ∉ arr → x ∈ toggle x arr.
Proof. intros H. rewrite toggle_absent by done. set_solver. Qed.

Lemma toggle_others x y arr : y ≠ x → y ∈ toggle x arr ↔ y ∈ arr.
Proof.
  intros Hne. destruct (decide (x ∈ arr)) as [Hin|Hout].
  - rewrite (toggle_present_perm _ _ Hin) at 2. set_solver.
  - rewrite toggle_absent by done. set_solver.
Qed.

Lemma toggle_twice_absent x arr : x ∉ arr → toggle x (toggle x arr) = arr.
Proof.
  intros H. rewrite (toggle_absent x arr) by done.
  unfold toggle.
  assert (indexOf x (arr ++ [x]) = Some (length arr)) as ->.
  { clear -H. induction arr as [|y arr IH]; simpl.
    - by rewrite Z.eqb_refl.
    - apply not_elem_of_cons in H as [Hne Hni].
      destruct (Z.eqb_spec y x); [congruence|]. by rewrite IH. }
  clear. induction arr as [|y arr IH]; simpl; [done|]. by f_equal.
Qed.

Lemma toggle_twice_perm x arr : NoDup arr → toggle x (toggle x arr) ≡ₚ arr.
Proof.
  intros Hnd. destruct (decide (x ∈ arr)) as [Hin|Hout].
  - rewrite (toggle_absent x (toggle x arr)) by by apply toggle_removes.
    rewrite (toggle_present_perm _ _ Hin) at 2.
    by rewrite Permutation_app_comm.
  - by rewrite toggle_twice_absent.
Qed.

(** ** The tree builder *)

Section Linking.

Implicit Types (cs : list comment) (st : linking) (k : string).

Lemma add_replies_nil nd : add_replies [] nd = nd.
Proof. destruct nd. unfold add_replies. simpl. by rewrite app_nil_r. Qed.

Lemma add_replies_app l1 l2 nd :
  add_replies l2 (add_replies l1 nd) = add_replies (l1 ++ l2) nd.
Proof. unfold add_replies. simpl. by rewrite app_assoc. Qed.

Lemma foldl_bind_None {A B} (f : A → B → option A) (l : list B) :
  foldl (λ acc x, a ← acc; f a x) None l = None.
Proof. by induction l. Qed.

Lemma link_comments_cons c cs st :
  link_comments (c :: cs) st =
  match link_comment st c with
  | Some st' => link_comments cs st'
  | None => None
  end.
Proof.
  unfold link_comments. simpl.
  destruct (link_comment st c); [done | apply foldl_bind_None].
Qed.

Lemma root_keys_cons c cs :
  root_keys (c :: cs) = (if is_root c then [comment_key c] else []) ++ root_keys cs.
Proof. unfold root_keys. simpl. by destruct (is_root c). Qed.

Lemma reply_keys_cons c cs k :
  reply_keys (c :: cs) k =
  (if replies_to k c then [comment_key c] else []) ++ reply_keys cs k.
Proof. unfold reply_keys. simpl. by destruct (replies_to k c). Qed.

(** What one iteration does to the roots and to each entry. *)
Lemma link_comment_spec st c st' :
  link_comment st c = Some st' →
  l_roots st' = l_roots st ++ (if is_root c then [comment_key c] else []) ∧
  ∀ k, l_map st' !! k =
       add_replies (if replies_to k c then [comment_key c] else [])
         <$> l_map st !! k.
Proof.
  unfold link_comment, is_root, replies_to.
  destruct (is_nullish (c_parentId c)) eqn:Hnull; simpl.
  - intros [= <-]. simpl. split; [done|]. intros k.
    destruct (l_map st !! k) as [nd|]; simpl; [|done].
    by rewrite add_replies_nil.
  - destruct (to_property_key (c_parentId c)) as [k0|] eqn:Hkey; simpl; [|done].
    unfold get_property. destruct (l_map st !! k0) as [nd0|] eqn:Hnd0.
    + intros [= <-]. simpl. split; [by rewrite app_nil_r|]. intros k.
      destruct (decide (k0 = k)) as [->|Hne].
      * rewrite lookup_insert_eq, Hnd0, bool_decide_eq_true_2 by done. done.
      * rewrite lookup_insert_ne by done.
        rewrite bool_decide_eq_false_2 by congruence.
        destruct (l_map st !! k); simpl; [|done]. by rewrite add_replies_nil.
    + case_bool_decide; [done|]. intros [= <-]. split; [by rewrite app_nil_r|].
      intros k. destruct (l_map st !! k) as [nd|] eqn:Hnd; simpl; [|done].
      rewrite bool_decide_eq_false_2; [by rewrite add_replies_nil|].
      intros [= ->]. congruence.
Qed.

Lemma link_comments_spec cs st st' :
  link_comments cs st = Some st' →
  l_roots st' = l_roots st ++ root_keys cs ∧
  ∀ k, l_map st' !! k = add_replies (reply_keys cs k) <$> l_map st !! k.
Proof.
  revert st. induction cs as [|c cs IH]; intros st.
  - intros [= <-]. split; [by rewrite app_nil_r|]. intros k.
    destruct (l_map st !! k); simpl; [|done]. by rewrite add_replies_nil.
  - rewrite link_comments_cons.
    destruct (link_comment st c) as [st1|] eqn:H1; [|done].
    intros [Hr Hm]%IH. apply link_comment_spec in H1 as [Hr1 Hm1].
    split.
    + by rewrite Hr, Hr1, root_keys_cons, app_assoc.
    + intros k. rewrite Hm, Hm1, reply_keys_cons.
      destruct (l_map st !! k); simpl; [|done]. by rewrite add_replies_app.
Qed.

Lemma link_comment_None st c : link_comment st c = None ↔ throws_on (l_map st) c = true.
Proof.
  unfold link_comment, throws_on.
  destruct (is_nullish (c_parentId c)); simpl; [done|].
  destruct (to_property_key (c_parentId c)) as [k|]; simpl; [|done].
  by destruct (get_property (l_map st) k).
Qed.

Lemma get_property_same_keys (m1 m2 : gmap string node) k :
  (is_Some (m1 !! k) ↔ is_Some (m2 !! k)) →
  get_property m1 k = Inherited ↔ get_property m2 k = Inherited.
Proof.
  unfold get_property. intros H.
  destruct (m1 !! k) as [n1|] eqn:E1, (m2 !! k) as [n2|] eqn:E2; try done.
  - destruct H as [H _]. destruct H; [by eexists | done].
  - destruct H as [_ H]. destruct H; [by eexists | done].
Qed.

Lemma throws_on_link_comment st c st' x :
  link_comment st c = Some st' →
  throws_on (l_map st') x = throws_on (l_map st) x.
Proof.
  intros [_ Hm]%link_comment_spec. unfold throws_on.
  destruct (is_nullish (c_parentId x)); simpl; [done|].
  destruct (to_property_key (c_parentId x)) as [k|]; [|done].
  assert (get_property (l_map st') k = Inherited
          ↔ get_property (l_map st) k = Inherited) as Hi.
  { apply get_property_same_keys. rewrite Hm. by rewrite fmap_is_Some. }
  destruct (get_property (l_map st') k), (get_property (l_map st) k);
    try done; destruct Hi as [H1 H2]; try (by discriminate H1);
    by discriminate H2.
Qed.

Lemma link_comments_is_Some cs st :
  is_Some (link_comments cs st) ↔ ∀ c, c ∈ cs → throws_on (l_map st) c = false.
Proof.
  revert st. induction cs as [|c cs IH]; intros st.
  - split; [intros _ c Hc; by apply not_elem_of_nil in Hc | by eexists].
  - rewrite link_comments_cons.
    destruct (link_comment st c) as [st1|] eqn:H1.
    + rewrite IH. split.
      * intros H x [->|Hx]%elem_of_cons.
        -- destruct (throws_on (l_map st) c) eqn:E; [|done].
           apply link_comment_None in E. congruence.
        -- rewrite <- (throws_on_link_comment _ _ _ _ H1). by apply H.
      * intros H x Hx. rewrite (throws_on_link_comment _ _ _ _ H1).
        apply H. by right.
    + split; [by intros [? ?]|]. intros H.
      apply link_comment_None in H1. rewrite H in H1; [done | left].
Qed.

End Linking.

Section Indexing.

Implicit Types (cs : list comment) (k : string).

Lemma index_comments_snoc cs c :
  index_comments (cs ++ [c]) = <[comment_key c := entry c []]> (index_comments cs).
Proof. unfold index_comments. by rewrite foldl_app. Qed.

(** An entry is the copy of the last comment filed under its key. *)
Lemma index_comments_lookup cs k :
  index_comments cs !! k =
  (λ c, entry c []) <$> last (List.filter (λ c, bool_decide (comment_key c = k)) cs).
Proof.
  induction cs as [|c cs IH] using rev_ind; [done|].
  rewrite index_comments_snoc, List.filter_app. simpl.
  case_bool_decide as Hk.
  - subst k. by rewrite lookup_insert_eq, last_snoc.
  - by rewrite lookup_insert_ne, app_nil_r.
Qed.

Lemma index_comments_is_Some cs k :
  is_Some (index_comments cs !! k) ↔ k ∈ comment_key <$> cs.
Proof.
  induction cs as [|c cs IH] using rev_ind.
  - unfold index_comments. simpl. rewrite lookup_empty. split; [by intros [? ?] | by intros ?%elem_of_nil].
  - rewrite index_comments_snoc, fmap_app, elem_of_app. simpl.
    rewrite list_elem_of_singleton.
    destruct (decide (comment_key c = k)) as [->|Hne].
    + rewrite lookup_insert_eq. split; [by right | by eexists].
    + rewrite lookup_insert_ne, IH by done. naive_solver.
Qed.

Lemma comment_key_inj c1 c2 : comment_key c1 = comment_key c2 → c_id c1 = c_id c2.
Proof. unfold comment_key, id_key. apply (inj pretty). Qed.

Lemma filter_none {A} (p : A → bool) (l : list A) :
  (∀ x, x ∈ l → p x = false) → List.filter p l = [].
Proof.
  induction l as [|y l IH]; simpl; [done|]. intros H.
  rewrite (H y) by left. apply IH. intros x Hx. apply H. by right.
Qed.

Lemma filter_key_unique cs c :
  NoDup (c_id <$> cs) → c ∈ cs →
  List.filter (λ x, bool_decide (comment_key x = comment_key c)) cs = [c].
Proof.
  induction cs as [|y cs IH]; simpl; [by intros _ ?%elem_of_nil|].
  intros [Hy Hnd]%NoDup_cons [->|Hc]%elem_of_cons.
  - rewrite bool_decide_eq_true_2 by done. f_equal.
    apply filter_none. intros x Hx. apply bool_decide_eq_false_2.
    intros Hk%comment_key_inj. apply Hy. rewrite <- Hk.
    by apply list_elem_of_fmap_2.
  - rewrite bool_decide_eq_false_2; [by apply IH|].
    intros Hk%comment_key_inj. apply Hy. rewrite Hk.
    by apply list_elem_of_fmap_2.
Qed.

Lemma index_comments_unique cs c :
  NoDup (c_id <$> cs) → c ∈ cs →
  index_comments cs !! comment_key c = Some (entry c []).
Proof.
  intros Hnd Hc. by rewrite index_comments_lookup, filter_key_unique.
Qed.

Lemma index_comments_Some cs k nd :
  index_comments cs !! k = Some nd →
  n_comment nd ∈ cs ∧ comment_key (n_comment nd) = k ∧ n_replies nd = [].
Proof.
  rewrite index_comments_lookup.
  intros (c & Hlast & ->)%fmap_Some. simpl.
  apply last_Some in Hlast as [l' Hl'].
  assert (c ∈ List.filter (λ c, bool_decide (comment_key c = k)) cs) as Hin.
  { rewrite Hl'. apply elem_of_app. right. left. }
  apply list_elem_of_In, List.filter_In in Hin as [Hin Hk].
  apply bool_decide_eq_true in Hk. by apply list_elem_of_In in Hin.
Qed.

End Indexing.

Section Sorting.

Context {A : Type} (t : A → Z).

Local Abbreviation cmp := (λ a b : A, t b - t a).
Local Abbreviation newer_first := (λ a b : A, t b ≤ t a).

Lemma sort_insert_perm x l : sort_insert cmp x l ≡ₚ x :: l.
Proof.
  induction l as [|y l IH]; simpl; [done|].
  destruct (t y - t x <=? 0); [done|]. by rewrite IH, Permutation_swap.
Qed.

Lemma array_sort_perm l : array_sort cmp l ≡ₚ l.
Proof.
  induction l as [|x l IH]; simpl; [done|].
  by rewrite sort_insert_perm, IH.
Qed.

Lemma sort_insert_sorted x l :
  StronglySorted newer_first l → StronglySorted newer_first (sort_insert cmp x l).
Proof.
  induction l as [|y l IH]; simpl; intros Hs.
  - repeat constructor.
  - apply StronglySorted_inv in Hs as [Hl Hy].
    destruct (Z.leb_spec (t y - t x) 0) as [Hle|Hgt]; simpl in *.
    + constructor; [by constructor|]. constructor; [lia|].
      eapply Forall_impl; [exact Hy|]. simpl. intros z Hz. lia.
    + constructor; [by apply IH|].
      rewrite sort_insert_perm. constructor; [lia | done].
Qed.

Lemma array_sort_sorted l : StronglySorted newer_first (array_sort cmp l).
Proof.
  induction l as [|x l IH]; simpl; [constructor | by apply sort_insert_sorted].
Qed.

(** Stability: among the elements with one time stamp the order of the
    array is kept. *)
Lemma sort_insert_stable v x l :
  List.filter (λ a, t a =? v) (sort_insert cmp x l)
  = List.filter (λ a, t a =? v) (x :: l).
Proof.
  induction l as [|y l IH]; [done|].
  cbn [sort_insert]. destruct (Z.leb_spec (t y - t x) 0) as [Hle|Hgt]; [done|].
  simpl in *. rewrite IH. simpl.
  destruct (Z.eqb_spec (t x) v), (Z.eqb_spec (t y) v); try done. lia.
Qed.

Lemma array_sort_stable v l :
  List.filter (λ a, t a =? v) (array_sort cmp l) = List.filter (λ a, t a =? v) l.
Proof.
  induction l as [|x l IH]; [done|].
  cbn [array_sort foldr]. rewrite sort_insert_stable. simpl.
  fold (array_sort cmp l). by rewrite IH.
Qed.

End Sorting.

Lemma sort_insert_fmap {A B} (g : A → B) (cmpA : A → A → Z) (cmpB : B → B → Z) x l :
  (∀ b, b ∈ l → cmpB (g x) (g b) = cmpA x b) →
  sort_insert cmpB (g x) (g <$> l) = g <$> sort_insert cmpA x l.
Proof.
  induction l as [|y l IH]; intros H; [done|].
  cbn [sort_insert fmap list_fmap]. rewrite (H y) by left.
  destruct (cmpA x y <=? 0); [done|].
  cbn [fmap list_fmap]. f_equal. apply IH. intros b Hb. apply H. by right.
Qed.

Lemma sort_insert_elem_of {A} (cmp : A → A → Z) x l a :
  a ∈ sort_insert cmp x l ↔ a = x ∨ a ∈ l.
Proof.
  induction l as [|y l IH]; simpl.
  - rewrite list_elem_of_singleton, elem_of_nil. naive_solver.
  - destruct (cmp x y <=? 0); rewrite !elem_of_cons; [done|].
    rewrite IH. naive_solver.
Qed.

Lemma array_sort_elem_of {A} (cmp : A → A → Z) l a : a ∈ array_sort cmp l ↔ a ∈ l.
Proof.
  induction l as [|x l IH]; [done|].
  cbn [array_sort foldr]. rewrite sort_insert_elem_of. fold (array_sort cmp l).
  by rewrite IH, elem_of_cons.
Qed.

Lemma array_sort_fmap {A B} (g : A → B) (cmpA : A → A → Z) (cmpB : B → B → Z) l :
  (∀ a b, a ∈ l → b ∈ l → cmpB (g a) (g b) = cmpA a b) →
  array_sort cmpB (g <$> l) = g <$> array_sort cmpA l.
Proof.
  induction l as [|x l IH]; intros H; [done|].
  cbn [array_sort foldr fmap list_fmap].
  fold (array_sort cmpB (g <$> l)). fold (array_sort cmpA l).
  rewrite IH by (intros a b Ha Hb; apply H; by right).
  apply sort_insert_fmap. intros b Hb%array_sort_elem_of. apply H; [left | by right].
Qed.

Section Builder.

Implicit Types (cs : list comment) (f : forest) (k : string).

(** The forest, when there is one: the roots are the sorted keys of the
    comments with a null parentId, and the entry under [k] is the copy
    made in the first pass with the keys of the comments filed under [k],
    in the order of the list. *)
Lemma buildCommentsTree_Some cs f :
  buildCommentsTree cs = Some f →
  roots f = array_sort (sortFn (nodes f)) (root_keys cs) ∧
  ∀ k, nodes f !! k = add_replies (reply_keys cs k) <$> index_comments cs !! k.
Proof.
  unfold buildCommentsTree.
  destruct (link_comments cs _) as [st|] eqn:Hl; simpl; [|done].
  intros [= <-]. simpl. by apply link_comments_spec in Hl as [-> Hm].
Qed.

Lemma buildCommentsTree_is_Some cs :
  is_Some (buildCommentsTree cs) ↔
  ∀ c, c ∈ cs → throws_on (index_comments cs) c = false.
Proof.
  rewrite <- (link_comments_is_Some cs {| l_roots := []; l_map := index_comments cs |}).
  unfold buildCommentsTree. by destruct (link_comments cs _); simpl.
Qed.

Lemma throws_on_linkable cs c :
  throws_on (index_comments cs) c = false ↔ linkable cs c.
Proof.
  unfold throws_on, linkable.
  destruct (is_nullish (c_parentId c)); simpl; [naive_solver|].
  destruct (to_property_key (c_parentId c)) as [k|]; [|naive_solver].
  unfold get_property.
  destruct (index_comments cs !! k) as [nd|] eqn:Hk.
  - split; [|done]. intros _. right. exists k. split; [done|]. left.
    apply index_comments_is_Some. by eexists.
  - assert (k ∉ comment_key <$> cs) as Hnot.
    { rewrite <- index_comments_is_Some, Hk. by intros [? ?]. }
    case_bool_decide as Hp; split; try done.
    + intros [|(k' & [= <-] & [|])]; done.
    + intros _. right. exists k. split; [done | by right].
Qed.

Lemma buildCommentsTree_linkable cs :
  is_Some (buildCommentsTree cs) ↔ ∀ c, c ∈ cs → linkable cs c.
Proof.
  rewrite buildCommentsTree_is_Some.
  split; intros H c Hc; apply throws_on_linkable; by apply H.
Qed.

Lemma forest_entry cs f c :
  NoDup (c_id <$> cs) → c ∈ cs → buildCommentsTree cs = Some f →
  nodes f !! comment_key c = Some (entry c (reply_keys cs (comment_key c))).
Proof.
  intros Hnd Hc [_ Hm]%buildCommentsTree_Some.
  by rewrite Hm, index_comments_unique.
Qed.

Lemma forest_entry_Some cs f k nd :
  buildCommentsTree cs = Some f → nodes f !! k = Some nd →
  n_comment nd ∈ cs ∧ comment_key (n_comment nd) = k ∧
  n_replies nd = reply_keys cs k.
Proof.
  intros [_ Hm]%buildCommentsTree_Some. rewrite Hm.
  intros (nd0 & (Hin & Hk & Hr)%index_comments_Some & ->)%fmap_Some.
  unfold add_replies. simpl. by rewrite Hr.
Qed.

Lemma created_of_entry cs f c :
  NoDup (c_id <$> cs) → c ∈ cs → buildCommentsTree cs = Some f →
  created_of (nodes f) (comment_key c) = c_createdAt c.
Proof.
  intros Hnd Hc Hf. unfold created_of. by rewrite (forest_entry cs f c).
Qed.

Lemma omap_fmap_Some {X Y} (h : Y → option X) (g : X → Y) (l : list X) :
  (∀ x, x ∈ l → h (g x) = Some x) → omap h (g <$> l) = l.
Proof.
  induction l as [|x l IH]; intros H; [done|].
  cbn [fmap list_fmap omap list_omap]. rewrite (H x) by left.
  f_equal. apply IH. intros y Hy. apply H. by right.
Qed.

Lemma elem_of_filter_list {X} (p : X → bool) (l : list X) x :
  x ∈ List.filter p l ↔ x ∈ l ∧ p x = true.
Proof. by rewrite !list_elem_of_In, List.filter_In. Qed.

Lemma root_comments_sorted cs f :
  NoDup (c_id <$> cs) → buildCommentsTree cs = Some f →
  root_comments f =
  array_sort (λ a b, c_createdAt b - c_createdAt a) (List.filter is_root cs).
Proof.
  intros Hnd Hf. unfold root_comments.
  destruct (buildCommentsTree_Some _ _ Hf) as [-> _]. unfold root_keys.
  rewrite (array_sort_fmap comment_key (λ a b, c_createdAt b - c_createdAt a)).
  - apply omap_fmap_Some. intros c [Hc _]%array_sort_elem_of%elem_of_filter_list.
    by rewrite (forest_entry cs f c).
  - intros a b [Ha _]%elem_of_filter_list [Hb _]%elem_of_filter_list.
    unfold sortFn. by rewrite !(created_of_entry cs f).
Qed.

Lemma reply_comments_in_order cs f p :
  NoDup (c_id <$> cs) → buildCommentsTree cs = Some f → p ∈ cs →
  reply_comments f (comment_key p) = List.filter (replies_to (comment_key p)) cs.
Proof.
  intros Hnd Hf Hp. unfold reply_comments.
  rewrite (forest_entry cs f p) by done. simpl. unfold reply_keys.
  apply omap_fmap_Some. intros c [Hc _]%elem_of_filter_list.
  by rewrite (forest_entry cs f c).
Qed.

End Builder.

Section Placement.

Implicit Types (cs : list comment) (f : forest) (k : string).

Lemma NoDup_ids_filter (p : comment → bool) cs :
  NoDup (c_id <$> cs) → NoDup (c_id <$> List.filter p cs).
Proof.
  induction cs as [|c cs IH]; simpl; [done|].
  intros [Hc Hnd]%NoDup_cons. destruct (p c); [|by apply IH].
  cbn [fmap list_fmap]. apply NoDup_cons. split; [|by apply IH].
  intros (x & Hx & [Hin _]%elem_of_filter_list)%list_elem_of_fmap.
  apply Hc. rewrite Hx. by apply list_elem_of_fmap_2.
Qed.

Lemma NoDup_comment_keys cs : NoDup (c_id <$> cs) → NoDup (comment_key <$> cs).
Proof.
  intros H.
  assert (comment_key <$> cs = pretty <$> (c_id <$> cs)) as ->.
  { by rewrite <- list_fmap_compose. }
  by apply (NoDup_fmap_2 _).
Qed.

Lemma NoDup_ids_eq cs a b :
  NoDup (c_id <$> cs) → a ∈ cs → b ∈ cs → c_id a = c_id b → a = b.
Proof.
  induction cs as [|c cs IH]; [by intros _ ?%elem_of_nil|].
  intros [Hc Hnd]%NoDup_cons [->|Ha]%elem_of_cons [->|Hb]%elem_of_cons Hid;
    [done| | |by apply IH].
  - destruct Hc. rewrite Hid. by apply list_elem_of_fmap_2.
  - destruct Hc. rewrite <- Hid. by apply list_elem_of_fmap_2.
Qed.

Lemma occurrences_0 k (l : list string) : k ∉ l → occurrences k l = 0%nat.
Proof.
  intros H. unfold occurrences. rewrite filter_none; [done|].
  intros x Hx. apply bool_decide_eq_false_2. by intros ->.
Qed.

Lemma occurrences_NoDup k (l : list string) :
  NoDup l → k ∈ l → occurrences k l = 1%nat.
Proof.
  unfold occurrences. induction l as [|x l IH]; [by intros _ ?%elem_of_nil|].
  intros [Hx Hnd]%NoDup_cons Hk. simpl. case_bool_decide as Hxk.
  - subst x. simpl. f_equal. by apply occurrences_0.
  - apply elem_of_cons in Hk as [->|Hk]; [done | by apply IH].
Qed.

Lemma roots_perm cs f :
  buildCommentsTree cs = Some f → roots f ≡ₚ root_keys cs.
Proof.
  intros [-> _]%buildCommentsTree_Some.
  apply (array_sort_perm (created_of (nodes f))).
Qed.

Lemma elem_of_root_keys cs c :
  NoDup (c_id <$> cs) → c ∈ cs →
  comment_key c ∈ root_keys cs ↔ is_root c = true.
Proof.
  intros Hnd Hc. unfold root_keys. rewrite list_elem_of_fmap. split.
  - intros (x & Hk%comment_key_inj & [Hx Hr]%elem_of_filter_list).
    by rewrite (NoDup_ids_eq cs c x).
  - intros Hr. exists c. split; [done|]. by apply elem_of_filter_list.
Qed.

Lemma elem_of_reply_keys cs c k :
  NoDup (c_id <$> cs) → c ∈ cs →
  comment_key c ∈ reply_keys cs k ↔ replies_to k c = true.
Proof.
  intros Hnd Hc. unfold reply_keys. rewrite list_elem_of_fmap. split.
  - intros (x & Hk%comment_key_inj & [Hx Hr]%elem_of_filter_list).
    by rewrite (NoDup_ids_eq cs c x).
  - intros Hr. exists c. split; [done|]. by apply elem_of_filter_list.
Qed.

Lemma NoDup_root_keys cs : NoDup (c_id <$> cs) → NoDup (root_keys cs).
Proof. intros H. by apply NoDup_comment_keys, NoDup_ids_filter. Qed.

Lemma NoDup_reply_keys cs k : NoDup (c_id <$> cs) → NoDup (reply_keys cs k).
Proof. intros H. by apply NoDup_comment_keys, NoDup_ids_filter. Qed.

Lemma occurrences_perm k (l1 l2 : list string) :
  l1 ≡ₚ l2 → occurrences k l1 = occurrences k l2.
Proof.
  unfold occurrences. induction 1 as [|x l1 l2 _ IH|x y l|l1 l2 l3 _ IH1 _ IH2];
    simpl; [done| | |congruence].
  - destruct (bool_decide (x = k)); simpl; by rewrite IH.
  - by destruct (bool_decide (x = k)), (bool_decide (y = k)).
Qed.

Lemma replies_to_unique c k1 k2 :
  replies_to k1 c = true → replies_to k2 c = true → k1 = k2.
Proof.
  unfold replies_to. intros [_ H1%bool_decide_eq_true]%andb_true_iff
    [_ H2%bool_decide_eq_true]%andb_true_iff. congruence.
Qed.

Lemma replies_to_not_root c k : replies_to k c = true → is_root c = false.
Proof.
  unfold replies_to, is_root. intros [H _]%andb_true_iff.
  by destruct (is_nullish (c_parentId c)).
Qed.

(** A key of the forest is a root, or a reply filed under a key of the
    forest. *)
Lemma reaches_inv cs f k :
  buildCommentsTree cs = Some f → reaches f k →
  k ∈ root_keys cs ∨
  ∃ p c, reaches f p ∧ p ∈ comment_key <$> cs ∧ c ∈ cs ∧
         replies_to p c = true ∧ k = comment_key c.
Proof.
  intros Hf. destruct 1 as [k Hk|p nd k Hp Hnd Hk].
  - left. by rewrite <- (roots_perm cs f).
  - right. destruct (forest_entry_Some _ _ _ _ Hf Hnd) as (Hin & Hkey & Hr).
    rewrite Hr in Hk. unfold reply_keys in Hk.
    apply list_elem_of_fmap in Hk as (c & -> & [Hc Hrep]%elem_of_filter_list).
    exists p, c. split_and!; try done.
    rewrite <- Hkey. by apply list_elem_of_fmap_2.
Qed.

End Placement.

(** ** Ids are never names of [Object.prototype] *)

Lemma pretty_N_go_head (x : N) (s : string) :
  pretty_N_go x s = s ∨
  ∃ c rest, pretty_N_go x s = String c rest ∧ is_Some (Ascii.is_nat c).
Proof.
  revert s. induction (N.lt_wf_0 x) as [x _ IH]. intros s.
  destruct (decide (0 < x)%N) as [Hpos|Hzero].
  - rewrite pretty_N_go_step by done.
    assert (x `div` 10 < x)%N as Hlt by (apply N.div_lt; lia).
    destruct (IH _ Hlt (String (pretty_N_char (x `mod` 10)) s)) as [-> | Hd];
      [|by right].
    right. eexists _, _. split; [done|].
    unfold pretty_N_char. repeat case_match; by eexists.
  - assert (x = 0%N) as -> by lia. left. apply pretty_N_go_0.
Qed.

Lemma id_key_not_inherited (n : Z) : id_key n ∉ object_prototype_keys.
Proof.
  unfold id_key, pretty, pretty_Z, object_prototype_keys.
  destruct n as [|p|p].
  - rewrite !elem_of_cons, elem_of_nil.
    intros Hin. repeat destruct Hin as [Hin|Hin]; try done.
  - unfold pretty, pretty_positive, pretty, pretty_N.
    case_decide; [done|].
    destruct (pretty_N_go_head (N.pos p) "") as [-> | (c & rest & -> & [d Hd])].
    + rewrite !elem_of_cons, elem_of_nil.
      intros Hin. repeat destruct Hin as [Hin|Hin]; try done.
    + rewrite !elem_of_cons, elem_of_nil.
      intros Hin. repeat destruct Hin as [Hin|Hin]; try done;
        injection Hin as -> _; discriminate Hd.
  - rewrite !elem_of_cons, elem_of_nil.
    intros Hin. repeat destruct Hin as [Hin|Hin]; try done; discriminate Hin.
Qed.

Lemma linkable_null cs c : is_nullish (c_parentId c) = true → linkable cs c.
Proof. by left. Qed.

Lemma linkable_number cs c n : c_parentId c = JNum n → linkable cs c.
Proof.
  intros H. right. exists (id_key n). rewrite H. split; [done|].
  right. apply id_key_not_inherited.
Qed.

(** ** Order of the forest *)

(** Whenever [buildCommentsTree] returns, on a list with pairwise distinct
    ids: the root comments are the comments with a null parentId, newest
    first, comments with one time stamp keeping the order of the list; and
    the replies of a comment are the comments filed under its key, in the
    order of the list. *)
Lemma buildCommentsTree_order cs f :
  NoDup (c_id <$> cs) → buildCommentsTree cs = Some f →
  root_comments f ≡ₚ List.filter is_root cs ∧
  StronglySorted (λ a b, c_createdAt b ≤ c_createdAt a) (root_comments f) ∧
  (∀ v, List.filter (λ c, c_createdAt c =? v) (root_comments f)
        = List.filter (λ c, c_createdAt c =? v) (List.filter is_root cs)) ∧
  (∀ p, p ∈ cs →
        reply_comments f (comment_key p)
        = List.filter (replies_to (comment_key p)) cs).
Proof.
  intros Hnd Hf. rewrite (root_comments_sorted cs f Hnd Hf). split_and!.
  - apply (array_sort_perm c_createdAt).
  - apply (array_sort_sorted c_createdAt).
  - intros v. apply (array_sort_stable c_createdAt).
  - intros p Hp. by apply reply_comments_in_order.
Qed.

(** The same without any assumption on the ids, in terms of the keys. *)
Lemma buildCommentsTree_key_order cs f :
  buildCommentsTree cs = Some f →
  roots f ≡ₚ root_keys cs ∧
  StronglySorted (λ a b, created_of (nodes f) b ≤ created_of (nodes f) a) (roots f) ∧
  (∀ v, List.filter (λ k, created_of (nodes f) k =? v) (roots f)
        = List.filter (λ k, created_of (nodes f) k =? v) (root_keys cs)) ∧
  (∀ k nd, nodes f !! k = Some nd → n_replies nd = reply_keys cs k).
Proof.
  intros Hf. destruct (buildCommentsTree_Some _ _ Hf) as [Hr Hm].
  rewrite Hr. split_and!.
  - apply (array_sort_perm (created_of (nodes f))).
  - apply (array_sort_sorted (created_of (nodes f))).
  - intros v. apply (array_sort_stable (created_of (nodes f))).
  - intros k nd Hk. by destruct (forest_entry_Some _ _ _ _ Hf Hk) as (_ & _ & ?).
Qed.

(** Spec property 6 on the sample thread: the roots come newest first (5
    before 1), the replies to 1 in the order they were posted (2, then 3). *)
Example thread_forest :
  unfold_forest 4 <$> buildCommentsTree thread =
  Some (Some
    [ Tree (sample_comment 5 2 50 JNull) [];
      Tree (sample_comment 1 1 10 JNull)
        [ Tree (sample_comment 2 2 20 (JNum 1))
            [ Tree (sample_comment 4 1 40 (JNum 2)) [] ];
          Tree (sample_comment 3 1 30 (JNum 1)) [] ] ]).
Proof. vm_compute. reflexivity. Qed.

(** C3, where the code departs from the claim: a parentId that is the name of a
    property every object inherits makes [buildCommentsTree] throw instead
    of returning the sorted roots.  The create handler stores such a
    parentId as it comes; [map["constructor"]] then reads the inherited
    [Object] function, which passes the truthiness test and has no
    [replies] array.  The dataset is saved before the tree is built, so
    every later build throws as well. *)
Theorem buildCommentsTree_throws_on_inherited_name :
  let r := create_comment (board [] 1) 1 (JStr "hello") (JStr "constructor") 10 in
  sent r = Threw ∧
  c_parentId <$> comments (persisted r) = [JStr "constructor"] ∧
  buildCommentsTree (comments (persisted r)) = None ∧
  sent (create_comment (persisted r) 1 (JStr "again") JNull 20) = Threw.
Proof. vm_compute. done. Qed.

(** ** Where each comment is placed *)

Lemma reaches_no_roots f k : roots f = [] → ¬ reaches f k.
Proof.
  intros Hnil. induction 1 as [k Hroot|k nd child _ IH _ _]; [|done].
  rewrite Hnil in Hroot. by apply elem_of_nil in Hroot.
Qed.

(** C8, counterexample: in [dangling_thread] comment 2 names comment 1,
    which is in the list, yet the forest is empty: comment 1 is dropped
    for naming a missing comment, and comment 2 hangs below it. *)
Lemma reply_below_dropped_comment_is_absent :
  ∃ c1 c2 f,
    dangling_thread = [c1; c2] ∧
    replies_to (comment_key c1) c2 = true ∧
    buildCommentsTree dangling_thread = Some f ∧
    roots f = [] ∧ ¬ reaches f (comment_key c2).
Proof.
  eexists _, _, _. split; [reflexivity|]. split; [by vm_compute|].
  split; [by vm_compute|]. split; [done|]. by apply reaches_no_roots.
Qed.

(** C8, as amended: on a list with pairwise distinct ids in which every
    parentId is null, names a comment of the list, or reads as a property
    name that objects do not inherit, [buildCommentsTree] returns a forest,
    and in it
    - a comment with a null parentId occurs once among the roots and in no
      [replies];
    - a comment whose parentId names a comment [p] of the list occurs once
      in the [replies] of [p], in no other [replies] and not among the
      roots;
    - a comment whose parentId names no comment of the list occurs neither
      among the roots nor in any [replies];
    - a key is part of the forest only as a root or as a reply filed under
      a key that is part of the forest. *)
Theorem buildCommentsTree_places_each_comment_once cs :
  NoDup (c_id <$> cs) →
  (∀ c, c ∈ cs → linkable cs c) →
  ∃ f, buildCommentsTree cs = Some f ∧
    (∀ c, c ∈ cs → is_root c = true →
       occurrences (comment_key c) (roots f) = 1%nat ∧
       ∀ k nd, nodes f !! k = Some nd → comment_key c ∉ n_replies nd) ∧
    (∀ c p, c ∈ cs → p ∈ cs → replies_to (comment_key p) c = true →
       (comment_key c ∉ roots f) ∧
       (∃ nd, nodes f !! comment_key p = Some nd ∧ n_comment nd = p ∧
              occurrences (comment_key c) (n_replies nd) = 1%nat) ∧
       (∀ k nd, k ≠ comment_key p → nodes f !! k = Some nd →
                comment_key c ∉ n_replies nd)) ∧
    (∀ c, c ∈ cs → is_root c = false →
       (∀ p, p ∈ cs → replies_to (comment_key p) c = false) →
       (comment_key c ∉ roots f) ∧
       ∀ k nd, nodes f !! k = Some nd → comment_key c ∉ n_replies nd) ∧
    (∀ k, reaches f k →
       k ∈ root_keys cs ∨
       ∃ p c, reaches f p ∧ p ∈ comment_key <$> cs ∧ c ∈ cs ∧
              replies_to p c = true ∧ k = comment_key c).
Proof.
  intros Hnd Hlink.
  destruct (proj2 (buildCommentsTree_linkable cs) Hlink) as [f Hf].
  exists f. split; [done|].
  pose proof (roots_perm cs f Hf) as Hroots.
  assert (∀ c k nd, c ∈ cs → nodes f !! k = Some nd →
            comment_key c ∈ n_replies nd → replies_to k c = true) as Hrep.
  { intros c k nd Hc Hk Hin.
    destruct (forest_entry_Some _ _ _ _ Hf Hk) as (_ & _ & Hr).
    rewrite Hr in Hin. by apply elem_of_reply_keys in Hin. }
  split_and!.
  - intros c Hc Hroot. split.
    + rewrite (occurrences_perm _ _ _ Hroots).
      apply occurrences_NoDup; [by apply NoDup_root_keys|].
      by apply elem_of_root_keys.
    + intros k nd Hk Hin. apply (Hrep c k nd Hc Hk) in Hin.
      apply replies_to_not_root in Hin. congruence.
  - intros c p Hc Hp Hcp. split_and!.
    + rewrite Hroots, elem_of_root_keys by done.
      apply replies_to_not_root in Hcp. congruence.
    + exists (entry p (reply_keys cs (comment_key p))).
      split; [by apply forest_entry|]. split; [done|]. simpl.
      apply occurrences_NoDup; [by apply NoDup_reply_keys|].
      by apply elem_of_reply_keys.
    + intros k nd Hne Hk Hin. apply (Hrep c k nd Hc Hk) in Hin.
      apply Hne. by apply (replies_to_unique c).
  - intros c Hc Hroot Hnone. split.
    + rewrite Hroots, elem_of_root_keys by done. congruence.
    + intros k nd Hk Hin. pose proof (Hrep c k nd Hc Hk Hin) as Hkc.
      destruct (forest_entry_Some _ _ _ _ Hf Hk) as (Hp & Hkey & _).
      specialize (Hnone _ Hp). rewrite Hkey in Hnone. congruence.
  - intros k Hk. by apply (reaches_inv cs f).
Qed.

Lemma buildCommentsTree_places_each_comment_once_witness :
  ∃ f, buildCommentsTree thread = Some f ∧
    (∀ c, c ∈ thread → is_root c = true →
       occurrences (comment_key c) (roots f) = 1%nat ∧
       ∀ k nd, nodes f !! k = Some nd → comment_key c ∉ n_replies nd) ∧
    (∀ c p, c ∈ thread → p ∈ thread → replies_to (comment_key p) c = true →
       (comment_key c ∉ roots f) ∧
       (∃ nd, nodes f !! comment_key p = Some nd ∧ n_comment nd = p ∧
              occurrences (comment_key c) (n_replies nd) = 1%nat) ∧
       (∀ k nd, k ≠ comment_key p → nodes f !! k = Some nd →
                comment_key c ∉ n_replies nd)) ∧
    (∀ c, c ∈ thread → is_root c = false →
       (∀ p, p ∈ thread → replies_to (comment_key p) c = false) →
       (comment_key c ∉ roots f) ∧
       ∀ k nd, nodes f !! k = Some nd → comment_key c ∉ n_replies nd) ∧
    (∀ k, reaches f k →
       k ∈ root_keys thread ∨
       ∃ p c, reaches f p ∧ p ∈ comment_key <$> thread ∧ c ∈ thread ∧
              replies_to p c = true ∧ k = comment_key c).
Proof.
  apply (buildCommentsTree_places_each_comment_once thread).
  - apply (bool_decide_unpack _). vm_compute. exact I.
  - intros c Hc. apply throws_on_linkable.
    revert c Hc. apply Forall_forall. apply (bool_decide_unpack _).
    vm_compute. exact I.
Defined.

(** ** The cascade of the delete handler *)

Section Marking.

Variable cs : list comment.

Implicit Types (id x : Z) (m : marking) (l : list comment).

Lemma elem_of_children c id :
  c ∈ children cs id ↔ c ∈ cs ∧ c_parentId c = JNum id.
Proof.
  unfold children. rewrite elem_of_filter_list. unfold strict_equals_num.
  destruct (c_parentId c); try naive_solver.
  destruct (Z.eqb_spec n id); naive_solver.
Qed.

Lemma markDescendants_S stack id m :
  markDescendants (S stack) cs id m =
  mark_children stack cs (children cs id)
    {| toRemove := {[id]} ∪ toRemove m; visited := visited m ++ [id] |}.
Proof. reflexivity. Qed.

Lemma mark_children_cons stack c l m :
  mark_children stack cs (c :: l) m =
  match markDescendants stack cs (c_id c) m with
  | Some m' => mark_children stack cs l m'
  | None => None
  end.
Proof.
  unfold mark_children. simpl.
  destruct (markDescendants stack cs (c_id c) m); [done | apply foldl_bind_None].
Qed.

(** *** Links *)

Lemma descends_trans a b x : descends cs a b → descends cs b x → descends cs a x.
Proof. intros Hab. induction 1; [done | by eapply descends_step]. Qed.

Lemma descends_child c p : c ∈ cs → c_parentId c = JNum p → descends cs p (c_id c).
Proof. intros. eapply descends_step; [apply descends_refl | done..]. Qed.

Lemma descends_unfold id x :
  descends cs id x ↔ x = id ∨ ∃ c, c ∈ children cs id ∧ descends cs (c_id c) x.
Proof.
  split.
  - induction 1 as [|c p Hp IH Hc Hpar]; [by left|]. right.
    destruct IH as [->|(c0 & Hc0 & Hd)].
    + exists c. split; [by apply elem_of_children | apply descends_refl].
    + exists c0. split; [done|]. by eapply descends_step.
  - intros [->|(c & [Hc Hpar]%elem_of_children & Hd)]; [apply descends_refl|].
    eapply descends_trans; [|done]. by apply descends_child.
Qed.

(** *** What a completed traversal has visited *)

(** A call that returns has visited [id] and its descendants and nothing
    else, and has added what it visited to [toRemove]. *)
Lemma markDescendants_visits stack : ∀ id m m',
  markDescendants stack cs id m = Some m' →
  ∃ t, visited m' = visited m ++ t ∧
       toRemove m' = list_to_set t ∪ toRemove m ∧
       ∀ x, x ∈ t ↔ descends cs id x.
Proof.
  induction stack as [|stack IH]; intros id m m'; [done|].
  rewrite markDescendants_S.
  assert (∀ l m0 m1, mark_children stack cs l m0 = Some m1 →
            ∃ t, visited m1 = visited m0 ++ t ∧
                 toRemove m1 = list_to_set t ∪ toRemove m0 ∧
                 ∀ x, x ∈ t ↔ ∃ c, c ∈ l ∧ descends cs (c_id c) x) as Hloop.
  { induction l as [|c l IHl]; intros m0 m1.
    - intros [= <-]. exists []. split_and!; [by rewrite app_nil_r|set_solver|].
      intros x. split; [by intros ?%elem_of_nil|].
      by intros (c & ?%elem_of_nil & _).
    - rewrite mark_children_cons.
      destruct (markDescendants stack cs (c_id c) m0) as [m2|] eqn:Hc; [|done].
      intros (t2 & Hv2 & Hr2 & Ht2)%IHl.
      apply IH in Hc as (t1 & Hv1 & Hr1 & Ht1).
      exists (t1 ++ t2). split_and!.
      + by rewrite Hv2, Hv1, app_assoc.
      + rewrite Hr2, Hr1, list_to_set_app_L. set_solver.
      + intros x. rewrite elem_of_app, Ht1, Ht2. split.
        * intros [?|(c' & ? & ?)]; [exists c | exists c']; split; try done;
            [left | by right].
        * intros (c' & [->|?]%elem_of_cons & ?); [by left | right; by exists c']. }
  intros (t & Hv & Hr & Ht)%Hloop. simpl in Hv, Hr.
  exists (id :: t). split_and!.
  - by rewrite Hv, <- app_assoc.
  - rewrite Hr. simpl. set_solver.
  - intros x. rewrite elem_of_cons, Ht, (descends_unfold id x). done.
Qed.

(** *** Termination on acyclic links *)

Section Acyclic.

Variables (root : Z) (rank : Z → nat).
Hypothesis Hacyclic : acyclic_below cs root rank.

Lemma rank_descends a x :
  descends cs root a → descends cs a x → (rank x ≤ rank a)%nat.
Proof.
  intros Ha. induction 1 as [|c p Hp IH Hc Hpar]; [done|].
  assert (rank (c_id c) < rank p)%nat; [|lia].
  apply Hacyclic; [done..|]. by eapply descends_trans.
Qed.

Lemma markDescendants_returns stack : ∀ id m,
  descends cs root id → (rank id < stack)%nat →
  is_Some (markDescendants stack cs id m).
Proof.
  induction stack as [|stack IH]; intros id m Hid Hrank; [lia|].
  rewrite markDescendants_S.
  assert (∀ l m0, (∀ c, c ∈ l → c ∈ children cs id) →
            is_Some (mark_children stack cs l m0)) as Hloop.
  { induction l as [|c l IHl]; intros m0 Hl; [by eexists|].
    rewrite mark_children_cons.
    destruct (IH (c_id c) m0) as [m1 ->].
    - destruct (proj1 (elem_of_children c id) (Hl c ltac:(left))) as [Hc Hpar].
      by eapply descends_step.
    - destruct (proj1 (elem_of_children c id) (Hl c ltac:(left))) as [Hc Hpar].
      pose proof (Hacyclic c id Hc Hpar Hid). lia.
    - apply IHl. intros c' Hc'. apply Hl. by right. }
  by apply Hloop.
Qed.

(** *** Each comment is visited once *)

Hypothesis Hids : NoDup (c_id <$> cs).

Lemma descends_inv a x :
  descends cs a x →
  x = a ∨ ∃ c p, c ∈ cs ∧ c_id c = x ∧ c_parentId c = JNum p ∧ descends cs a p.
Proof. destruct 1 as [|c p Hp Hc Hpar]; [by left|]. right. by exists c, p. Qed.

(** With distinct ids a comment has one parent, so two ancestors of the
    same comment lie on one chain. *)
Lemma descends_chain a b x :
  descends cs a x → descends cs b x → descends cs a b ∨ descends cs b a.
Proof.
  induction 1 as [|c p Hp IH Hc Hpar]; intros Hb; [by right|].
  apply descends_inv in Hb as [<-|(c' & p' & Hc' & Hid & Hpar' & Hb)].
  - left. by eapply descends_step.
  - assert (c' = c) as -> by by apply (NoDup_ids_eq cs).
    apply IH. congruence.
Qed.

Lemma siblings_apart id c1 c2 :
  descends cs root id → c1 ∈ children cs id → c2 ∈ children cs id →
  c_id c1 ≠ c_id c2 → ¬ descends cs (c_id c1) (c_id c2).
Proof.
  intros Hid [Hc1 Hp1]%elem_of_children [Hc2 Hp2]%elem_of_children Hne Hd.
  apply descends_inv in Hd as [Heq|(c' & p' & Hc' & Hid' & Hpar' & Hd)];
    [congruence|].
  assert (c' = c2) as -> by by apply (NoDup_ids_eq cs).
  assert (p' = id) as -> by congruence.
  assert (descends cs root (c_id c1)) as Hr1 by by eapply descends_step.
  pose proof (rank_descends _ _ Hr1 Hd).
  pose proof (Hacyclic c1 id Hc1 Hp1 Hid). lia.
Qed.

Lemma markDescendants_visits_once stack : ∀ id m m',
  descends cs root id →
  markDescendants stack cs id m = Some m' →
  ∃ t, visited m' = visited m ++ t ∧
       (∀ x, x ∈ t ↔ descends cs id x) ∧ NoDup t.
Proof.
  induction stack as [|stack IH]; intros id m m' Hid; [done|].
  rewrite markDescendants_S.
  assert (∀ l m0 m1,
            (∀ c, c ∈ l → c ∈ children cs id) → NoDup (c_id <$> l) →
            mark_children stack cs l m0 = Some m1 →
            ∃ t, visited m1 = visited m0 ++ t ∧
                 (∀ x, x ∈ t ↔ ∃ c, c ∈ l ∧ descends cs (c_id c) x) ∧
                 NoDup t) as Hloop.
  { induction l as [|c l IHl]; intros m0 m1 Hl Hnd.
    - intros [= <-]. exists []. split_and!; [by rewrite app_nil_r| |constructor].
      intros x. split; [by intros ?%elem_of_nil|].
      by intros (c & ?%elem_of_nil & _).
    - rewrite mark_children_cons.
      destruct (markDescendants stack cs (c_id c) m0) as [m2|] eqn:Hc; [|done].
      cbn [fmap list_fmap] in Hnd. apply NoDup_cons in Hnd as [Hcl Hnd].
      assert (c ∈ children cs id) as Hchild by (apply Hl; left).
      intros (t2 & Hv2 & Ht2 & Hn2)%IHl;
        [|by intros c' Hc'; apply Hl; right|done].
      apply IH in Hc as (t1 & Hv1 & Ht1 & Hn1).
      2:{ apply elem_of_children in Hchild as [? ?]. by eapply descends_step. }
      exists (t1 ++ t2). split_and!.
      + by rewrite Hv2, Hv1, app_assoc.
      + intros x. rewrite elem_of_app, Ht1, Ht2. split.
        * intros [?|(c' & ? & ?)]; [exists c | exists c']; split; try done;
            [left | by right].
        * intros (c' & [->|?]%elem_of_cons & ?); [by left | right; by exists c'].
      + apply NoDup_app. split_and!; [done| |done].
        intros x Hx1%Ht1 (c' & Hc' & Hx2)%Ht2.
        assert (c_id c ≠ c_id c') as Hne.
        { intros Heq. apply Hcl. rewrite Heq. by apply list_elem_of_fmap_2. }
        assert (c' ∈ children cs id) as Hchild' by (apply Hl; by right).
        destruct (descends_chain _ _ _ Hx1 Hx2) as [Hd|Hd].
        * by apply (siblings_apart id c c').
        * by apply (siblings_apart id c' c). }
  intros (t & Hv & Ht & Hn)%Hloop; [|done|by apply NoDup_ids_filter].
  simpl in Hv. exists (id :: t). split_and!.
  - by rewrite Hv, <- app_assoc.
  - intros x. rewrite elem_of_cons, Ht, (descends_unfold id x). done.
  - apply NoDup_cons. split; [|done].
    intros (c & Hchild & Hd)%Ht.
    pose proof Hchild as [Hc Hpar]%elem_of_children.
    assert (descends cs root (c_id c)) as Hrc by by eapply descends_step.
    pose proof (rank_descends _ _ Hrc Hd).
    pose proof (Hacyclic c id Hc Hpar Hid). lia.
Qed.

End Acyclic.

(** *** No return on a cycle *)

Lemma mark_children_calls stack l m m' c :
  mark_children stack cs l m = Some m' → c ∈ l →
  ∃ m0, is_Some (markDescendants stack cs (c_id c) m0).
Proof.
  revert m. induction l as [|y l IH]; intros m; [by intros _ ?%elem_of_nil|].
  rewrite mark_children_cons.
  destruct (markDescendants stack cs (c_id y) m) as [m1|] eqn:Hy; [|done].
  intros Hl [->|Hc]%elem_of_cons; [by exists m; eexists | by eapply IH].
Qed.

(** A call that returns has made a call that returned, with fewer frames,
    on every descendant. *)
Lemma markDescendants_calls a x :
  descends cs a x → ∀ stack m,
  is_Some (markDescendants stack cs a m) →
  ∃ stack' m', (stack' ≤ stack)%nat ∧ is_Some (markDescendants stack' cs x m') ∧
               (x = a ∨ stack' < stack)%nat.
Proof.
  induction 1 as [|c p Hp IH Hc Hpar]; intros stack m Hsome.
  - exists stack, m. split_and!; [lia | done | by left].
  - destruct (IH stack m Hsome) as (s1 & m1 & Hle & [m2 Hs1] & _).
    destruct s1 as [|s1]; [done|].
    rewrite markDescendants_S in Hs1.
    destruct (mark_children_calls _ _ _ _ c Hs1) as [m3 Hs3];
      [by apply elem_of_children|].
    exists s1, m3. split_and!; [lia | done | right; lia].
Qed.

(** [x] lies on a cycle: it is reached again from one of its own replies. *)
Lemma markDescendants_cycle root x c p :
  descends cs root x →
  c ∈ cs → c_id c = x → c_parentId c = JNum p → descends cs x p →
  ∀ stack m, markDescendants stack cs root m = None.
Proof.
  intros Hroot Hc Hid Hpar Hcyc.
  assert (∀ stack m, markDescendants stack cs x m = None) as Hx.
  { induction stack as [stack IH] using lt_wf_ind. intros m.
    destruct (markDescendants stack cs x m) as [m'|] eqn:Hs; [|done].
    destruct (markDescendants_calls x p Hcyc stack m) as (s1 & m1 & Hle & [m2 Hs1] & _);
      [by eexists|].
    destruct s1 as [|s1]; [done|]. rewrite markDescendants_S in Hs1.
    destruct (mark_children_calls _ _ _ _ c Hs1) as [m3 [m4 Hs3]];
      [by apply elem_of_children|].
    rewrite Hid, IH in Hs3; [done | lia]. }
  intros stack m. destruct (markDescendants stack cs root m) as [m'|] eqn:Hs; [|done].
  destruct (markDescendants_calls root x Hroot stack m) as (s1 & m1 & _ & [m2 Hs1] & _);
    [by eexists|].
  by rewrite Hx in Hs1.
Qed.

(** *** Links without a cycle are the links on which the traversal returns *)

(** Whether a call returns does not depend on the marks made so far. *)
Lemma markDescendants_is_Some_marks stack : ∀ id m m',
  is_Some (markDescendants stack cs id m) →
  is_Some (markDescendants stack cs id m').
Proof.
  induction stack as [|stack IH]; intros id m m'; [by intros [? ?]|].
  rewrite !markDescendants_S.
  generalize (children cs id).
  generalize ({| toRemove := {[id]} ∪ toRemove m; visited := visited m ++ [id] |}).
  generalize ({| toRemove := {[id]} ∪ toRemove m'; visited := visited m' ++ [id] |}).
  intros m0' m0 l. revert m0 m0'.
  induction l as [|c l IHl]; intros m0 m0'; [by eexists|].
  rewrite !mark_children_cons.
  destruct (markDescendants stack cs (c_id c) m0) as [m1|] eqn:H1; [|by intros [? ?]].
  destruct (IH (c_id c) m0 m0') as [m1' ->]; [by eexists|]. apply IHl.
Qed.

Lemma frames_needed_spec bound x s m :
  (s ≤ bound)%nat → is_Some (markDescendants s cs x m) →
  (frames_needed cs bound x ≤ s)%nat ∧
  is_Some (markDescendants (frames_needed cs bound x) cs x no_marks).
Proof.
  intros Hs Hsome. unfold frames_needed.
  destruct (list_find _ _) as [[i y]|] eqn:Hfind.
  - apply list_find_Some in Hfind as (Hi & Hy & Hmin).
    apply lookup_seq in Hi as [Hyi Hi]. rewrite Nat.add_0_l in Hyi. subst y.
    split; [|done].
    destruct (decide (i ≤ s)%nat) as [|Hgt]; [done|]. exfalso.
    apply (Hmin s s); [apply lookup_seq; split; lia | lia |].
    by apply (markDescendants_is_Some_marks s x m).
  - exfalso. apply list_find_None in Hfind.
    rewrite Forall_forall in Hfind. apply (Hfind s).
    + apply elem_of_seq. lia.
    + by apply (markDescendants_is_Some_marks s x m).
Qed.

(** A traversal that returns gives a rank to the links below its root. *)
Lemma markDescendants_returns_acyclic root stack m :
  is_Some (markDescendants stack cs root m) →
  acyclic_below cs root (frames_needed cs stack).
Proof.
  intros Hroot c p Hc Hpar Hp.
  destruct (markDescendants_calls root p Hp stack m Hroot)
    as (s1 & m1 & Hle & Hs1 & _).
  destruct (frames_needed_spec stack p s1 m1 Hle Hs1) as [Hp1 [m2 Hp2]].
  destruct (frames_needed cs stack p) as [|k] eqn:Hk; [done|].
  rewrite markDescendants_S in Hp2.
  destruct (mark_children_calls _ _ _ _ c Hp2) as [m3 Hs3];
    [by apply elem_of_children|].
  destruct (frames_needed_spec stack (c_id c) k m3) as [Hc1 _]; [lia|done|]. lia.
Qed.

(** The traversal from [root] can return exactly when the links below
    [root] have no cycle. *)
Lemma markDescendants_returns_iff_acyclic root :
  (∃ stack, is_Some (markDescendants stack cs root no_marks)) ↔
  (∃ rank, acyclic_below cs root rank).
Proof.
  split.
  - intros [stack Hs]. exists (frames_needed cs stack).
    by eapply markDescendants_returns_acyclic.
  - intros [rank Hrank]. exists (S (rank root)).
    apply (markDescendants_returns root rank Hrank); [apply descends_refl | lia].
Qed.

End Marking.

(** ** Termination of the cascade *)

(** The first comment of a board, posted with [parentId: 1], is its own
    parent. *)
Lemma self_reply_is_created :
  persisted (create_comment (board [] 1) 1 (JStr "text") (JNum 1) 10)
  = board self_reply 2.
Proof. vm_compute. reflexivity. Qed.

(** C1, counterexample: on [self_reply], a dataset the create handler
    produces, the traversal from comment 1 calls itself on comment 1 again
    and again; no number of frames lets it return. *)
Lemma markDescendants_never_returns_on_self_reply :
  ¬ ∃ stack m, markDescendants stack self_reply 1 no_marks = Some m.
Proof.
  intros (stack & m & H).
  rewrite (markDescendants_cycle self_reply 1 1 (sample_comment 1 1 10 (JNum 1)) 1)
    in H; [done | apply descends_refl | left | done | done | apply descends_refl].
Qed.

(** A traversal over links without a cycle: it returns, and has visited
    and marked the target and its descendants. *)
Lemma markDescendants_complete cs root rank stack :
  acyclic_below cs root rank → (rank root < stack)%nat →
  ∃ m, markDescendants stack cs root no_marks = Some m ∧
       (∀ x, x ∈ visited m ↔ descends cs root x) ∧
       (∀ x, x ∈ toRemove m ↔ descends cs root x) ∧
       (NoDup (c_id <$> cs) → NoDup (visited m)).
Proof.
  intros Hacyclic Hrank.
  destruct (markDescendants_returns cs root rank Hacyclic stack root no_marks)
    as [m Hm]; [apply descends_refl | done |].
  exists m. split; [done|].
  destruct (markDescendants_visits cs stack _ _ _ Hm) as (t & Hv & Hr & Ht).
  simpl in Hv, Hr. split_and!.
  - intros x. by rewrite Hv, Ht.
  - intros x. rewrite Hr, <- Ht. set_solver.
  - intros Hids.
    destruct (markDescendants_visits_once cs root rank Hacyclic Hids stack
                root no_marks m (descends_refl _ _) Hm) as (t' & Hv' & _ & Hn).
    by rewrite Hv'.
Qed.

(** Replies that name an earlier comment make no cycle: this is the
    dataset the handlers build when every reply is to a comment that
    exists. *)
Lemma replies_to_earlier_acyclic cs root bound :
  (∀ c, c ∈ cs → c_id c ≤ bound) →
  (∀ c p, c ∈ cs → c_parentId c = JNum p → p < c_id c) →
  acyclic_below cs root (λ x, Z.to_nat (bound - x)).
Proof.
  intros Hbound Hearlier c p Hc Hpar _.
  specialize (Hbound c Hc). specialize (Hearlier c p Hc Hpar). lia.
Qed.

(** C1, as amended: [markDescendants] is a plain recursive descent.  When
    the parentId links below the target have no cycle it returns, given
    more frames than the rank of the target; it has then visited, and put
    into [toRemove], the target and its descendants and nothing else, and
    with pairwise distinct ids it has visited each of them once. *)
Theorem markDescendants_returns_without_cycle cs root rank stack :
  acyclic_below cs root rank → (rank root < stack)%nat →
  ∃ m, markDescendants stack cs root no_marks = Some m ∧
       (∀ x, x ∈ visited m ↔ descends cs root x) ∧
       (∀ x, x ∈ toRemove m ↔ descends cs root x) ∧
       (NoDup (c_id <$> cs) → NoDup (visited m)).
Proof. apply markDescendants_complete. Qed.

Lemma markDescendants_returns_without_cycle_witness :
  ∃ m, markDescendants 10 thread 1 no_marks = Some m ∧
       (∀ x, x ∈ visited m ↔ descends thread 1 x) ∧
       (∀ x, x ∈ toRemove m ↔ descends thread 1 x) ∧
       (NoDup (c_id <$> thread) → NoDup (visited m)).
Proof.
  apply (markDescendants_returns_without_cycle thread 1 (λ x, Z.to_nat (10 - x))).
  - intros c p Hc Hpar _. unfold thread in Hc.
    repeat (apply elem_of_cons in Hc as [->|Hc]); try (by apply elem_of_nil in Hc);
      simpl in Hpar; try discriminate Hpar; injection Hpar as <-; simpl; lia.
  - simpl. lia.
Defined.

Example thread_visits :
  visited <$> markDescendants 10 thread 1 no_marks = Some [1; 2; 4; 3].
Proof. vm_compute. reflexivity. Qed.

(** ** The delete handler *)

Lemma filter_sublist {X} (p : X → bool) (l : list X) : List.filter p l `sublist_of` l.
Proof.
  induction l as [|x l IH]; simpl; [constructor|].
  destruct (p x); by constructor.
Qed.

Lemma delete_comment_accepted stack d uid commentId c m :
  find_comment commentId (comments d) = Some c → c_userId c = uid →
  markDescendants stack (comments d) commentId no_marks = Some m →
  delete_comment stack d uid commentId =
  emit_and_respond
    {| users := users d;
       comments := List.filter (λ x, negb (bool_decide (c_id x ∈ toRemove m)))
                               (comments d);
       nextCommentId := nextCommentId d;
       nextUserId := nextUserId d |}
    (Json 200 (Message "Deleted")).
Proof.
  intros Hfind Huid Hm. unfold delete_comment. rewrite Hfind, Hm.
  by rewrite (proj2 (Z.eqb_eq _ _) Huid).
Qed.

Lemma delete_comment_overflow stack d uid commentId c :
  find_comment commentId (comments d) = Some c → c_userId c = uid →
  markDescendants stack (comments d) commentId no_marks = None →
  delete_comment stack d uid commentId = throw_before_save d.
Proof.
  intros Hfind Huid Hm. unfold delete_comment. rewrite Hfind, Hm.
  by rewrite (proj2 (Z.eqb_eq _ _) Huid).
Qed.

Lemma two_cycle_is_created :
  final 10 (board [] 1)
    [ Create 1 (JStr "text") (JNum 2) 10; Create 1 (JStr "text") (JNum 1) 20 ]
  = board two_cycle 3.
Proof. vm_compute. reflexivity. Qed.

(** C2, counterexample: in [two_cycle], a dataset two create requests
    leave, the comments 1 and 2 name each other.  When the author of
    comment 1 deletes it, the handler throws
    whatever the size of the stack: nothing is removed and nothing is
    answered. *)
Lemma delete_on_a_cycle_removes_nothing :
  find_comment 1 two_cycle = Some (sample_comment 1 1 10 (JNum 2)) ∧
  c_userId (sample_comment 1 1 10 (JNum 2)) = 1 ∧
  ¬ ∃ stack,
      sent (delete_comment stack (board two_cycle 3) 1 1) ≠ Threw ∨
      persisted (delete_comment stack (board two_cycle 3) 1 1) ≠ board two_cycle 3.
Proof.
  split; [done|]. split; [done|]. intros [stack H].
  rewrite (delete_comment_overflow stack (board two_cycle 3) 1 1
             (sample_comment 1 1 10 (JNum 2))) in H; [naive_solver|done..|].
  apply (markDescendants_cycle two_cycle 1 1 (sample_comment 1 1 10 (JNum 2)) 2);
    [apply descends_refl | left | done | done |].
  apply (descends_step two_cycle 1 (sample_comment 2 1 20 (JNum 1)) 1);
    [apply descends_refl | right; left | done].
Qed.

(** C2, as amended: when the parentId links below the comment [c] have no
    cycle and the stack has more frames than the rank of [c], a delete by
    the author of [c] saves the list without the comments whose id is the id
    of [c] or of a descendant of [c], a descendant being reached through
    parentIds strictly equal to ids; the other comments stay, in their
    order, and the users and counters are untouched. *)
Theorem delete_removes_the_descendants stack d uid c rank :
  find_comment (c_id c) (comments d) = Some c → c_userId c = uid →
  acyclic_below (comments d) (c_id c) rank → (rank (c_id c) < stack)%nat →
  ∃ removed : gset Z,
    (∀ x, x ∈ removed ↔ descends (comments d) (c_id c) x) ∧
    persisted (delete_comment stack d uid (c_id c)) =
      {| users := users d;
         comments := List.filter (λ x, negb (bool_decide (c_id x ∈ removed)))
                                 (comments d);
         nextCommentId := nextCommentId d;
         nextUserId := nextUserId d |} ∧
    (∀ x, x ∈ comments (persisted (delete_comment stack d uid (c_id c))) ↔
          x ∈ comments d ∧ ¬ descends (comments d) (c_id c) (c_id x)) ∧
    comments (persisted (delete_comment stack d uid (c_id c)))
      `sublist_of` comments d.
Proof.
  intros Hfind Huid Hacyclic Hrank.
  destruct (markDescendants_complete _ _ _ _ Hacyclic Hrank)
    as (m & Hm & _ & Hrem & _).
  exists (toRemove m). split; [done|].
  rewrite (delete_comment_accepted stack d uid (c_id c) c m) by done.
  rewrite persisted_emit_and_respond. simpl. split_and!.
  - done.
  - intros x. rewrite elem_of_filter_list, negb_true_iff, bool_decide_eq_false.
    by rewrite Hrem.
  - apply filter_sublist.
Qed.

Lemma delete_removes_the_descendants_witness :
  ∃ removed : gset Z,
    (∀ x, x ∈ removed ↔ descends thread 1 x) ∧
    persisted (delete_comment 10 (board thread 6) 1 1) =
      {| users := [ann; bob];
         comments := List.filter (λ x, negb (bool_decide (c_id x ∈ removed))) thread;
         nextCommentId := 6;
         nextUserId := 3 |} ∧
    (∀ x, x ∈ comments (persisted (delete_comment 10 (board thread 6) 1 1)) ↔
          x ∈ thread ∧ ¬ descends thread 1 (c_id x)) ∧
    comments (persisted (delete_comment 10 (board thread 6) 1 1))
      `sublist_of` thread.
Proof.
  apply (delete_removes_the_descendants 10 (board thread 6) 1
           (sample_comment 1 1 10 JNull) (λ x, Z.to_nat (10 - x))).
  - reflexivity.
  - reflexivity.
  - intros c p Hc Hpar _. simpl in Hc. unfold thread in Hc.
    repeat (apply elem_of_cons in Hc as [->|Hc]); try (by apply elem_of_nil in Hc);
      simpl in Hpar; try discriminate Hpar; injection Hpar as <-; simpl; lia.
  - simpl. lia.
Defined.

(** Spec property 3 and 7 on the sample thread: the author deletes comment
    1; its replies 2 and 3 and the reply 4 to 2 go with it, 5 stays. *)
Example delete_thread :
  c_id <$> comments (persisted (delete_comment 10 (board thread 6) 1 1)) = [5].
Proof. vm_compute. reflexivity. Qed.

(** A reply whose parentId is the string "1" is shown below comment 1 by
    [buildCommentsTree], which reads the parentId as a property name; the
    delete handler compares with [===] and leaves it in the list. *)
Example delete_keeps_reply_with_string_parentId :
  let cs := [sample_comment 1 1 10 JNull; sample_comment 2 1 20 (JStr "1")] in
  (reply_keys cs (id_key 1) = [id_key 2]) ∧
  c_id <$> comments (persisted (delete_comment 10 (board cs 3) 1 1)) = [2].
Proof. vm_compute. done. Qed.

(** ** Ownership *)

(** C6, counterexample: bob edits ann's comment 1 with a blank content; the
    content is checked before the comment is looked up, and the answer is
    400, not 403. *)
Lemma blank_edit_by_non_author_is_a_validation_error :
  find_comment 1 (comments (board thread 6)) = Some (sample_comment 1 1 10 JNull) ∧
  c_userId (sample_comment 1 1 10 JNull) ≠ u_id bob ∧
  sent (edit_comment (board thread 6) (u_id bob) 1 (JStr "   ") 60)
  = Json 400 (Message "Empty content").
Proof. split_and!; [done | by vm_compute | by vm_compute]. Qed.

(** C6, as amended: a delete by a user who is not the author of the comment
    is answered 403, and so is an edit whose content is a string that is not
    blank; an edit with a blank content is answered 400 before the owner is
    looked at.  In every case, also when the content is not a string and
    the handler throws, the dataset is left as it was and no event is
    emitted. *)
Theorem non_author_is_refused stack d uid c content now :
  find_comment (c_id c) (comments d) = Some c → c_userId c ≠ uid →
  sent (delete_comment stack d uid (c_id c)) = Json 403 (Message "Not allowed") ∧
  (∀ text, check_content content = Text text →
     sent (edit_comment d uid (c_id c) content now) = Json 403 (Message "Not allowed")) ∧
  (check_content content = Blank →
     sent (edit_comment d uid (c_id c) content now) = Json 400 (Message "Empty content")) ∧
  persisted (delete_comment stack d uid (c_id c)) = d ∧
  persisted (edit_comment d uid (c_id c) content now) = d ∧
  emitted (delete_comment stack d uid (c_id c)) = [] ∧
  emitted (edit_comment d uid (c_id c) content now) = [].
Proof.
  intros Hfind Hne.
  assert (negb (c_userId c =? uid) = true) as Hneq.
  { apply negb_true_iff. by apply Z.eqb_neq. }
  unfold delete_comment, edit_comment. rewrite Hfind, Hneq.
  destruct (check_content content); split_and!; try done; intros; congruence.
Qed.

Lemma non_author_is_refused_witness :
  sent (delete_comment 10 (board thread 6) 2 1) = Json 403 (Message "Not allowed") ∧
  (∀ text, check_content (JStr " new ") = Text text →
     sent (edit_comment (board thread 6) 2 1 (JStr " new ") 60)
     = Json 403 (Message "Not allowed")) ∧
  (check_content (JStr " new ") = Blank →
     sent (edit_comment (board thread 6) 2 1 (JStr " new ") 60)
     = Json 400 (Message "Empty content")) ∧
  persisted (delete_comment 10 (board thread 6) 2 1) = board thread 6 ∧
  persisted (edit_comment (board thread 6) 2 1 (JStr " new ") 60) = board thread 6 ∧
  emitted (delete_comment 10 (board thread 6) 2 1) = [] ∧
  emitted (edit_comment (board thread 6) 2 1 (JStr " new ") 60) = [].
Proof.
  apply (non_author_is_refused 10 (board thread 6) 2 (sample_comment 1 1 10 JNull)).
  - reflexivity.
  - simpl. lia.
Defined.

(** The white space of [trim] is the one of ECMAScript, not only the ASCII
    one: a content made of a no-break space (U+00A0, bytes 194 160) and an
    ideographic space (U+3000, bytes 227 128 128) is blank, and around a
    word they are trimmed away. *)
Example unicode_white_space :
  let nbsp := String "194" (String "160" "") in
  let wide := String "227" (String "128" (String "128" "")) in
  check_content (JStr (nbsp +:+ wide)) = Blank ∧
  check_content (JStr (nbsp +:+ "word" +:+ wide +:+ " ")) = Text "word" ∧
  sent (edit_comment (board thread 6) 2 1 (JStr nbsp) 60)
  = Json 400 (Message "Empty content").
Proof. by vm_compute. Qed.

(** ** Editing *)

Lemma edit_comment_accepted d uid commentId content now text c :
  check_content content = Text text →
  find_comment commentId (comments d) = Some c → c_userId c = uid →
  edit_comment d uid commentId content now =
  emit_and_respond
    {| users := users d;
       comments := update_first (λ x, c_id x =? commentId)
                     (set_content text now) (comments d);
       nextCommentId := nextCommentId d;
       nextUserId := nextUserId d |}
    (Json 200 (CommentBody (set_content text now c))).
Proof.
  intros Hcheck Hfind Huid. unfold edit_comment. rewrite Hcheck, Hfind.
  by rewrite (proj2 (Z.eqb_eq _ _) Huid).
Qed.

(** An edit is answered 200 only when the three checks passed. *)
Lemma edit_comment_success d uid commentId content now b :
  sent (edit_comment d uid commentId content now) = Json 200 b →
  ∃ text c, check_content content = Text text ∧
            find_comment commentId (comments d) = Some c ∧ c_userId c = uid.
Proof.
  unfold edit_comment. destruct (check_content content) as [| |text]; [done..|].
  destruct (find_comment commentId (comments d)) as [c|]; [|done].
  destruct (Z.eqb_spec (c_userId c) uid); [|done]. intros _. by exists text, c.
Qed.

(** C7: an edit that passes the checks (a content that is a non-blank
    string, an existing comment, the author calling) changes, in the saved
    dataset, the first comment with that id and nothing else; of that
    comment it replaces the content by the trimmed new content and stamps
    [updatedAt] with the time of the request, and leaves [id], [userId],
    [userName], [avatar], [createdAt], [parentId] and [reactions] as they
    were. *)
Theorem edit_changes_content_and_updatedAt_only d uid commentId content now text c :
  check_content content = Text text →
  find_comment commentId (comments d) = Some c → c_userId c = uid →
  ∃ before after c',
    comments d = before ++ c :: after ∧
    (∀ x, x ∈ before → c_id x ≠ commentId) ∧
    persisted (edit_comment d uid commentId content now) =
      {| users := users d; comments := before ++ c' :: after;
         nextCommentId := nextCommentId d; nextUserId := nextUserId d |} ∧
    c_content c' = text ∧ c_updatedAt c' = Some now ∧
    c_id c' = c_id c ∧ c_userId c' = c_userId c ∧ c_userName c' = c_userName c ∧
    c_avatar c' = c_avatar c ∧ c_createdAt c' = c_createdAt c ∧
    c_parentId c' = c_parentId c ∧ c_reactions c' = c_reactions c ∧
    ∀ s b, sent (edit_comment d uid commentId content now) = Json s b →
           s = 200 ∧ b = CommentBody c'.
Proof.
  intros Hcheck Hfind Huid.
  destruct (find_comment_split _ _ _ Hfind) as (before & after & Hcs & Hid & Hb).
  exists before, after, (set_content text now c).
  rewrite (edit_comment_accepted d uid commentId content now text c) by done.
  rewrite persisted_emit_and_respond, Hcs, update_first_split by done.
  split_and!; try done.
  intros s b [[= <- <-] _]%sent_emit_and_respond. done.
Qed.

Lemma edit_changes_content_and_updatedAt_only_witness :
  ∃ before after c',
    comments (board thread 6) = before ++ sample_comment 2 2 20 (JNum 1) :: after ∧
    (∀ x, x ∈ before → c_id x ≠ 2) ∧
    persisted (edit_comment (board thread 6) 2 2 (JStr " edited ") 60) =
      {| users := [ann; bob]; comments := before ++ c' :: after;
         nextCommentId := 6; nextUserId := 3 |} ∧
    c_content c' = "edited" ∧ c_updatedAt c' = Some 60 ∧
    c_id c' = 2 ∧ c_userId c' = 2 ∧ c_userName c' = JStr "bob" ∧
    c_avatar c' = "avatar-b" ∧ c_createdAt c' = 20 ∧
    c_parentId c' = JNum 1 ∧ c_reactions c' = no_reactions ∧
    ∀ s b, sent (edit_comment (board thread 6) 2 2 (JStr " edited ") 60) = Json s b →
           s = 200 ∧ b = CommentBody c'.
Proof.
  apply (edit_changes_content_and_updatedAt_only (board thread 6) 2 2
           (JStr " edited ") 60 "edited" (sample_comment 2 2 20 (JNum 1))).
  - vm_compute. reflexivity.
  - reflexivity.
  - reflexivity.
Defined.

(** ** Reacting *)

Lemma reaction_users_set k k' l r :
  reaction_users k' (set_reaction_users k l r) =
  if bool_decide (k' = k) then l else reaction_users k' r.
Proof. by destruct k, k'. Qed.

Lemma set_reaction_users_same k r : set_reaction_users k (reaction_users k r) r = r.
Proof. by destruct k, r. Qed.

Lemma reaction_users_toggle k k' uid c :
  reaction_users k' (c_reactions (toggle_reaction k uid c)) =
  if bool_decide (k' = k) then toggle uid (reaction_users k (c_reactions c))
  else reaction_users k' (c_reactions c).
Proof. unfold toggle_reaction. simpl. apply reaction_users_set. Qed.

Lemma toggle_reaction_twice k uid c :
  uid ∉ reaction_users k (c_reactions c) →
  toggle_reaction k uid (toggle_reaction k uid c) = c.
Proof.
  intros H. destruct c as [? ? ? ? ? ? ? ? r]. unfold toggle_reaction. simpl in *.
  f_equal. rewrite reaction_users_set, bool_decide_eq_true_2 by done.
  rewrite toggle_twice_absent by done. by destruct k, r.
Qed.

Lemma react_accepted d uid commentId reaction k c :
  valid_kind reaction = Some k →
  find_comment commentId (comments d) = Some c →
  ∃ before after,
    comments d = before ++ c :: after ∧
    (∀ x, x ∈ before → c_id x ≠ commentId) ∧
    persisted (react d uid commentId reaction) =
      {| users := users d;
         comments := before ++ toggle_reaction k uid c :: after;
         nextCommentId := nextCommentId d; nextUserId := nextUserId d |} ∧
    find_comment commentId (comments (persisted (react d uid commentId reaction)))
    = Some (toggle_reaction k uid c).
Proof.
  intros Hk Hfind.
  destruct (find_comment_split _ _ _ Hfind) as (before & after & Hcs & Hid & Hb).
  exists before, after. unfold react. rewrite Hk, Hfind.
  rewrite persisted_emit_and_respond, Hcs, update_first_split by done.
  split_and!; try done. simpl. by apply find_comment_first.
Qed.

(** C4: a reaction of a valid kind on an existing comment, whose list for
    that kind has no duplicates, toggles the caller in that list and
    touches nothing else: a caller who is in the list is taken out, one
    who is not is put in, the other users and the other kinds stay.  A
    second identical request brings every list back to the same set of
    users (the very same dataset when the caller was absent at first), and
    a request of another kind after the first leaves the caller in both
    lists. *)
Theorem react_toggles d uid commentId reaction k c :
  valid_kind reaction = Some k →
  find_comment commentId (comments d) = Some c →
  NoDup (reaction_users k (c_reactions c)) →
  ∃ c1 c2,
    find_comment commentId (comments (persisted (react d uid commentId reaction)))
    = Some c1 ∧
    find_comment commentId
      (comments (persisted (react (persisted (react d uid commentId reaction))
                                  uid commentId reaction)))
    = Some c2 ∧
    c1 = toggle_reaction k uid c ∧
    (uid ∈ reaction_users k (c_reactions c) →
     uid ∉ reaction_users k (c_reactions c1)) ∧
    (uid ∉ reaction_users k (c_reactions c) →
     uid ∈ reaction_users k (c_reactions c1)) ∧
    (∀ v, v ≠ uid → v ∈ reaction_users k (c_reactions c1)
                    ↔ v ∈ reaction_users k (c_reactions c)) ∧
    (∀ k', k' ≠ k →
       reaction_users k' (c_reactions c1) = reaction_users k' (c_reactions c)) ∧
    NoDup (reaction_users k (c_reactions c1)) ∧
    (∀ k', reaction_users k' (c_reactions c2) ≡ₚ reaction_users k' (c_reactions c)) ∧
    (uid ∉ reaction_users k (c_reactions c) →
     persisted (react (persisted (react d uid commentId reaction))
                      uid commentId reaction) = d) ∧
    (∀ reaction' k', valid_kind reaction' = Some k' → k' ≠ k →
       uid ∉ reaction_users k (c_reactions c) →
       uid ∉ reaction_users k' (c_reactions c) →
       ∃ c3,
         find_comment commentId
           (comments (persisted (react (persisted (react d uid commentId reaction))
                                       uid commentId reaction')))
         = Some c3 ∧
         uid ∈ reaction_users k (c_reactions c3) ∧
         uid ∈ reaction_users k' (c_reactions c3)).
Proof.
  intros Hk Hfind Hnd.
  destruct (react_accepted d uid commentId reaction k c Hk Hfind)
    as (before & after & Hcs & Hb & Hd1 & Hf1).
  set (d1 := persisted (react d uid commentId reaction)) in *.
  destruct (react_accepted d1 uid commentId reaction k _ Hk Hf1)
    as (before' & after' & Hcs' & Hb' & Hd2 & Hf2).
  exists (toggle_reaction k uid c),
         (toggle_reaction k uid (toggle_reaction k uid c)).
  split_and!; try done.
  - rewrite reaction_users_toggle, bool_decide_eq_true_2 by done.
    by apply toggle_removes.
  - rewrite reaction_users_toggle, bool_decide_eq_true_2 by done.
    apply toggle_adds.
  - intros v Hv. rewrite reaction_users_toggle, bool_decide_eq_true_2 by done.
    by apply toggle_others.
  - intros k' Hk'. by rewrite reaction_users_toggle, bool_decide_eq_false_2.
  - rewrite reaction_users_toggle, bool_decide_eq_true_2 by done.
    by apply toggle_NoDup.
  - intros k'. rewrite !reaction_users_toggle. case_bool_decide as Hkk.
    + subst k'. rewrite bool_decide_eq_true_2 by done. by apply toggle_twice_perm.
    + done.
  - intros Hout.
    destruct (find_comment_split _ _ _ Hfind) as (_ & _ & _ & Hid & _).
    unfold react at 1. rewrite Hk, Hf1, persisted_emit_and_respond.
    rewrite Hd1. simpl. rewrite update_first_split by (simpl; done).
    rewrite toggle_reaction_twice by done. rewrite <- Hcs. by destruct d.
  - intros reaction' k' Hk' Hne Hout Hout'.
    destruct (react_accepted d1 uid commentId reaction' k' _ Hk' Hf1)
      as (_ & _ & _ & _ & _ & Hf3).
    eexists. split; [exact Hf3|].
    rewrite !reaction_users_toggle.
    rewrite (bool_decide_eq_false_2 (k = k')) by done.
    rewrite !bool_decide_eq_true_2 by done.
    rewrite (bool_decide_eq_false_2 (k' = k)) by done.
    split; apply toggle_adds; done.
Qed.

Lemma react_toggles_witness :
  ∃ c1 c2,
    find_comment 1 (comments (persisted (react (board thread 6) 2 1 (JStr "like"))))
    = Some c1 ∧
    find_comment 1
      (comments (persisted (react (persisted (react (board thread 6) 2 1 (JStr "like")))
                                  2 1 (JStr "like"))))
    = Some c2 ∧
    c1 = toggle_reaction Like 2 (sample_comment 1 1 10 JNull) ∧
    (2 ∈ reaction_users Like (c_reactions (sample_comment 1 1 10 JNull)) →
     2 ∉ reaction_users Like (c_reactions c1)) ∧
    (2 ∉ reaction_users Like (c_reactions (sample_comment 1 1 10 JNull)) →
     2 ∈ reaction_users Like (c_reactions c1)) ∧
    (∀ v, v ≠ 2 → v ∈ reaction_users Like (c_reactions c1)
                  ↔ v ∈ reaction_users Like (c_reactions (sample_comment 1 1 10 JNull))) ∧
    (∀ k', k' ≠ Like →
       reaction_users k' (c_reactions c1)
       = reaction_users k' (c_reactions (sample_comment 1 1 10 JNull))) ∧
    NoDup (reaction_users Like (c_reactions c1)) ∧
    (∀ k', reaction_users k' (c_reactions c2)
           ≡ₚ reaction_users k' (c_reactions (sample_comment 1 1 10 JNull))) ∧
    (2 ∉ reaction_users Like (c_reactions (sample_comment 1 1 10 JNull)) →
     persisted (react (persisted (react (board thread 6) 2 1 (JStr "like")))
                      2 1 (JStr "like")) = board thread 6) ∧
    (∀ reaction' k', valid_kind reaction' = Some k' → k' ≠ Like →
       2 ∉ reaction_users Like (c_reactions (sample_comment 1 1 10 JNull)) →
       2 ∉ reaction_users k' (c_reactions (sample_comment 1 1 10 JNull)) →
       ∃ c3,
         find_comment 1
           (comments (persisted (react (persisted (react (board thread 6) 2 1 (JStr "like")))
                                       2 1 reaction')))
         = Some c3 ∧
         2 ∈ reaction_users Like (c_reactions c3) ∧
         2 ∈ reaction_users k' (c_reactions c3)).
Proof.
  apply (react_toggles (board thread 6) 2 1 (JStr "like") Like
           (sample_comment 1 1 10 JNull)).
  - reflexivity.
  - reflexivity.
  - simpl. constructor.
Defined.

(** Spec property 4 on the sample thread: bob likes comment 1 twice, then
    likes and loves it. *)
Example like_twice :
  final 10 (board thread 6) [React 2 1 (JStr "like"); React 2 1 (JStr "like")]
  = board thread 6.
Proof. vm_compute. reflexivity. Qed.

Example like_then_love :
  c_reactions <$>
    find_comment 1 (comments (final 10 (board thread 6)
                                [React 2 1 (JStr "like"); React 2 1 (JStr "love")]))
  = Some {| like := [2]; love := [2]; haha := []; wow := []; sad := []; angry := [] |}.
Proof. vm_compute. reflexivity. Qed.

(** With users already in the list the second request restores the set, not
    the order of the array. *)
Example toggle_twice_reorders : toggle 1 (toggle 1 [1; 2]) = [2; 1].
Proof. reflexivity. Qed.

(** ** Ids *)

Lemma update_first_ids p f cs :
  (∀ c, c_id (f c) = c_id c) →
  c_id <$> update_first p f cs = c_id <$> cs.
Proof.
  intros Hf. induction cs as [|c cs IH]; [done|].
  cbn [update_first]. destruct (p c); cbn [fmap list_fmap]; [by rewrite Hf|].
  f_equal. exact IH.
Qed.

Lemma update_first_length p f cs : length (update_first p f cs) = length cs.
Proof.
  induction cs as [|c cs IH]; [done|].
  cbn [update_first]. destruct (p c); simpl; [done | by rewrite IH].
Qed.

(** What a handler can do to the dataset: nothing; append one comment whose
    id is the counter, and increment the counter; or replace the list by one
    that is not longer and whose ids were all there before, the counter
    staying. *)
Lemma handle_effect stack d r :
  persisted (handle stack d r) = d ∨
  (∃ c, c_id c = nextCommentId d ∧
        persisted (handle stack d r) =
          {| users := users d; comments := comments d ++ [c];
             nextCommentId := nextCommentId d + 1; nextUserId := nextUserId d |}) ∨
  (∃ cs', (∀ x, x ∈ c_id <$> cs' → x ∈ c_id <$> comments d) ∧
          (length cs' ≤ length (comments d))%nat ∧
          persisted (handle stack d r) =
            {| users := users d; comments := cs';
               nextCommentId := nextCommentId d; nextUserId := nextUserId d |}).
Proof.
  destruct r as [uid content parentId now|uid commentId content now
                |uid commentId|uid commentId reaction]; simpl.
  - unfold create_comment. destruct (check_content content); [by left..|].
    destruct (find _ (users d)); [|by left].
    right. left. eexists. rewrite persisted_emit_and_respond.
    split; cycle 1; reflexivity.
  - unfold edit_comment. destruct (check_content content); [by left..|].
    destruct (find_comment commentId (comments d)); [|by left].
    destruct (negb _); [by left|].
    right. right. eexists. rewrite persisted_emit_and_respond.
    split_and!; [|by rewrite update_first_length|done].
    by rewrite update_first_ids.
  - unfold delete_comment.
    destruct (find_comment commentId (comments d)); [|by left].
    destruct (negb _); [by left|].
    destruct (markDescendants _ _ _ _); [|by left].
    right. right. eexists. rewrite persisted_emit_and_respond.
    split_and!; [|apply sublist_length, filter_sublist|done].
    intros x (y & -> & [Hy _]%elem_of_filter_list)%list_elem_of_fmap.
    by apply list_elem_of_fmap_2.
  - unfold react. destruct (valid_kind reaction); [|by left].
    destruct (find_comment commentId (comments d)); [|by left].
    right. right. eexists. rewrite persisted_emit_and_respond.
    split_and!; [|by rewrite update_first_length|done].
    by rewrite update_first_ids.
Qed.

(** A handler never lowers the counter. *)
Lemma handle_counter stack d r :
  nextCommentId d ≤ nextCommentId (persisted (handle stack d r)).
Proof.
  destruct (handle_effect stack d r) as [->|[(c & _ & ->)|(cs' & _ & _ & ->)]];
    simpl; lia.
Qed.

Lemma handle_ids_below_counter stack d r :
  ids_below_counter d → ids_below_counter (persisted (handle stack d r)).
Proof.
  intros Hd.
  destruct (handle_effect stack d r) as [->|[(c & Hc & ->)|(cs' & Hcs' & _ & ->)]];
    [done| |]; intros x Hx; simpl in *.
  - apply elem_of_app in Hx as [Hx|Hx%list_elem_of_singleton]; [|subst x; lia].
    specialize (Hd x Hx). lia.
  - destruct (proj1 (list_elem_of_fmap _ _ _) (Hcs' (c_id x) (list_elem_of_fmap_2 _ _ _ Hx)))
      as (y & -> & Hy).
    by apply Hd.
Qed.

Lemma sent_emit_and_respond_cases d r :
  sent (emit_and_respond d r) = r ∨ sent (emit_and_respond d r) = Threw.
Proof. unfold emit_and_respond. destruct (buildCommentsTree _); [by left | by right]. Qed.

(** The id a create request is answered with is the counter it found, and
    the counter it leaves is the next integer. *)
Lemma created_id_counter stack d r x :
  created_id (handle stack d r) = Some x →
  x = nextCommentId d ∧ nextCommentId (persisted (handle stack d r)) = x + 1.
Proof.
  unfold created_id.
  destruct r as [uid content parentId now|uid commentId content now
                |uid commentId|uid commentId reaction]; simpl.
  - unfold create_comment. destruct (check_content content); [done..|].
    destruct (find _ (users d)); [|done].
    rewrite persisted_emit_and_respond.
    match goal with
    | |- context [sent (emit_and_respond ?d' ?r)] =>
        destruct (sent_emit_and_respond_cases d' r) as [->| ->]; [|done]
    end.
    by intros [= <-].
  - unfold edit_comment. destruct (check_content content); [done..|].
    destruct (find_comment commentId (comments d)); [|done].
    destruct (negb _); [done|].
    match goal with
    | |- context [sent (emit_and_respond ?d' ?r)] =>
        by destruct (sent_emit_and_respond_cases d' r) as [->| ->]
    end.
  - unfold delete_comment.
    destruct (find_comment commentId (comments d)); [|done].
    destruct (negb _); [done|].
    destruct (markDescendants _ _ _ _) as [m|]; [|done].
    match goal with
    | |- context [sent (emit_and_respond ?d' ?r)] =>
        by destruct (sent_emit_and_respond_cases d' r) as [->| ->]
    end.
  - unfold react. destruct (valid_kind reaction) as [k|]; [|done].
    destruct (find_comment commentId (comments d)) as [c|]; [|done].
    match goal with
    | |- context [sent (emit_and_respond ?d' ?r)] =>
        by destruct (sent_emit_and_respond_cases d' r) as [->| ->]
    end.
Qed.

(** A comment a handler appends has the counter as its id. *)
Lemma appended_id_counter stack d r new :
  comments (persisted (handle stack d r)) = comments d ++ [new] →
  c_id new = nextCommentId d.
Proof.
  destruct (handle_effect stack d r)
    as [->|[(c & Hc & ->)|(cs' & _ & Hlen & ->)]]; simpl; intros Happ.
  - apply (f_equal length) in Happ. rewrite length_app in Happ. simpl in Happ. lia.
  - apply app_inj_tail in Happ as [_ <-]. done.
  - rewrite Happ, length_app in Hlen. simpl in Hlen. lia.
Qed.

Lemma final_snoc stack d rs r :
  final stack d (rs ++ [r]) = persisted (handle stack (final stack d rs) r).
Proof. unfold final. by rewrite foldl_app. Qed.

Lemma final_app stack d rs1 rs2 :
  final stack d (rs1 ++ rs2) = final stack (final stack d rs1) rs2.
Proof. unfold final. by rewrite foldl_app. Qed.

Lemma final_counter stack d rs :
  nextCommentId d ≤ nextCommentId (final stack d rs).
Proof.
  induction rs as [|r rs IH] using rev_ind; [done|].
  rewrite final_snoc. pose proof (handle_counter stack (final stack d rs) r). lia.
Qed.

Lemma final_ids_below_counter stack d rs :
  ids_below_counter d → ids_below_counter (final stack d rs).
Proof.
  intros Hd. induction rs as [|r rs IH] using rev_ind; [done|].
  rewrite final_snoc. by apply handle_ids_below_counter.
Qed.

Lemma created_ids_from_counter stack rs : ∀ d x,
  x ∈ created_ids (serve stack d rs) → nextCommentId d ≤ x.
Proof.
  induction rs as [|r rs IH]; intros d x; [by intros ?%elem_of_nil|].
  unfold created_ids. cbn [serve omap list_omap].
  pose proof (handle_counter stack d r) as Hc.
  destruct (created_id (handle stack d r)) as [y|] eqn:Hy.
  - apply created_id_counter in Hy as [-> Hy].
    intros [->|Hx%IH]%elem_of_cons; lia.
  - intros Hx%IH. lia.
Qed.

Lemma initial_ids_below_counter : ids_below_counter (loadDB None).
Proof. intros c Hc. simpl in Hc. by apply elem_of_nil in Hc. Qed.

(** The ids given when the requests are served in turn. *)
Lemma created_ids_increase_in_turn stack d rs :
  ids_below_counter d →
  StronglySorted Z.lt (created_ids (serve stack d rs)) ∧
  ∀ earlier later r rest c,
    rs = earlier ++ later ++ r :: rest →
    c ∈ comments (final stack d earlier) →
    (∀ x, created_id (handle stack (final stack d (earlier ++ later)) r) = Some x →
          c_id c < x) ∧
    (∀ new, comments (persisted (handle stack (final stack d (earlier ++ later)) r))
            = comments (final stack d (earlier ++ later)) ++ [new] →
            c_id c < c_id new).
Proof.
  intros Hd. split.
  - clear Hd. revert d. induction rs as [|r rs IH]; intros d; [constructor|].
    unfold created_ids. cbn [serve omap list_omap].
    destruct (created_id (handle stack d r)) as [y|] eqn:Hy; [|apply IH].
    constructor; [apply IH|].
    apply created_id_counter in Hy as [-> Hy].
    apply Forall_forall. intros x Hx%created_ids_from_counter. lia.
  - intros earlier later r rest c _ Hc.
    pose proof (final_ids_below_counter stack d earlier Hd c Hc) as Hlt.
    pose proof (final_counter stack (final stack d earlier) later) as Hle.
    rewrite <- final_app in Hle. split.
    + intros x [-> _]%created_id_counter. lia.
    + intros new ->%appended_id_counter. lia.
Qed.

(** ** Requests that overlap *)

(** A handler that does not get to [saveDB] leaves the file as it read
    it. *)
Lemma handle_not_saved stack d r :
  saved (handle stack d r) = false → persisted (handle stack d r) = d.
Proof.
  assert (∀ d' resp, saved (emit_and_respond d' resp) = true) as Hsaved.
  { intros d' resp. unfold emit_and_respond. by destruct (buildCommentsTree _). }
  destruct r as [uid content parentId now|uid commentId content now
                |uid commentId|uid commentId reaction]; simpl.
  - unfold create_comment. destruct (check_content content); [done..|].
    destruct (find _ (users d)); [|done]. by rewrite Hsaved.
  - unfold edit_comment. destruct (check_content content); [done..|].
    destruct (find_comment commentId (comments d)); [|done].
    destruct (negb _); [done|]. by rewrite Hsaved.
  - unfold delete_comment.
    destruct (find_comment commentId (comments d)); [|done].
    destruct (negb _); [done|].
    destruct (markDescendants _ _ _ _); [|done]. by rewrite Hsaved.
  - unfold react. destruct (valid_kind reaction); [|done].
    destruct (find_comment commentId (comments d)); [|done]. by rewrite Hsaved.
Qed.

Lemma run_app stack s ts1 ts2 :
  run stack s (ts1 ++ ts2) = run stack (run stack s ts1) ts2.
Proof. unfold run. by rewrite foldl_app. Qed.

(** With no two requests in flight at a time the server does what [serve]
    and [final] say. *)
Lemma run_one_at_a_time stack rs : ∀ s,
  in_flight s = [] →
  run stack s (one_at_a_time rs) =
  {| file := final stack (file s) rs; in_flight := [];
     answers := answers s ++ serve stack (file s) rs |}.
Proof.
  induction rs as [|r rs IH]; intros [f l a] Hl; simpl in Hl; subst l.
  - simpl. by rewrite app_nil_r.
  - change (one_at_a_time (r :: rs))
      with ([Takes r; Resumes 0] ++ one_at_a_time rs).
    rewrite run_app, IH by done.
    assert ((if saved (handle stack f r) then persisted (handle stack f r) else f)
            = persisted (handle stack f r)) as Hfile.
    { destruct (saved (handle stack f r)) eqn:Hs; [done|].
      by rewrite handle_not_saved. }
    simpl. rewrite Hfile, <- app_assoc. done.
Qed.

(** C5, counterexample: two create requests that overlap are answered with
    the same id, and the comment of the one that wrote first is lost.  Both
    requests are taken and read the empty board before either writes. *)
Lemma overlapping_creates_share_an_id :
  let s := run 10 (idle (board [] 1))
             [ Takes (Create 1 (JStr "a") JNull 10);
               Takes (Create 2 (JStr "b") JNull 20);
               Resumes 0; Resumes 0 ] in
  created_ids (answers s) = [1; 1] ∧
  ¬ StronglySorted Z.lt (created_ids (answers s)) ∧
  c_content <$> comments (file s) = ["b"].
Proof.
  cbv zeta. split_and!.
  - by vm_compute.
  - assert (created_ids (answers (run 10 (idle (board [] 1))
             [ Takes (Create 1 (JStr "a") JNull 10);
               Takes (Create 2 (JStr "b") JNull 20);
               Resumes 0; Resumes 0 ])) = [1; 1]) as -> by by vm_compute.
    intros [Hlt _]%StronglySorted_cons. apply Forall_cons in Hlt as [Hlt _]. lia.
  - by vm_compute.
Qed.

(** C5, as amended: when no two requests overlap (each request is over
    before the next is taken), on a dataset whose ids are below its counter
    (the empty dataset [loadDB] starts from is one), and as long as the
    counter stays among the integers a JavaScript number counts exactly
    (where [++] is the successor the handlers are modelled with), the ids
    answered by the create requests increase strictly; and the id a create
    request answers with, like the id of any comment a request appends, is
    greater than the id of every comment that was in the dataset at any
    earlier time, deleted since or not. *)
Theorem created_ids_strictly_increase stack d rs :
  ids_below_counter d →
  exact (nextCommentId d) →
  exact (nextCommentId (file (run stack (idle d) (one_at_a_time rs)))) →
  StronglySorted Z.lt
    (created_ids (answers (run stack (idle d) (one_at_a_time rs)))) ∧
  ∀ earlier later r rest c,
    rs = earlier ++ later ++ r :: rest →
    c ∈ comments (file (run stack (idle d) (one_at_a_time earlier))) →
    let read := file (run stack (idle d) (one_at_a_time (earlier ++ later))) in
    (∀ x, created_id (handle stack read r) = Some x → c_id c < x) ∧
    (∀ new, comments (persisted (handle stack read r)) = comments read ++ [new] →
            c_id c < c_id new).
Proof.
  intros Hd _ _. rewrite run_one_at_a_time by done. cbn [answers idle file app].
  destruct (created_ids_increase_in_turn stack d rs Hd) as [Hsorted Hlater].
  split; [done|].
  intros earlier later r rest c Hrs. rewrite !run_one_at_a_time by done.
  cbn [file idle]. by apply (Hlater earlier later r rest).
Qed.

Lemma created_ids_strictly_increase_witness :
  StronglySorted Z.lt
    (created_ids (answers (run 10 (idle (board [] 1)) (one_at_a_time
       [ Create 1 (JStr "a") JNull 10; Create 2 (JStr "b") (JNum 1) 20;
         Delete 1 1; Create 1 (JStr "c") JNull 30 ])))) ∧
  ∀ earlier later r rest c,
    [ Create 1 (JStr "a") JNull 10; Create 2 (JStr "b") (JNum 1) 20;
      Delete 1 1; Create 1 (JStr "c") JNull 30 ] = earlier ++ later ++ r :: rest →
    c ∈ comments (file (run 10 (idle (board [] 1)) (one_at_a_time earlier))) →
    let read := file (run 10 (idle (board [] 1)) (one_at_a_time (earlier ++ later))) in
    (∀ x, created_id (handle 10 read r) = Some x → c_id c < x) ∧
    (∀ new, comments (persisted (handle 10 read r)) = comments read ++ [new] →
            c_id c < c_id new).
Proof.
  apply (created_ids_strictly_increase 10 (board [] 1)).
  - intros c Hc. simpl in Hc. by apply elem_of_nil in Hc.
  - unfold exact. simpl. lia.
  - unfold exact. vm_compute. split; discriminate.
Defined.

(** Spec property 2: ids 1 and 2 are given, the thread is deleted, and the
    next create gets 3. *)
Example ids_after_delete :
  created_ids (serve 10 (board [] 1)
     [ Create 1 (JStr "a") JNull 10; Create 2 (JStr "b") (JNum 1) 20;
       Delete 1 1; Create 1 (JStr "c") JNull 30 ]) = [1; 2; 3] ∧
  c_id <$> comments (final 10 (board [] 1)
     [ Create 1 (JStr "a") JNull 10; Create 2 (JStr "b") (JNum 1) 20;
       Delete 1 1; Create 1 (JStr "c") JNull 30 ]) = [3].
Proof. vm_compute. done. Qed.

(** ** The broadcast *)

(** C9: a create, edit, delete or react request that is answered with a
    success status has emitted one [comments:update] event, after the
    dataset was saved; its payload is the forest [buildCommentsTree] makes
    of the saved list, and [io.emit] hands it to every connected socket, the
    one of the requester like the others. *)
Theorem successful_mutation_is_broadcast {S} stack d r (sockets : list S) status b :
  sent (handle stack d r) = Json status b → 200 ≤ status < 300 →
  ∃ tree,
    buildCommentsTree (comments (persisted (handle stack d r))) = Some tree ∧
    emitted (handle stack d r) = [CommentsUpdate tree] ∧
    deliveries sockets (handle stack d r)
    = (λ s, (s, CommentsUpdate tree)) <$> sockets.
Proof.
  intros Hsent Hstatus.
  assert (∃ d' resp, handle stack d r = emit_and_respond d' resp) as (d' & resp & Hh).
  { destruct r as [uid content parentId now|uid commentId content now
                  |uid commentId|uid commentId reaction]; simpl in *.
    - unfold create_comment in *.
      destruct (check_content content);
        [injection Hsent as <- _; lia | done |].
      destruct (find _ (users d)); [by eexists _, _|].
      injection Hsent as <- _; lia.
    - unfold edit_comment in *.
      destruct (check_content content);
        [injection Hsent as <- _; lia | done |].
      destruct (find_comment commentId (comments d)); [|injection Hsent as <- _; lia].
      destruct (negb _); [injection Hsent as <- _; lia|]. by eexists _, _.
    - unfold delete_comment in *.
      destruct (find_comment commentId (comments d)); [|injection Hsent as <- _; lia].
      destruct (negb _); [injection Hsent as <- _; lia|].
      destruct (markDescendants _ _ _ _); [by eexists _, _ | done].
    - unfold react in *.
      destruct (valid_kind reaction); [|injection Hsent as <- _; lia].
      destruct (find_comment commentId (comments d)); [|injection Hsent as <- _; lia].
      by eexists _, _. }
  rewrite Hh in *. apply sent_emit_and_respond in Hsent as (_ & tree & Htree & Hem).
  exists tree. rewrite persisted_emit_and_respond. split_and!; [done..|].
  unfold deliveries. rewrite Hem. simpl. by rewrite app_nil_r.
Qed.

Lemma successful_mutation_is_broadcast_witness :
  ∃ tree,
    buildCommentsTree
      (comments (persisted (handle 10 (board thread 6) (Delete 1 1)))) = Some tree ∧
    emitted (handle 10 (board thread 6) (Delete 1 1)) = [CommentsUpdate tree] ∧
    deliveries ["socket-ann"; "socket-bob"] (handle 10 (board thread 6) (Delete 1 1))
    = (λ s, (s, CommentsUpdate tree)) <$> ["socket-ann"; "socket-bob"].
Proof.
  apply (successful_mutation_is_broadcast 10 (board thread 6) (Delete 1 1)
           ["socket-ann"; "socket-bob"] 200 (Message "Deleted")).
  - vm_compute. reflexivity.
  - lia.
Defined.

(** A request that is refused emits nothing. *)
Lemma refused_request_emits_nothing stack d r status b :
  sent (handle stack d r) = Json status b → ¬ (200 ≤ status < 300) →
  emitted (handle stack d r) = [] ∧ persisted (handle stack d r) = d.
Proof.
  intros Hsent Hstatus.
  destruct r as [uid content parentId now|uid commentId content now
                |uid commentId|uid commentId reaction]; simpl in *.
  - unfold create_comment in *. destruct (check_content content); [done..|].
    destruct (find _ (users d)); [|done].
    apply sent_emit_and_respond in Hsent as [[= <- _] _]. lia.
  - unfold edit_comment in *. destruct (check_content content); [done..|].
    destruct (find_comment commentId (comments d)); [|done].
    destruct (negb _); [done|].
    apply sent_emit_and_respond in Hsent as [[= <- _] _]. lia.
  - unfold delete_comment in *.
    destruct (find_comment commentId (comments d)); [|done].
    destruct (negb _); [done|].
    destruct (markDescendants _ _ _ _); [|done].
    apply sent_emit_and_respond in Hsent as [[= <- _] _]. lia.
  - unfold react in *. destruct (valid_kind reaction); [|done].
    destruct (find_comment commentId (comments d)); [|done].
    apply sent_emit_and_respond in Hsent as [[= <- _] _]. lia.
Qed.

(** ** A falsy parentId *)

Lemma elem_of_roots cs f c :
  buildCommentsTree cs = Some f → c ∈ cs → is_root c = true →
  comment_key c ∈ roots f.
Proof.
  intros Hf Hc Hroot. rewrite (roots_perm cs f Hf). unfold root_keys.
  apply list_elem_of_fmap_2. by apply elem_of_filter_list.
Qed.

(** C10: when the parentId of the request is falsy (absent, null, false, 0
    or the empty string) the create handler does what it does without a
    parentId; the comment it saves has a null parentId, and in every forest
    built from the saved list, and from any list that holds the comment, it
    is among the roots. *)
Theorem create_with_falsy_parentId d uid content parentId now text u :
  to_boolean parentId = false →
  check_content content = Text text →
  find (λ x, u_id x =? uid) (users d) = Some u →
  create_comment d uid content parentId now
  = create_comment d uid content JUndefined now ∧
  ∃ c,
    comments (persisted (create_comment d uid content parentId now))
    = comments d ++ [c] ∧
    c_id c = nextCommentId d ∧ c_parentId c = JNull ∧
    (∀ s b, sent (create_comment d uid content parentId now) = Json s b →
            s = 201 ∧ b = CommentBody c) ∧
    (∀ f, buildCommentsTree
            (comments (persisted (create_comment d uid content parentId now)))
          = Some f →
          comment_key c ∈ roots f ∧
          n_comment <$> nodes f !! comment_key c = Some c) ∧
    (∀ cs f, c ∈ cs → buildCommentsTree cs = Some f → comment_key c ∈ roots f).
Proof.
  intros Hfalsy Hcheck Hfind.
  assert ((if to_boolean match parentId with JUndefined => JNull | _ => parentId end
           then match parentId with JUndefined => JNull | _ => parentId end
           else JNull) = JNull) as Hstored.
  { by destruct parentId; simpl in *; try done; rewrite Hfalsy. }
  split.
  - unfold create_comment. by rewrite Hstored.
  - unfold create_comment. rewrite Hcheck, Hfind, Hstored.
    eexists. rewrite persisted_emit_and_respond. simpl.
    split_and!; try reflexivity.
    + by intros s b [[= <- <-] _]%sent_emit_and_respond.
    + intros f Hf. split; [eapply elem_of_roots; [done| |done]; set_solver|].
      destruct (buildCommentsTree_Some _ _ Hf) as [_ Hm].
      rewrite Hm, index_comments_snoc. unfold comment_key at 1. simpl.
      unfold comment_key. simpl. by rewrite lookup_insert_eq.
    + intros cs f Hc Hf. by eapply elem_of_roots.
Qed.

Lemma create_with_falsy_parentId_witness :
  create_comment (board [] 1) 1 (JStr "hello") (JNum 0) 10
  = create_comment (board [] 1) 1 (JStr "hello") JUndefined 10 ∧
  ∃ c,
    comments (persisted (create_comment (board [] 1) 1 (JStr "hello") (JNum 0) 10))
    = comments (board [] 1) ++ [c] ∧
    c_id c = nextCommentId (board [] 1) ∧ c_parentId c = JNull ∧
    (∀ s b, sent (create_comment (board [] 1) 1 (JStr "hello") (JNum 0) 10) = Json s b →
            s = 201 ∧ b = CommentBody c) ∧
    (∀ f, buildCommentsTree
            (comments (persisted (create_comment (board [] 1) 1 (JStr "hello") (JNum 0) 10)))
          = Some f →
          comment_key c ∈ roots f ∧
          n_comment <$> nodes f !! comment_key c = Some c) ∧
    (∀ cs f, c ∈ cs → buildCommentsTree cs = Some f → comment_key c ∈ roots f).
Proof.
  apply (create_with_falsy_parentId (board [] 1) 1 (JStr "hello") (JNum 0) 10
           "hello" ann).
  - reflexivity.
  - vm_compute. reflexivity.
  - reflexivity.
Defined.

(** The five falsy values of a request body are stored alike. *)
Example falsy_parentIds :
  (λ p, c_parentId <$> comments (persisted
          (create_comment (board [] 1) 1 (JStr "hello") p 10)))
    <$> [JUndefined; JNull; JBool false; JNum 0; JStr ""]
  = [[JNull]; [JNull]; [JNull]; [JNull]; [JNull]].
Proof. vm_compute. reflexivity. Qed.

(** ** The scenario of the specification *)

(** Ann posts a comment, bob replies to it, the list shows the comment with
    its reply; ann deletes her comment and the list is empty. *)
Example scenario :
  let d2 := final 10 (board [] 1)
              [ Create 1 (JStr "first") JNull 10; Create 2 (JStr "reply") (JNum 1) 20 ] in
  let d3 := final 10 d2 [ Delete 1 1 ] in
  (c_id <$> comments d2 = [1; 2]) ∧
  (∃ c1 c2, comments d2 = [c1; c2] ∧
            unfold_forest 3 <$> buildCommentsTree (comments d2)
            = Some (Some [Tree c1 [Tree c2 []]])) ∧
  comments d3 = [] ∧
  unfold_forest 3 <$> buildCommentsTree (comments d3) = Some (Some []).
Proof.
  split; [by vm_compute|]. split; [|by vm_compute].
  eexists _, _. split; vm_compute; reflexivity.
Qed.

(** * The account routes and the middleware

    ** Splitting the header *)

Lemma split_spaces_not_nil s : split_spaces s ≠ [].
Proof.
  destruct s as [|a s]; simpl; [done|].
  case_bool_decide; [done|]. by destruct (split_spaces s).
Qed.

Lemma split_spaces_one s b :
  split_spaces s = [b] ↔ s = b ∧ has_space s = false.
Proof.
  revert b. induction s as [|a s IH]; intros b; simpl.
  - naive_solver.
  - case_bool_decide as Ha; simpl.
    + split; [|by intros [_ ?]]. intros [= _ H]. by apply split_spaces_not_nil in H.
    + destruct (split_spaces s) as [|w ws] eqn:Hs;
        [by apply split_spaces_not_nil in Hs|].
      split.
      * intros [= <- ->]. by destruct (proj1 (IH w) eq_refl) as [-> ->].
      * intros [<- Hsp].
        pose proof (proj2 (IH s) (conj eq_refl Hsp)) as [= -> ->]. done.
Qed.

(** Two parts: one space, between them. *)
Lemma split_spaces_two s a b :
  split_spaces s = [a; b] ↔
  s = a +:+ " " +:+ b ∧ has_space a = false ∧ has_space b = false.
Proof.
  revert a. induction s as [|c s IH]; intros a; simpl.
  - split; [done|]. intros [H _]. by destruct a.
  - case_bool_decide as Hc; simpl.
    + subst c. split.
      * intros [= <- Hb]. apply split_spaces_one in Hb as [-> Hb]. done.
      * intros (H & Ha & Hb). destruct a as [|c a]; simpl in *.
        -- injection H as ->. f_equal. by apply split_spaces_one.
        -- injection H as <- _. by rewrite bool_decide_eq_true_2 in Ha.
    + destruct (split_spaces s) as [|w ws] eqn:Hs;
        [by apply split_spaces_not_nil in Hs|].
      split.
      * intros [= <- ->]. destruct (proj1 (IH w) eq_refl) as (-> & Hw & Hb).
        simpl. by rewrite bool_decide_eq_false_2.
      * intros (H & Ha & Hb). destruct a as [|c' a]; simpl in *.
        { injection H as -> _. done. }
        injection H as <- ->. apply orb_false_iff in Ha as [_ Ha].
        pose proof (proj2 (IH a) (conj eq_refl (conj Ha Hb))) as [= -> ->].
        done.
Qed.

Section Middleware.

Variable verify : Z → string → option payload.

Lemma given_Some field s : given field = Some s ↔ field = Some s ∧ s ≠ "".
Proof.
  unfold given. destruct field as [t|]; [|naive_solver].
  case_bool_decide; naive_solver.
Qed.

Lemma authMiddleware_Next now authorization p :
  authMiddleware verify now authorization = Next p ↔
  ∃ scheme token,
    authorization = Some (scheme +:+ " " +:+ token) ∧
    has_space scheme = false ∧ has_space token = false ∧
    verify now token = Some p.
Proof.
  unfold authMiddleware. split.
  - destruct (given authorization) as [auth|] eqn:Hauth; [|done].
    apply given_Some in Hauth as [-> _].
    destruct (split_spaces auth) as [|scheme [|token [|]]] eqn:Hs; try done.
    apply split_spaces_two in Hs as (-> & Hsc & Htk).
    destruct (verify now token) as [q|] eqn:Hv; [|done].
    intros [= ->]. by exists scheme, token.
  - intros (scheme & token & -> & Hsc & Htk & Hv).
    assert (given (Some (scheme +:+ " " +:+ token))
            = Some (scheme +:+ " " +:+ token)) as ->.
    { apply given_Some. split; [done|]. by destruct scheme. }
    rewrite (proj2 (split_spaces_two _ scheme token)) by done.
    by rewrite Hv.
Qed.

(** X1: the middleware lets a request through exactly when its header is
    two words with one space between them and [jwt.verify] accepts the
    second; the request then runs for the payload [verify] returned.  The
    first word is never looked at: it need not be [Bearer], and may be
    empty. *)
Theorem authMiddleware_accepts now authorization p :
  authMiddleware verify now authorization = Next p ↔
  ∃ scheme token,
    authorization = Some (scheme +:+ " " +:+ token) ∧
    has_space scheme = false ∧ has_space token = false ∧
    verify now token = Some p.
Proof. apply authMiddleware_Next. Qed.

End Middleware.

(** The scheme is not checked: any first word does. *)
Example authMiddleware_any_scheme :
  authMiddleware sample_verify 200 <$>
    [Some "Bearer 100.3"; Some "Basic 100.3"; Some " 100.3";
     Some "100.3"; Some "Bearer  100.3"; Some ""; None]
  = [ Next {| p_id := 3; p_name := JStr "cid"; p_email := JStr "Cid@Example.org" |};
      Next {| p_id := 3; p_name := JStr "cid"; p_email := JStr "Cid@Example.org" |};
      Next {| p_id := 3; p_name := JStr "cid"; p_email := JStr "Cid@Example.org" |};
      Unauthorized "Invalid authorization header";
      Unauthorized "Invalid authorization header";
      Unauthorized "Missing authorization header";
      Unauthorized "Missing authorization header" ].
Proof. vm_compute. reflexivity. Qed.

(** ** Registering and logging in *)

Section Accounts.

Variable sign : Z → payload → string.
Variable verify : Z → string → option payload.
Variable compare : string → string → bool.
Variable encodeURIComponent : string → string.
Variable toLowerCase : string → string.

Implicit Types (d : db) (name email password : jsval) (us : list user).


(** *** The search for the e-mail *)

Lemma find_email_cons email u us :
  find_email toLowerCase email (u :: us) =
  match u_email u, email with
  | JStr stored, JStr sent =>
      if bool_decide (toLowerCase stored = toLowerCase sent)
      then Some (Some u) else find_email toLowerCase email us
  | _, _ => None
  end.
Proof. reflexivity. Qed.

Lemma find_email_free email us :
  find_email toLowerCase email us = Some None ↔ email_free toLowerCase email us.
Proof.
  unfold email_free. induction us as [|u us IH].
  { split; [by left | done]. }
  rewrite find_email_cons.
  destruct (u_email u) as [| | | |stored| |] eqn:Hu;
    [split; [done|]; intros [?|(sent & -> & H)]; [done|];
     destruct (H u) as (? & ? & _); [left | congruence]..| | |];
    [|split; [done|]; intros [?|(sent & -> & H)]; [done|];
      destruct (H u) as (? & ? & _); [left | congruence]..].
  destruct email as [| | | |sent| |];
    [split; [done|]; by intros [?|(? & ? & _)]..| | |];
    [|split; [done|]; by intros [?|(? & ? & _)]..].
  case_bool_decide as Hsame.
  - split; [done|]. intros [?|(sent' & [= <-] & H)]; [done|].
    destruct (H u) as (? & ? & Hne); [left|]. congruence.
  - rewrite IH. split.
    + intros Hfree. right. exists sent. split; [done|].
      intros v [->|Hv]%elem_of_cons; [by exists stored|].
      destruct Hfree as [->|(sent' & [= <-] & H)]; [by apply elem_of_nil in Hv|].
      by apply H.
    + intros [?|(sent' & [= <-] & H)]; [done|].
      destruct us as [|u' us]; [by left|]. right. exists sent. split; [done|].
      intros v Hv. apply H. by right.
Qed.

Lemma find_email_of email us u :
  find_email toLowerCase email us = Some (Some u) ↔ email_of toLowerCase email us u.
Proof.
  unfold email_of. revert u. induction us as [|v us IH]; intros u.
  { split; [done|]. intros (? & ? & before & ? & _ & H & _). by destruct before. }
  rewrite find_email_cons.
  assert (∀ sent st before after,
            v :: us = before ++ u :: after → u_email u = JStr st →
            (∀ w, w ∈ before → ∃ other, u_email w = JStr other ∧
                                        toLowerCase other ≠ toLowerCase sent) →
            ∃ stored, u_email v = JStr stored) as Hstr.
  { intros sent st [|w before] after Hus Hu Hb; simplify_eq/=; [by exists st|].
    destruct (Hb w) as (other & ? & _); [left|]. by exists other. }
  destruct (u_email v) as [| | | |stored| |] eqn:Hv;
    [split; [done|]; intros (sent & st & before & after & _ & Hus & Hu & _ & Hb);
     by destruct (Hstr _ _ _ _ Hus Hu Hb)..| | |];
    [|split; [done|]; intros (sent & st & before & after & _ & Hus & Hu & _ & Hb);
      by destruct (Hstr _ _ _ _ Hus Hu Hb)..].
  clear Hstr.
  destruct email as [| | | |sent| |];
    [split; [done|]; by intros (? & ? & ? & ? & ? & _)..| | |];
    [|split; [done|]; by intros (? & ? & ? & ? & ? & _)..].
  case_bool_decide as Hsame.
  - split.
    + intros [= <-]. exists sent, stored, (@nil user), us. split_and!; try done.
      by intros ? ?%elem_of_nil.
    + intros (sent' & st & [|w before] & after & [= <-] & Hus & Hu & Hs & Hb);
        simplify_eq/=; [done|].
      destruct (Hb w) as (? & ? & Hne); [left|]. congruence.
  - rewrite IH. split.
    + intros (sent' & st & before & after & [= <-] & -> & Hu & Hs & Hb).
      exists sent, st, (v :: before), after. split_and!; try done.
      intros w [->|Hw]%elem_of_cons; [by exists stored | by apply Hb].
    + intros (sent' & st & [|w before] & after & [= <-] & Hus & Hu & Hs & Hb);
        simplify_eq/=; [congruence|].
      exists sent, st, before, after. split_and!; try done.
      intros x Hx. apply Hb. by right.
Qed.

(** The search passes the users whose e-mail is another string. *)
Lemma find_email_app sent us l :
  (∀ u, u ∈ us → ∃ stored, u_email u = JStr stored ∧
                           toLowerCase stored ≠ toLowerCase sent) →
  find_email toLowerCase (JStr sent) (us ++ l) = find_email toLowerCase (JStr sent) l.
Proof.
  induction us as [|u us IH]; intros H; [done|].
  cbn [app find_email]. destruct (H u) as (stored & -> & Hne); [left|].
  rewrite bool_decide_eq_false_2 by done. apply IH. intros v Hv. apply H. by right.
Qed.

Lemma all_given_dec name email password :
  negb (to_boolean name) || negb (to_boolean email) || negb (to_boolean password)
  = false ↔ all_given name email password.
Proof.
  unfold all_given.
  destruct (to_boolean name), (to_boolean email), (to_boolean password);
    simpl; naive_solver.
Qed.

(** *** Register *)

(** What [register] does, by cases. *)
Lemma register_cases d name email password passwordHash now :
  (¬ all_given name email password ∧
   register sign encodeURIComponent toLowerCase d name email password passwordHash now
   = refuse d 400 "name, email, password required") ∨
  (all_given name email password ∧ (∃ u, email_of toLowerCase email (users d) u) ∧
   register sign encodeURIComponent toLowerCase d name email password passwordHash now
   = refuse d 400 "Email already registered") ∨
  (all_given name email password ∧ email_free toLowerCase email (users d) ∧
   ∃ pw text u,
     password = JStr pw ∧ to_property_key email = Some text ∧
     u = {| u_id := nextUserId d; u_name := name; u_email := email;
            u_passwordHash := passwordHash;
            u_avatar := "https://i.pravatar.cc/48?u=" +:+ encodeURIComponent text |} ∧
     register sign encodeURIComponent toLowerCase d name email password passwordHash now =
       {| a_persisted := {| users := users d ++ [u]; comments := comments d;
                            nextCommentId := nextCommentId d;
                            nextUserId := nextUserId d + 1 |};
          a_sent := AccountJson 200 (Session (public u) (generateToken sign now u)) |}) ∨
  (all_given name email password ∧ (¬ ∃ u, email_of toLowerCase email (users d) u) ∧
   ¬ (email_free toLowerCase email (users d) ∧ (∃ pw, password = JStr pw) ∧
      is_Some (to_property_key email)) ∧
   register sign encodeURIComponent toLowerCase d name email password passwordHash now =
       account_throws d).
Proof.
  unfold register.
  destruct (negb _ || _ || _) eqn:Hg.
  { left. split; [|done]. intros Hall%all_given_dec. congruence. }
  apply all_given_dec in Hg.
  destruct (find_email toLowerCase email (users d)) as [[u|]|] eqn:Hfind.
  - right. left. split_and!; [done| |done]. exists u. by apply find_email_of.
  - assert (¬ ∃ u, email_of toLowerCase email (users d) u) as Hnone.
    { intros [u Hu%find_email_of]. congruence. }
    apply find_email_free in Hfind.
    destruct password as [| | | |pw| |];
      try (do 3 right; split_and!; [done|done| |done];
           by intros (_ & (? & ?) & _)).
    destruct (to_property_key email) as [text|] eqn:Hkey.
    + right. right. left. split_and!; [done|done|].
      exists pw, text. eexists. split_and!; [done|done|reflexivity|reflexivity].
    + do 3 right. split_and!; [done|done| |done]. by intros (_ & _ & [? ?]).
  - do 3 right. split_and!; [done| | |done].
    + intros [u Hu%find_email_of]. congruence.
    + intros (Hfree%find_email_free & _). congruence.
Qed.

(** X2: [register] answers 200 exactly when name, e-mail and password are
    all truthy, the password is a string, the e-mail can be turned into a
    string, and the search for the e-mail goes through without a match:
    there is no user yet, or the e-mail sent and the stored e-mails are
    strings and none is the e-mail sent, letter case apart.  It answers 400
    exactly when a field is missing or falsy, or the search finds a user.
    In every other case (a stored e-mail or the e-mail sent is not a string
    where the search compares them, or the password is not a string) the
    handler throws and answers nothing.  Unless it answers 200 the dataset
    is left as it was.  When it answers 200 it has appended one user, with
    the counter as id, the name and e-mail as sent and the hash it was
    given, and has incremented the counter; the comments and their counter
    are never touched. *)
Theorem register_refused_or_appended d name email password passwordHash now :
  let r := register sign encodeURIComponent toLowerCase d name email password
      passwordHash now in
  ((∃ b, a_sent r = AccountJson 200 b) ↔
   all_given name email password ∧ email_free toLowerCase email (users d) ∧
   (∃ pw, password = JStr pw) ∧ is_Some (to_property_key email)) ∧
  ((∃ b, a_sent r = AccountJson 400 b) ↔
   ¬ all_given name email password ∨ ∃ u, email_of toLowerCase email (users d) u) ∧
  (a_sent r = AccountThrew ↔
   all_given name email password ∧ (¬ ∃ u, email_of toLowerCase email (users d) u) ∧
   ¬ (email_free toLowerCase email (users d) ∧ (∃ pw, password = JStr pw) ∧
      is_Some (to_property_key email))) ∧
  (∀ status b, a_sent r = AccountJson status b → status = 200 ∨ status = 400) ∧
  ((∀ b, a_sent r ≠ AccountJson 200 b) → a_persisted r = d) ∧
  comments (a_persisted r) = comments d ∧
  nextCommentId (a_persisted r) = nextCommentId d ∧
  (∀ b, a_sent r = AccountJson 200 b →
   ∃ u,
     users (a_persisted r) = users d ++ [u] ∧
     nextUserId (a_persisted r) = nextUserId d + 1 ∧
     u_id u = nextUserId d ∧ u_name u = name ∧ u_email u = email ∧
     u_passwordHash u = passwordHash ∧
     b = Session (public u) (generateToken sign now u)).
Proof.
  cbv zeta.
  destruct (register_cases d name email password passwordHash now)
    as [(Hng & ->)|[(Hg & Htaken & ->)|[(Hg & Hfree & pw & text & u & Hpw & Hkey & Hu & ->)
       |(Hg & Hnone & Hnot & ->)]]]; simpl.
  - split_and!; try done.
    + split; [by intros [? ?] | by intros (? & _)].
    + split; [by left | by eexists].
    + split; [done | by intros (? & _)].
    + intros ?? [= <- _]. by right.
  - assert (¬ email_free toLowerCase email (users d)) as Hnfree.
    { intros Hfree%find_email_free. destruct Htaken as [u Hu%find_email_of].
      congruence. }
    split_and!; try done.
    + split; [by intros [? ?] | by intros (_ & ? & _)].
    + split; [by right | by eexists].
    + split; [done | by intros (_ & ? & _)].
    + intros ?? [= <- _]. by right.
  - assert (¬ ∃ v, email_of toLowerCase email (users d) v) as Hnone.
    { intros [v Hv%find_email_of]. apply find_email_free in Hfree. congruence. }
    split_and!; try done.
    + split; [|by eexists]. intros _. split_and!; [done|done|by exists pw|by exists text].
    + split; [by intros [? ?]|]. by intros [?|?].
    + split; [done|]. intros (_ & _ & Hnot). destruct Hnot.
      split_and!; [done | by exists pw | by exists text].
    + intros ?? [= <- _]. by left.
    + intros H. by edestruct H.
    + intros b [= <-]. exists u. subst u. by split_and!.
  - split_and!; try done.
    + split; [by intros [? ?]|]. intros (_ & ? & ? & ?). by destruct Hnot.
    + split; [by intros [? ?]|]. by intros [?|?].
Qed.

(** X3: [register] keeps the e-mails of the dataset distinct, letter case
    apart: whatever it is sent, when no two stored users have the same
    e-mail in lower case before the request, none have after it. *)
Theorem register_keeps_emails_distinct d name email password passwordHash now :
  emails_distinct toLowerCase d →
  emails_distinct toLowerCase (a_persisted (register sign encodeURIComponent toLowerCase
      d name email password passwordHash now)).
Proof.
  intros Hd.
  destruct (register_cases d name email password passwordHash now)
    as [(_ & ->)|[(_ & _ & ->)|[(_ & Hfree & pw & text & u & _ & _ & Hu & ->)
       |(_ & _ & _ & ->)]]]; try done.
  unfold emails_distinct. simpl. rewrite fmap_app. apply NoDup_app.
  split_and!; [done| |apply NoDup_singleton].
  intros x (v & -> & Hv)%list_elem_of_fmap Hx%list_elem_of_singleton.
  subst u. simpl in Hx.
  destruct Hfree as [Hnil|(sent & -> & Hfree)].
  - rewrite Hnil in Hv. by apply elem_of_nil in Hv.
  - destruct (Hfree v Hv) as (stored & Hs & Hne). rewrite Hs in Hx. simpl in Hx.
    congruence.
Qed.


(** *** Login *)

(** X5: a user who has just registered can log in: with the same password,
    which [bcrypt.compare] accepts against the stored hash, and the e-mail,
    a string, in any letter case, [login] on the dataset [register] left
    answers 200 with the same public user and a token for that user, and
    changes nothing. *)
Theorem login_after_register d name email password passwordHash now (now' : Z) u token
    (pw sent address : string) :
  a_sent (register sign encodeURIComponent toLowerCase d name email password
      passwordHash now)
  = AccountJson 200 (Session u token) →
  email = JStr sent → password = JStr pw →
  compare pw passwordHash = true →
  address ≠ "" → toLowerCase address = toLowerCase sent →
  login sign compare toLowerCase (a_persisted (register sign encodeURIComponent
      toLowerCase d name email password passwordHash now))
    (JStr address) (JStr pw) now'
  = {| a_persisted :=
         a_persisted (register sign encodeURIComponent toLowerCase d name email password
             passwordHash now);
       a_sent :=
         AccountJson 200
           (Session u (sign now' {| p_id := pu_id u; p_name := pu_name u;
                                    p_email := pu_email u |})) |}.
Proof.
  intros Hsent -> -> Hcmp Hne Hsame.
  destruct (register_cases d name (JStr sent) (JStr pw) passwordHash now)
    as [(_ & Hr)|[(_ & _ & Hr)|[((_ & _ & Hpw) & Hfree & pw' & text & v & _ & _ & Hv & Hr)
       |(_ & _ & _ & Hr)]]]; rewrite Hr in *; try done.
  simpl in Hsent. injection Hsent as <- _. simpl in Hpw.
  unfold login. cbn [to_boolean a_persisted users].
  rewrite !bool_decide_eq_false_2 by (by intros ->). cbn [negb orb].
  assert (find_email toLowerCase (JStr address) (users d ++ [v]) = Some (Some v)) as ->.
  { rewrite find_email_app.
    - subst v. simpl. by rewrite bool_decide_eq_true_2.
    - destruct Hfree as [Hnil|(sent' & [= <-] & Hfree)].
      + rewrite Hnil. by intros ? ?%elem_of_nil.
      + intros w Hw. destruct (Hfree w Hw) as (stored & ? & ?).
        exists stored. split; [done | congruence]. }
  subst v. cbn [u_passwordHash]. by rewrite Hcmp.
Qed.

(** What [login] does, by cases. *)
Lemma login_cases d email password now :
  (¬ (to_boolean email = true ∧ to_boolean password = true) ∧
   login sign compare toLowerCase d email password now = refuse d 400
       "email and password required") ∨
  (to_boolean email = true ∧ to_boolean password = true ∧
   find_email toLowerCase email (users d) = Some None ∧
   login sign compare toLowerCase d email password now = refuse d 400
       "Invalid credentials") ∨
  (to_boolean email = true ∧ to_boolean password = true ∧
   ∃ u pw, find_email toLowerCase email (users d) = Some (Some u) ∧ password = JStr pw ∧
     compare pw (u_passwordHash u) = false ∧
     login sign compare toLowerCase d email password now = refuse d 400
         "Invalid credentials") ∨
  (to_boolean email = true ∧ to_boolean password = true ∧
   ∃ u pw, find_email toLowerCase email (users d) = Some (Some u) ∧ password = JStr pw ∧
     compare pw (u_passwordHash u) = true ∧
     login sign compare toLowerCase d email password now =
       {| a_persisted := d;
          a_sent := AccountJson 200 (Session (public u) (generateToken sign now u)) |}) ∨
  (to_boolean email = true ∧ to_boolean password = true ∧
   (find_email toLowerCase email (users d) = None ∨
    ∃ u, find_email toLowerCase email (users d) = Some (Some u) ∧ ∀ pw, password ≠ JStr
        pw) ∧
   login sign compare toLowerCase d email password now = account_throws d).
Proof.
  unfold login.
  destruct (to_boolean email) eqn:He; simpl; [|left; split; [by intros [? _]|done]].
  destruct (to_boolean password) eqn:Hp; simpl; [|left; split; [by intros [_ ?]|done]].
  right. destruct (find_email toLowerCase email (users d)) as [[u|]|] eqn:Hfind.
  - destruct password as [| | | |pw| |];
      try (do 3 right; split_and!; [done|done|right; by exists u|done]).
    destruct (compare pw (u_passwordHash u)) eqn:Hcmp.
    + right. right. left. split_and!; [done..|]. by exists u, pw.
    + right. left. split_and!; [done..|]. by exists u, pw.
  - left. by split_and!.
  - do 3 right. split_and!; [done|done|by left|done].
Qed.

Lemma NoDup_fmap_eq {X Y} (f : X → Y) (l : list X) x y :
  NoDup (f <$> l) → x ∈ l → y ∈ l → f x = f y → x = y.
Proof.
  induction l as [|z l IH]; [by intros _ ?%elem_of_nil|].
  cbn [fmap list_fmap]. intros [Hz Hnd]%NoDup_cons [->|Hx]%elem_of_cons
    [->|Hy]%elem_of_cons Hf; [done| | |by apply IH].
  - destruct Hz. rewrite Hf. by apply list_elem_of_fmap_2.
  - destruct Hz. rewrite <- Hf. by apply list_elem_of_fmap_2.
Qed.

(** On a dataset with distinct e-mails the user found is the only one with
    the e-mail sent. *)
Lemma email_of_unique d email u v sent stored :
  emails_distinct toLowerCase d → email_of toLowerCase email (users d) u → email = JStr
      sent →
  v ∈ users d → u_email v = JStr stored →
  toLowerCase stored = toLowerCase sent → v = u.
Proof.
  intros Hd (sent' & st & before & after & -> & Hus & Hu & Hs & _) [= <-] Hv Hst Hsame.
  apply (NoDup_fmap_eq _ _ _ _ Hd Hv).
  - rewrite Hus. set_solver.
  - rewrite Hst, Hu. simpl. congruence.
Qed.

(** X6: [login] answers 200 exactly when e-mail and password are truthy,
    the search for the e-mail finds a user (the first one with that e-mail,
    letter case apart, the e-mails compared on the way being strings), the
    password is a string and [bcrypt.compare] accepts it against that
    user's hash; the session is then that user's.  It answers 400 exactly
    when a field is missing or falsy, the search goes through without a
    match, or [bcrypt.compare] refuses the password; an unknown e-mail and
    a wrong password get the same message.  In every other case (an e-mail
    that is not a string where the search compares it, a password that is
    not a string when a user is found) the handler throws and answers
    nothing.  [login] never changes the dataset.  On a dataset whose
    e-mails are distinct, letter case apart, the user found is the only
    user with the e-mail sent. *)
Theorem login_succeeds_iff d email password now :
  let r := login sign compare toLowerCase d email password now in
  let accepted u :=
    email_of toLowerCase email (users d) u ∧
    ∃ pw, password = JStr pw ∧ compare pw (u_passwordHash u) = true in
  ((∃ b, a_sent r = AccountJson 200 b) ↔
   to_boolean email = true ∧ to_boolean password = true ∧ ∃ u, accepted u) ∧
  (∀ b, a_sent r = AccountJson 200 b →
   ∃ u, accepted u ∧ b = Session (public u) (generateToken sign now u)) ∧
  ((∃ b, a_sent r = AccountJson 400 b) ↔
   ¬ (to_boolean email = true ∧ to_boolean password = true) ∨
   email_free toLowerCase email (users d) ∨
   ∃ u pw, email_of toLowerCase email (users d) u ∧ password = JStr pw ∧
           compare pw (u_passwordHash u) = false) ∧
  (to_boolean email = true → to_boolean password = true →
   ∀ b, a_sent r = AccountJson 400 b → b = AccountMessage "Invalid credentials") ∧
  (∀ status b, a_sent r = AccountJson status b → status = 200 ∨ status = 400) ∧
  (a_sent r = AccountThrew ↔
   to_boolean email = true ∧ to_boolean password = true ∧
   ¬ email_free toLowerCase email (users d) ∧
   ¬ ∃ u pw, email_of toLowerCase email (users d) u ∧ password = JStr pw) ∧
  a_persisted r = d ∧
  (emails_distinct toLowerCase d →
   ∀ u v sent stored,
     accepted u → email = JStr sent → v ∈ users d → u_email v = JStr stored →
     toLowerCase stored = toLowerCase sent → v = u).
Proof.
  cbv zeta.
  assert (∀ u, email_of toLowerCase email (users d) u → ¬ email_free toLowerCase email
      (users d)) as Hnfree.
  { intros u Hu%find_email_of Hfree%find_email_free. congruence. }
  assert (∀ u v, email_of toLowerCase email (users d) u → email_of toLowerCase email
      (users d) v → v = u)
    as Hfirst.
  { intros u v Hu%find_email_of Hv%find_email_of. congruence. }
  assert (emails_distinct toLowerCase d →
          ∀ u v sent stored,
            (email_of toLowerCase email (users d) u ∧
             ∃ pw, password = JStr pw ∧ compare pw (u_passwordHash u) = true) →
            email = JStr sent → v ∈ users d → u_email v = JStr stored →
            toLowerCase stored = toLowerCase sent → v = u) as Honly.
  { intros Hd u v sent stored [Hu _]. by apply email_of_unique. }
  destruct (login_cases d email password now)
    as [(Hng & ->)|[(He & Hp & Hfind & ->)|[(He & Hp & u & pw & Hfind & -> & Hcmp & ->)
       |[(He & Hp & u & pw & Hfind & -> & Hcmp & ->)|(He & Hp & Hwhy & ->)]]]];
    cbn [a_sent a_persisted refuse account_throws].
  - split_and!; try done.
    + split; [by intros [? ?]|]. intros (? & ? & _). by destruct Hng.
    + split; [by left | by eexists].
    + intros ??. by destruct Hng.
    + intros ?? [= <- _]. by right.
    + split; [done|]. intros (? & ? & _). by destruct Hng.
  - apply find_email_free in Hfind.
    split_and!; try done.
    + split; [by intros [? ?]|]. intros (_ & _ & u & Hu & _).
      by destruct (Hnfree u).
    + split; [|by eexists]. intros _. right. by left.
    + by intros _ _ b [= <-].
    + intros ?? [= <- _]. by right.
    + split; [done|]. by intros (_ & _ & ? & _).
  - apply find_email_of in Hfind.
    split_and!; try done.
    + split; [by intros [? ?]|]. intros (_ & _ & v & Hv & pw' & [= <-] & Hcmp').
      rewrite (Hfirst u v Hfind Hv) in Hcmp'. congruence.
    + split; [|by eexists]. intros _. right. right. by exists u, pw.
    + by intros _ _ b [= <-].
    + intros ?? [= <- _]. by right.
    + split; [done|]. intros (_ & _ & _ & Hno). destruct Hno. by exists u, pw.
  - apply find_email_of in Hfind.
    split_and!; try done.
    + split; [|by eexists]. intros _. split_and!; [done..|].
      exists u. split; [done|]. by exists pw.
    + intros b [= <-]. exists u. split; [|done]. split; [done|]. by exists pw.
    + split; [by intros [? ?]|].
      intros [Hng|[Hfree|(v & pw' & Hv & [= <-] & Hcmp')]].
      * by destruct Hng.
      * by destruct (Hnfree u).
      * rewrite (Hfirst u v Hfind Hv) in Hcmp'. congruence.
    + intros ?? [= <- _]. by left.
    + split; [done|]. intros (_ & _ & _ & Hno). destruct Hno. by exists u, pw.
  - split_and!; try done.
    + split; [by intros [? ?]|]. intros (_ & _ & u & Hu%find_email_of & pw & -> & _).
      destruct Hwhy as [Hnone|(v & Hv & Hnpw)]; [congruence|]. by destruct (Hnpw pw).
    + split; [by intros [? ?]|].
      intros [Hng|[Hfree%find_email_free|(v & pw & Hv%find_email_of & -> & _)]].
      * by destruct Hng.
      * destruct Hwhy as [Hnone|(v & Hv & _)]; congruence.
      * destruct Hwhy as [Hnone|(w & Hw & Hnpw)]; [congruence|]. by destruct (Hnpw pw).
    + split; [|done]. intros _. split_and!; [done|done|..].
      * intros Hfree%find_email_free.
        destruct Hwhy as [Hnone|(v & Hv & _)]; congruence.
      * intros (v & pw & Hv%find_email_of & ->).
        destruct Hwhy as [Hnone|(w & Hw & Hnpw)]; [congruence|]. by destruct (Hnpw pw).
Qed.

Lemma find_user_appended (us : list user) (u : user) :
  (∀ v, v ∈ us → u_id v ≠ u_id u) →
  find (λ x, u_id x =? u_id u) (us ++ [u]) = Some u.
Proof.
  intros Hfresh. induction us as [|v us IH]; simpl; [by rewrite Z.eqb_refl|].
  destruct (Z.eqb_spec (u_id v) (u_id u)) as [Heq|_].
  - by destruct (Hfresh v ltac:(left)).
  - apply IH. intros w Hw. apply Hfresh. by right.
Qed.

(** X7: the token [register] hands out lets its user post, and the comment
    is attributed to that user.  When the ids of the stored users are below
    the counter, [jwt.verify] gives back the payload that was signed, and
    the token has no space in it, a create request with the header
    [Bearer <token>] and a content that is not blank passes the middleware
    and appends a comment with the id, name and avatar of the user who
    registered. *)
Theorem registered_user_posts stack d name email password passwordHash now
    (now' : Z) u token content parentId text :
  user_ids_below_counter d →
  a_sent (register sign encodeURIComponent toLowerCase d name email password
      passwordHash now)
  = AccountJson 200 (Session u token) →
  verify now' token
  = Some {| p_id := pu_id u; p_name := pu_name u; p_email := pu_email u |} →
  has_space token = false →
  check_content content = Text text →
  ∃ c,
    comments (persisted
      (api_handle verify stack now' (Some ("Bearer " +:+ token))
         (a_persisted (register sign encodeURIComponent toLowerCase d name email
             password passwordHash now))
         (ApiCreate content parentId)))
    = comments d ++ [c] ∧
    c_id c = nextCommentId d ∧
    c_userId c = pu_id u ∧ c_userName c = pu_name u ∧ c_avatar c = pu_avatar u ∧
    c_content c = text ∧ c_createdAt c = now' ∧
    ∀ s b,
      sent (api_handle verify stack now' (Some ("Bearer " +:+ token))
         (a_persisted (register sign encodeURIComponent toLowerCase d name email
             password passwordHash now))
         (ApiCreate content parentId)) = Json s b →
      s = 201 ∧ b = CommentBody c.
Proof.
  intros Hd Hsent Hverify Hsp Hcheck.
  destruct (register_cases d name email password passwordHash now)
    as [(_ & Hr)|[(_ & _ & Hr)|[(_ & _ & pw & key & v & _ & _ & Hv & Hr)
       |(_ & _ & _ & Hr)]]]; rewrite Hr in *; try done.
  simpl in Hsent. injection Hsent as <- _.
  unfold api_handle.
  assert (authMiddleware verify now' (Some ("Bearer " +:+ token))
          = Next {| p_id := pu_id (public v); p_name := pu_name (public v);
                    p_email := pu_email (public v) |}) as ->.
  { apply authMiddleware_Next. exists "Bearer", token. by split_and!. }
  cbn [on_behalf_of handle p_id public pu_id a_persisted].
  unfold create_comment. rewrite Hcheck. cbn [users].
  assert (u_id v = nextUserId d) as Hid by (by subst v).
  rewrite find_user_appended.
  2:{ intros w Hw. specialize (Hd w Hw). lia. }
  eexists. rewrite persisted_emit_and_respond.
  cbn [comments nextCommentId]. split_and!; try reflexivity.
  by intros s b [[= <- <-] _]%sent_emit_and_respond.
Qed.

End Accounts.

Example cid_registers :
  a_sent cid_registration = AccountJson 200 (Session cid "100.3") ∧
  u_id <$> users (a_persisted cid_registration) = [1; 2; 3].
Proof. vm_compute. done. Qed.

(** The first registration is never compared with a stored e-mail: an
    e-mail that is not a string is stored as it is, and from then on the
    search throws at the first user, for every registration and login. *)
Example number_for_an_email :
  let first := register sample_sign sample_encode sample_toLowerCase initial_db
                 (JStr "zed") (JNum 5) (JStr "pw") "bcrypt:pw" 100 in
  u_email <$> users (a_persisted first) = [JNum 5] ∧
  a_sent (register sample_sign sample_encode sample_toLowerCase (a_persisted first)
            (JStr "ann") (JStr "ann@example.org") (JStr "pw") "bcrypt:pw" 200)
  = AccountThrew ∧
  a_sent (login sample_sign sample_compare sample_toLowerCase (a_persisted first)
            (JStr "ann@example.org") (JStr "pw") 300)
  = AccountThrew.
Proof. by vm_compute. Qed.

Lemma register_keeps_emails_distinct_witness :
  emails_distinct sample_toLowerCase (a_persisted cid_registration).
Proof.
  apply (register_keeps_emails_distinct sample_sign sample_encode sample_toLowerCase
           (board [] 1)).
  unfold emails_distinct. simpl.
  apply NoDup_cons. split; [by intros [=]%list_elem_of_singleton|].
  apply NoDup_singleton.
Defined.


Lemma login_after_register_witness :
  login sample_sign sample_compare sample_toLowerCase (a_persisted cid_registration)
    (JStr "CID@example.ORG") (JStr "pw") 200
  = {| a_persisted := a_persisted cid_registration;
       a_sent :=
         AccountJson 200
           (Session cid (sample_sign 200 {| p_id := pu_id cid; p_name := pu_name cid;
                                            p_email := pu_email cid |})) |}.
Proof.
  apply (login_after_register sample_sign sample_compare sample_encode
           sample_toLowerCase (board [] 1)
           (JStr "cid") (JStr "Cid@Example.org") (JStr "pw") "bcrypt:pw" 100 200
           cid "100.3" "pw" "Cid@Example.org" "CID@example.ORG").
  - vm_compute. reflexivity.
  - reflexivity.
  - reflexivity.
  - vm_compute. reflexivity.
  - discriminate.
  - vm_compute. reflexivity.
Defined.

Lemma registered_user_posts_witness :
  ∃ c,
    comments (persisted
      (api_handle sample_verify 10 200 (Some ("Bearer " +:+ "100.3"))
         (a_persisted cid_registration) (ApiCreate (JStr " hello ") JNull)))
    = comments (board [] 1) ++ [c] ∧
    c_id c = nextCommentId (board [] 1) ∧
    c_userId c = pu_id cid ∧ c_userName c = pu_name cid ∧ c_avatar c = pu_avatar cid ∧
    c_content c = "hello" ∧ c_createdAt c = 200 ∧
    ∀ s b,
      sent (api_handle sample_verify 10 200 (Some ("Bearer " +:+ "100.3"))
         (a_persisted cid_registration) (ApiCreate (JStr " hello ") JNull)) = Json s b →
      s = 201 ∧ b = CommentBody c.
Proof.
  apply (registered_user_posts sample_sign sample_verify sample_encode
           sample_toLowerCase 10 (board [] 1)
           (JStr "cid") (JStr "Cid@Example.org") (JStr "pw") "bcrypt:pw" 100 200
           cid "100.3" (JStr " hello ") JNull "hello").
  - intros u Hu. simpl in Hu.
    repeat (apply elem_of_cons in Hu as [->|Hu]); [simpl; lia..|].
    by apply elem_of_nil in Hu.
  - vm_compute. reflexivity.
  - vm_compute. reflexivity.
  - reflexivity.
  - vm_compute. reflexivity.
Defined.

(** * What the comment handlers keep

    ** Trimming *)

Lemma string_app_cons a s1 s2 : String a s1 +:+ s2 = String a (s1 +:+ s2).
Proof. reflexivity. Qed.

Lemma string_app_nil_r s : s +:+ "" = s.
Proof.
  induction s as [|a s IH]; [done|]. by rewrite string_app_cons, IH.
Qed.

Lemma string_app_assoc s1 s2 s3 : (s1 +:+ s2) +:+ s3 = s1 +:+ s2 +:+ s3.
Proof.
  induction s1 as [|a s1 IH]; [done|]. by rewrite !string_app_cons, IH.
Qed.

Lemma rev_app_app s1 s2 s3 :
  String.rev_app s1 (s2 +:+ s3) = String.rev_app s1 s2 +:+ s3.
Proof.
  revert s2. induction s1 as [|a s1 IH]; intros s2; [done|].
  cbn [String.rev_app]. by rewrite <- IH.
Qed.

Lemma rev_cons a s : String.rev (String a s) = String.rev s +:+ String a "".
Proof. unfold String.rev. cbn [String.rev_app]. by rewrite <- rev_app_app. Qed.

Lemma rev_app_distr s1 s2 : String.rev (s1 +:+ s2) = String.rev s2 +:+ String.rev s1.
Proof.
  induction s1 as [|a s1 IH].
  - by rewrite string_app_nil_r.
  - by rewrite string_app_cons, !rev_cons, IH, string_app_assoc.
Qed.

Lemma rev_involutive s : String.rev (String.rev s) = s.
Proof.
  induction s as [|a s IH]; [done|].
  by rewrite rev_cons, rev_app_distr, IH.
Qed.

Lemma string_length_app s1 s2 :
  String.length (s1 +:+ s2) = (String.length s1 + String.length s2)%nat.
Proof.
  induction s1 as [|a s1 IH]; [done|]. rewrite string_app_cons. simpl. by rewrite IH.
Qed.

Section Strip.

Variable w : list ascii → bool.

Lemma strip_unfold s :
  strip w s = match drop_white w s with Some r => strip w r | None => s end.
Proof.
  destruct s as [|a [|b [|c s]]]; simpl; try done.
  - by destruct (w [a]).
  - destruct (w [a]); [done|]. by destruct (w [a; b]).
  - destruct (w [a]); [done|]. destruct (w [a; b]); [done|]. by destruct (w [a; b; c]).
Qed.

Lemma drop_white_Some s r :
  drop_white w s = Some r → ∃ p, p ≠ "" ∧ s = p +:+ r.
Proof.
  destruct s as [|a [|b [|c s]]]; simpl; try done.
  - destruct (w [a]); [|done]. intros [= <-]. by exists (String a "").
  - destruct (w [a]); [intros [= <-]; by exists (String a "")|].
    destruct (w [a; b]); [|done]. intros [= <-]. by exists (String a (String b "")).
  - destruct (w [a]); [intros [= <-]; by exists (String a "")|].
    destruct (w [a; b]); [intros [= <-]; by exists (String a (String b ""))|].
    destruct (w [a; b; c]); [|done].
    intros [= <-]. by exists (String a (String b (String c ""))).
Qed.

Lemma drop_white_shorter s r :
  drop_white w s = Some r → (String.length r < String.length s)%nat.
Proof.
  intros (p & Hp & ->)%drop_white_Some. rewrite string_length_app.
  destruct p; [done|]. simpl. lia.
Qed.

(** A string that does not begin with white space has no prefix that
    does. *)
Lemma drop_white_prefix s1 s2 :
  drop_white w (s1 +:+ s2) = None → drop_white w s1 = None.
Proof.
  destruct s1 as [|a [|b [|c s1]]]; [done|..]; rewrite ?string_app_cons;
    change ("" +:+ s2) with s2; simpl.
  - destruct (w [a]); [done|]. done.
  - destruct (w [a]); [done|]. destruct s2 as [|c s2]; [done|].
    by destruct (w [a; b]).
  - destruct (w [a]); [done|]. destruct (w [a; b]); [done|]. by destruct (w [a; b; c]).
Qed.

Lemma strip_spec s :
  drop_white w (strip w s) = None ∧ ∃ p, s = p +:+ strip w s.
Proof.
  remember (String.length s) as n eqn:Hn. revert s Hn.
  induction (lt_wf n) as [n _ IH]. intros s ->.
  rewrite strip_unfold. destruct (drop_white w s) as [r|] eqn:Hr.
  - destruct (IH _ (drop_white_shorter _ _ Hr) r eq_refl) as [Hnone [p Hp]].
    split; [done|]. apply drop_white_Some in Hr as (q & _ & ->).
    exists (q +:+ p). by rewrite string_app_assoc, <- Hp.
  - split; [done | by exists ""].
Qed.

Lemma strip_id s : drop_white w s = None → strip w s = s.
Proof. intros H. by rewrite strip_unfold, H. Qed.

Lemma strip_idempotent s : strip w (strip w s) = strip w s.
Proof. apply strip_id, strip_spec. Qed.

End Strip.

(** [trim] leaves nothing to trim. *)
Lemma trim_idempotent s : trim (trim s) = trim s.
Proof.
  unfold trim, trim_end, trim_start.
  set (w' := λ bytes, white (reverse bytes)).
  set (t := strip white s). set (u := strip w' (String.rev t)).
  destruct (strip_spec w' (String.rev t)) as [_ [p Hp]]. fold u in Hp.
  assert (t = String.rev u +:+ String.rev p) as Ht.
  { by rewrite <- rev_app_distr, <- Hp, rev_involutive. }
  assert (strip white (String.rev u) = String.rev u) as ->.
  { apply strip_id. apply (drop_white_prefix _ _ (String.rev p)).
    rewrite <- Ht. apply strip_spec. }
  rewrite rev_involutive. f_equal. apply strip_idempotent.
Qed.

(** What [trim] returns has no white space at either end. *)
Lemma trim_ends s :
  drop_white white (trim s) = None ∧
  drop_white (λ bytes, white (reverse bytes)) (String.rev (trim s)) = None.
Proof.
  unfold trim, trim_end, trim_start.
  set (w' := λ bytes, white (reverse bytes)).
  set (t := strip white s). set (u := strip w' (String.rev t)).
  destruct (strip_spec w' (String.rev t)) as [Hu [p Hp]]. fold u in Hp, Hu.
  split; [|by rewrite rev_involutive].
  apply (drop_white_prefix _ _ (String.rev p)).
  rewrite <- rev_app_distr, <- Hp, rev_involutive. apply strip_spec.
Qed.

Lemma check_content_Text content text :
  check_content content = Text text →
  ∃ s, content = JStr s ∧ text = trim s ∧ clean text.
Proof.
  unfold check_content. destruct (to_boolean content); [|done].
  destruct content as [| | | |s| |]; try done.
  case_bool_decide as Hs; [done|]. intros [= <-].
  exists s. split_and!; [done..|]. split; [done | apply trim_idempotent].
Qed.

(** ** The shape of a request's effect *)

Lemma elem_of_update_first p f cs c' :
  c' ∈ update_first p f cs → c' ∈ cs ∨ ∃ c, c ∈ cs ∧ p c = true ∧ c' = f c.
Proof.
  induction cs as [|c cs IH]; simpl; [by intros ?%elem_of_nil|].
  destruct (p c) eqn:Hp.
  - intros [->|H]%elem_of_cons.
    + right. exists c. split_and!; [left | done | done].
    + left. by right.
  - intros [->|H]%elem_of_cons; [left; left|].
    destruct (IH H) as [?|(c0 & ? & ? & ?)]; [left; by right|].
    right. exists c0. split_and!; [by right | done | done].
Qed.

(** The five things a request can do to the dataset.  The users and their
    counter are the same in all of them. *)
Lemma handle_shape stack d r :
  users (persisted (handle stack d r)) = users d ∧
  nextUserId (persisted (handle stack d r)) = nextUserId d ∧
  (persisted (handle stack d r) = d ∨
   (∃ uid content parentId now text u,
      r = Create uid content parentId now ∧ check_content content = Text text ∧
      find (λ u, u_id u =? uid) (users d) = Some u ∧
      comments (persisted (handle stack d r)) =
        comments d ++
        [{| c_id := nextCommentId d; c_userId := u_id u; c_userName := u_name u;
            c_avatar := u_avatar u; c_content := text; c_createdAt := now;
            c_updatedAt := None;
            c_parentId :=
              (let p := match parentId with JUndefined => JNull | v => v end in
               if to_boolean p then p else JNull);
            c_reactions := no_reactions |}] ∧
      nextCommentId (persisted (handle stack d r)) = nextCommentId d + 1) ∨
   (∃ uid commentId content now text c,
      r = Edit uid commentId content now ∧ check_content content = Text text ∧
      find_comment commentId (comments d) = Some c ∧ c_userId c = uid ∧
      comments (persisted (handle stack d r)) =
        update_first (λ c, c_id c =? commentId) (set_content text now) (comments d) ∧
      nextCommentId (persisted (handle stack d r)) = nextCommentId d) ∨
   (∃ uid commentId c m,
      r = Delete uid commentId ∧
      find_comment commentId (comments d) = Some c ∧ c_userId c = uid ∧
      markDescendants stack (comments d) commentId no_marks = Some m ∧
      comments (persisted (handle stack d r)) =
        List.filter (λ c, negb (bool_decide (c_id c ∈ toRemove m))) (comments d) ∧
      nextCommentId (persisted (handle stack d r)) = nextCommentId d) ∨
   (∃ uid commentId reaction k c,
      r = React uid commentId reaction ∧ valid_kind reaction = Some k ∧
      find_comment commentId (comments d) = Some c ∧
      comments (persisted (handle stack d r)) =
        update_first (λ c, c_id c =? commentId) (toggle_reaction k uid) (comments d) ∧
      nextCommentId (persisted (handle stack d r)) = nextCommentId d)).
Proof.
  destruct r as [uid content parentId now|uid commentId content now
                |uid commentId|uid commentId reaction]; simpl.
  - unfold create_comment.
    destruct (check_content content) as [| |text] eqn:Hc; [by split_and!; [..|left]..|].
    destruct (find _ (users d)) as [u|] eqn:Hu; [|by split_and!; [..|left]].
    rewrite persisted_emit_and_respond. split_and!; [done..|].
    right. left. by exists uid, content, parentId, now, text, u.
  - unfold edit_comment.
    destruct (check_content content) as [| |text] eqn:Hc; [by split_and!; [..|left]..|].
    destruct (find_comment commentId (comments d)) as [c|] eqn:Hf;
      [|by split_and!; [..|left]].
    destruct (Z.eqb_spec (c_userId c) uid) as [Hu|Hu]; simpl;
      [|by split_and!; [..|left]].
    rewrite persisted_emit_and_respond. split_and!; [done..|].
    right. right. left. exists uid, commentId, content, now, text, c.
    by split_and!.
  - unfold delete_comment.
    destruct (find_comment commentId (comments d)) as [c|] eqn:Hf;
      [|by split_and!; [..|left]].
    destruct (Z.eqb_spec (c_userId c) uid) as [Hu|Hu]; simpl;
      [|by split_and!; [..|left]].
    destruct (markDescendants _ _ _ _) as [m|] eqn:Hm; [|by split_and!; [..|left]].
    rewrite persisted_emit_and_respond. split_and!; [done..|].
    right. right. right. left. by exists uid, commentId, c, m.
  - unfold react.
    destruct (valid_kind reaction) as [k|] eqn:Hk; [|by split_and!; [..|left]].
    destruct (find_comment commentId (comments d)) as [c|] eqn:Hf;
      [|by split_and!; [..|left]].
    rewrite persisted_emit_and_respond. split_and!; [done..|].
    right. right. right. right. exists uid, commentId, reaction, k, c.
    by split_and!.
Qed.

Lemma find_user_Some uid (us : list user) u :
  find (λ u, u_id u =? uid) us = Some u → u ∈ us ∧ u_id u = uid.
Proof.
  induction us as [|v us IH]; simpl; [done|].
  destruct (Z.eqb_spec (u_id v) uid) as [Hv|Hv].
  - intros [= ->]. split; [left | done].
  - intros [Hin Hid]%IH. split; [by right | done].
Qed.

Lemma same_origin_refl c : same_origin c c.
Proof. by repeat split. Qed.

Lemma same_origin_trans a b c : same_origin a b → same_origin b c → same_origin a c.
Proof. unfold same_origin. intros (?&?&?&?&?&?) (?&?&?&?&?&?). split_and!; congruence. Qed.

Lemma same_origin_set_content text now c : same_origin c (set_content text now c).
Proof. by repeat split. Qed.

Lemma same_origin_toggle_reaction k uid c : same_origin c (toggle_reaction k uid c).
Proof. by repeat split. Qed.

(** ** Requests that are refused *)

Section Refused.

Variable verify : Z → string → option payload.

(** X8: a request to one of the four routes behind the middleware that is
    answered with a status outside 200..299 (the 401 of the middleware
    among them) has written nothing and has emitted no event. *)
Theorem refused_api_request_changes_nothing stack now authorization d r status b :
  sent (api_handle verify stack now authorization d r) = Json status b →
  ¬ (200 ≤ status < 300) →
  persisted (api_handle verify stack now authorization d r) = d ∧
  emitted (api_handle verify stack now authorization d r) = [].
Proof.
  unfold api_handle. destruct (authMiddleware verify now authorization) as [m|p].
  - done.
  - intros Hs Hr. by destruct (refused_request_emits_nothing _ _ _ _ _ Hs Hr).
Qed.

End Refused.

Lemma refused_api_request_changes_nothing_witness :
  persisted (api_handle sample_verify 8 100 None (board thread 6) (ApiDelete 1))
    = board thread 6 ∧
  emitted (api_handle sample_verify 8 100 None (board thread 6) (ApiDelete 1)) = [].
Proof.
  apply (refused_api_request_changes_nothing sample_verify 8 100 None (board thread 6)
           (ApiDelete 1) 401 (Message "Missing authorization header")).
  - reflexivity.
  - lia.
Defined.

(** ** What the comment handlers keep *)

(** X9: the comment routes never write the accounts: after any run of
    create, edit, delete and react requests the users and the user counter
    are those of the start. *)
Theorem comment_routes_leave_the_accounts stack d rs :
  users (final stack d rs) = users d ∧
  nextUserId (final stack d rs) = nextUserId d.
Proof.
  induction rs as [|r rs [IHu IHn]] using rev_ind; [done|].
  rewrite final_snoc.
  destruct (handle_shape stack (final stack d rs) r) as (Hu & Hn & _).
  split; congruence.
Qed.

Lemma final_users stack d rs : users (final stack d rs) = users d.
Proof.
  induction rs as [|r rs IH] using rev_ind; [done|].
  rewrite final_snoc.
  destruct (handle_shape stack (final stack d rs) r) as (Hu & _). congruence.
Qed.

(** X10: a comment of the dataset after a run either is a comment of the
    start with the same id, userId, userName, avatar, createdAt and parentId,
    or was created in the run: then its id is at least the counter of the
    start and its userId, userName and avatar are those of a user. *)
Theorem comments_keep_their_origin stack d rs c' :
  c' ∈ comments (final stack d rs) →
  (∃ c, c ∈ comments d ∧ same_origin c c') ∨
  (nextCommentId d ≤ c_id c' ∧
   ∃ u, u ∈ users d ∧ c_userId c' = u_id u ∧ c_userName c' = u_name u ∧
        c_avatar c' = u_avatar u).
Proof.
  revert c'. induction rs as [|r rs IH] using rev_ind; intros c'.
  { intros Hc. left. exists c'. split; [done | apply same_origin_refl]. }
  rewrite final_snoc.
  pose proof (final_counter stack d rs) as Hcount.
  pose proof (final_users stack d rs) as Husers.
  set (d1 := final stack d rs) in *.
  assert (∀ g : comment → comment, (∀ c, same_origin c (g c)) →
          ∀ p, c' ∈ update_first p g (comments d1) →
          (∃ c, c ∈ comments d ∧ same_origin c c') ∨
          (nextCommentId d ≤ c_id c' ∧
           ∃ u, u ∈ users d ∧ c_userId c' = u_id u ∧ c_userName c' = u_name u ∧
                c_avatar c' = u_avatar u)) as Hupd.
  { intros g Hg p [Hin|(c & Hin & _ & ->)]%elem_of_update_first; [by apply IH|].
    destruct (IH _ Hin) as [(c0 & Hc0 & Ho)|(Hid & u & Hu & H1 & H2 & H3)].
    - left. exists c0. split; [done|]. eapply same_origin_trans; [done | apply Hg].
    - right. destruct (Hg c) as (E1 & E2 & E3 & E4 & _).
      split; [lia|]. exists u. split_and!; congruence. }
  destruct (handle_shape stack d1 r) as (_ & _ & [Hsame|[Hcr|[Hed|[Hde|Hre]]]]).
  - rewrite Hsame. apply IH.
  - destruct Hcr as (uid & content & parentId & now & text & u & _ & _ & Hu & -> & _).
    intros [Hin| ->%list_elem_of_singleton]%elem_of_app; [by apply IH|].
    right. simpl. split; [done|].
    apply find_user_Some in Hu as [Hu _]. rewrite Husers in Hu. by exists u.
  - destruct Hed as (uid & commentId & content & now & text & c0 & _ & _ & _ & _ & -> & _).
    apply Hupd. apply same_origin_set_content.
  - destruct Hde as (uid & commentId & c & m & _ & _ & _ & _ & -> & _).
    intros [Hin _]%elem_of_filter_list. by apply IH.
  - destruct Hre as (uid & commentId & reaction & k & c0 & _ & _ & _ & -> & _).
    apply Hupd. apply same_origin_toggle_reaction.
Qed.






Lemma handle_reactions_distinct stack d r :
  reactions_distinct d → reactions_distinct (persisted (handle stack d r)).
Proof.
  intros Hd.
  destruct (handle_shape stack d r) as (_ & _ & [Hsame|[Hcr|[Hed|[Hde|Hre]]]]).
  - by rewrite Hsame.
  - destruct Hcr as (uid & content & parentId & now & text & u & _ & _ & _ & Hc & _).
    intros c k. rewrite Hc.
    intros [Hin| ->%list_elem_of_singleton]%elem_of_app; [by apply Hd|].
    destruct k; constructor.
  - destruct Hed as (uid & commentId & content & now & text & c1 & _ & _ & _ & _ & Hc & _).
    intros c k. rewrite Hc.
    intros [Hin|(c0 & Hin & _ & ->)]%elem_of_update_first; simpl; by apply Hd.
  - destruct Hde as (uid & commentId & c0 & m & _ & _ & _ & _ & Hc & _).
    intros c k. rewrite Hc. intros [Hin _]%elem_of_filter_list. by apply Hd.
  - destruct Hre as (uid & commentId & reaction & k0 & c1 & _ & _ & _ & Hc & _).
    intros c k. rewrite Hc.
    intros [Hin|(c0 & Hin & _ & ->)]%elem_of_update_first; [by apply Hd|].
    rewrite reaction_users_toggle. case_bool_decide.
    + apply toggle_NoDup. by apply Hd.
    + by apply Hd.
Qed.

(** X12: no run makes a reaction list name a user twice: when no list of
    the start does, no list of the dataset after the run does. *)
Theorem reactions_stay_distinct stack d rs :
  reactions_distinct d → reactions_distinct (final stack d rs).
Proof.
  intros Hd. induction rs as [|r rs IH] using rev_ind; [done|].
  rewrite final_snoc. by apply handle_reactions_distinct.
Qed.

Lemma handle_contents_clean stack d r :
  contents_clean d → contents_clean (persisted (handle stack d r)).
Proof.
  intros Hd.
  destruct (handle_shape stack d r) as (_ & _ & [Hsame|[Hcr|[Hed|[Hde|Hre]]]]).
  - by rewrite Hsame.
  - destruct Hcr as (uid & content & parentId & now & text & u & _ & Ht & _ & Hc & _).
    intros c. rewrite Hc.
    intros [Hin| ->%list_elem_of_singleton]%elem_of_app; [by apply Hd|].
    simpl. by destruct (check_content_Text _ _ Ht) as (s & _ & _ & ?).
  - destruct Hed as (uid & commentId & content & now & text & c1 & _ & Ht & _ & _ & Hc & _).
    intros c. rewrite Hc.
    intros [Hin|(c0 & Hin & _ & ->)]%elem_of_update_first; [by apply Hd|].
    simpl. by destruct (check_content_Text _ _ Ht) as (s & _ & _ & ?).
  - destruct Hde as (uid & commentId & c0 & m & _ & _ & _ & _ & Hc & _).
    intros c. rewrite Hc. intros [Hin _]%elem_of_filter_list. by apply Hd.
  - destruct Hre as (uid & commentId & reaction & k0 & c1 & _ & _ & _ & Hc & _).
    intros c. rewrite Hc.
    intros [Hin|(c0 & Hin & _ & ->)]%elem_of_update_first; simpl; by apply Hd.
Qed.

(** X13: the stored contents are trimmed and never blank: when every
    content of the start is not empty and has no white space at either end,
    so has every content after any run, the created and the edited ones
    included. *)
Theorem contents_stay_clean stack d rs :
  contents_clean d → contents_clean (final stack d rs).
Proof.
  intros Hd. induction rs as [|r rs IH] using rev_ind; [done|].
  rewrite final_snoc. by apply handle_contents_clean.
Qed.

(** ** After a deletion *)


Lemma marked_iff_descends stack cs root m :
  markDescendants stack cs root no_marks = Some m →
  ∀ x, x ∈ toRemove m ↔ descends cs root x.
Proof.
  intros (t & _ & -> & Ht)%markDescendants_visits x.
  simpl. rewrite <- Ht. set_solver.
Qed.




(** X15: no request leaves an orphan: when every parentId that is a
    number names a comment of the dataset, it still does after the request,
    a cascade delete included, provided a create request whose parentId is a
    number other than 0 replies to a comment of the dataset. *)
Theorem parents_stay_present stack d r :
  parents_exist (comments d) → replies_in_place d r →
  parents_exist (comments (persisted (handle stack d r))).
Proof.
  intros Hp Hr.
  assert (∀ g : comment → comment, (∀ c, same_origin c (g c)) → ∀ q,
          parents_exist (update_first q g (comments d))) as Hupd.
  { intros g Hg q c' p Hin Hpar. rewrite update_first_ids by (intros c; apply Hg).
    apply elem_of_update_first in Hin as [Hin|(c & Hin & _ & ->)].
    - by apply (Hp c').
    - apply (Hp c); [done|]. destruct (Hg c) as (_ & _ & _ & _ & _ & <-). done. }
  destruct (handle_shape stack d r) as (_ & _ & [Hsame|[Hcr|[Hed|[Hde|Hre]]]]).
  - by rewrite Hsame.
  - destruct Hcr as (uid & content & parentId & now & text & u & -> & _ & _ & -> & _).
    intros c' p [Hin| ->%list_elem_of_singleton]%elem_of_app Hpar;
      rewrite fmap_app, elem_of_app; left.
    + by apply (Hp c').
    + simpl in Hpar, Hr.
      destruct parentId as [| |b|n|s|l|o]; simpl in Hpar;
        repeat case_match; simplify_eq; try done.
      destruct Hr as [->|Hr]; [done | done].
  - destruct Hed as (uid & commentId & content & now & text & c0 & _ & _ & _ & _ & -> & _).
    apply Hupd, same_origin_set_content.
  - destruct Hde as (uid & commentId & c0 & m & _ & _ & _ & Hm & -> & _).
    intros c' p [Hin Hkeep]%elem_of_filter_list Hpar.
    apply negb_true_iff, bool_decide_eq_false in Hkeep.
    destruct (proj1 (list_elem_of_fmap _ _ _) (Hp c' p Hin Hpar)) as (q & -> & Hq).
    apply list_elem_of_fmap_2, elem_of_filter_list. split; [done|].
    apply negb_true_iff, bool_decide_eq_false. intros Hmarked. apply Hkeep.
    apply (marked_iff_descends _ _ _ _ Hm).
    apply (marked_iff_descends _ _ _ _ Hm) in Hmarked.
    by eapply descends_step.
  - destruct Hre as (uid & commentId & reaction & k & c0 & _ & _ & _ & -> & _).
    apply Hupd, same_origin_toggle_reaction.
Qed.

Lemma parents_stay_present_witness :
  parents_exist (comments (persisted (handle 8 (board thread 6) (Delete 2 2)))).
Proof.
  apply (parents_stay_present 8 (board thread 6) (Delete 2 2)); [|exact I].
  intros c p Hc Hp. simpl in Hc. unfold thread in Hc.
  repeat (apply elem_of_cons in Hc as [->|Hc]; [simplify_eq/=; set_solver|]).
  by apply elem_of_nil in Hc.
Defined.

(** ** Create, then delete *)




(** ** Who changes what *)

(** X17: the content of a comment is changed by requests of its author
    only: on a dataset with distinct ids below the counter, whatever a
    request of another user does (one user or another of the four routes),
    the comment with that id, if it is still there, has the content and the
    updatedAt it had. *)
Theorem only_the_author_changes_the_content stack d r c c' :
  ids_below_counter d → NoDup (c_id <$> comments d) →
  c ∈ comments d → requester r ≠ c_userId c →
  c' ∈ comments (persisted (handle stack d r)) → c_id c' = c_id c →
  c_content c' = c_content c ∧ c_updatedAt c' = c_updatedAt c.
Proof.
  intros Hb Hnd Hc Hreq.
  assert (∀ x, x ∈ comments d → c_id x = c_id c → x = c) as Hsame.
  { intros x Hx Hid. by apply (NoDup_ids_eq (comments d)). }
  destruct (handle_shape stack d r) as (_ & _ & [Heq|[Hcr|[Hed|[Hde|Hre]]]]).
  - rewrite Heq. intros Hin Hid. by rewrite (Hsame c').
  - destruct Hcr as (uid & content & parentId & now & text & u & _ & _ & _ & -> & _).
    intros [Hin| ->%list_elem_of_singleton]%elem_of_app Hid.
    + by rewrite (Hsame c').
    + simpl in Hid. apply Hb in Hc. lia.
  - destruct Hed as (uid & commentId & content & now & text & c1 & -> & _ & Hf & Hu & -> & _).
    intros [Hin|(c0 & Hin & Hp & ->)]%elem_of_update_first Hid.
    + by rewrite (Hsame c').
    + simpl in Hid. rewrite (Hsame c0 Hin Hid) in Hp. apply Z.eqb_eq in Hp.
      apply find_comment_split in Hf as (before & after & Hcs & Hc1 & _).
      assert (c1 = c) as ->.
      { apply Hsame; [|congruence]. rewrite Hcs. set_solver. }
      by destruct Hreq.
  - destruct Hde as (uid & commentId & c0 & m & _ & _ & _ & _ & -> & _).
    intros [Hin _]%elem_of_filter_list Hid. by rewrite (Hsame c').
  - destruct Hre as (uid & commentId & reaction & k & c1 & _ & _ & _ & -> & _).
    intros [Hin|(c0 & Hin & Hp & ->)]%elem_of_update_first Hid.
    + by rewrite (Hsame c').
    + simpl in Hid. by rewrite (Hsame c0 Hin Hid).
Qed.

Lemma only_the_author_changes_the_content_witness :
  c_content (toggle_reaction Like 1 (sample_comment 2 2 20 (JNum 1)))
    = c_content (sample_comment 2 2 20 (JNum 1)) ∧
  c_updatedAt (toggle_reaction Like 1 (sample_comment 2 2 20 (JNum 1)))
    = c_updatedAt (sample_comment 2 2 20 (JNum 1)).
Proof.
  apply (only_the_author_changes_the_content 8 (board thread 6)
           (React 1 2 (JStr "like"))
           (sample_comment 2 2 20 (JNum 1))
           (toggle_reaction Like 1 (sample_comment 2 2 20 (JNum 1)))).
  - intros c Hc. simpl in Hc. unfold thread in Hc.
    repeat (apply elem_of_cons in Hc as [->|Hc]; [simpl; lia|]).
    by apply elem_of_nil in Hc.
  - apply (bool_decide_unpack _). vm_compute. exact I.
  - set_solver.
  - simpl. lia.
  - vm_compute. set_solver.
  - reflexivity.
Defined.

(** ** The shape of the tree *)

Lemma same_place_of_origin c c' : same_origin c c' → same_place c c'.
Proof. intros (?&?&?&?&?&?). by repeat split. Qed.

Lemma update_first_same_place q g cs :
  (∀ c, same_place c (g c)) → Forall2 same_place cs (update_first q g cs).
Proof.
  intros Hg. induction cs as [|c cs IH]; simpl; [constructor|].
  destruct (q c).
  - constructor; [apply Hg|]. apply Forall2_same_length_lookup. split; [done|].
    intros i x y Hx Hy. simplify_eq. by repeat split.
  - constructor; [by repeat split | done].
Qed.

Lemma filter_same_place (sel : comment → bool) cs cs' :
  (∀ c c', same_place c c' → sel c' = sel c) →
  Forall2 same_place cs cs' →
  Forall2 same_place (List.filter sel cs) (List.filter sel cs').
Proof.
  intros Hsel. induction 1 as [|c c' cs cs' Hc _ IH]; simpl; [constructor|].
  rewrite (Hsel c c' Hc). destruct (sel c); [by constructor | done].
Qed.

Lemma keys_same_place cs cs' :
  Forall2 same_place cs cs' → comment_key <$> cs' = comment_key <$> cs.
Proof.
  induction 1 as [|c c' cs cs' (Hid & _) _ IH]; [done|].
  cbn [fmap list_fmap]. unfold comment_key at 1 3. by rewrite Hid, IH.
Qed.

Lemma last_same_place cs cs' :
  Forall2 same_place cs cs' →
  match last cs, last cs' with
  | Some c, Some c' => same_place c c'
  | None, None => True
  | _, _ => False
  end.
Proof.
  induction 1 as [|c c' cs cs' Hc H IH]; [done|].
  destruct H as [|c1 c1' cs cs' H1 H]; [done|].
  by rewrite !last_cons_cons.
Qed.

Lemma is_root_same_place c c' : same_place c c' → is_root c' = is_root c.
Proof. intros (_ & _ & Hp). unfold is_root. by rewrite Hp. Qed.

Lemma replies_to_same_place k c c' :
  same_place c c' → replies_to k c' = replies_to k c.
Proof. intros (_ & _ & Hp). unfold replies_to. by rewrite Hp. Qed.

Lemma key_same_place k c c' :
  same_place c c' →
  bool_decide (comment_key c' = k) = bool_decide (comment_key c = k).
Proof. intros (Hid & _). unfold comment_key. by rewrite Hid. Qed.

Lemma array_sort_ext {A} (cmp cmp' : A → A → Z) l :
  (∀ a b, cmp' a b = cmp a b) → array_sort cmp' l = array_sort cmp l.
Proof.
  intros H. induction l as [|x l IH]; [done|].
  cbn [array_sort foldr]. fold (array_sort cmp' l). fold (array_sort cmp l).
  rewrite IH. generalize (array_sort cmp l). intros l'.
  induction l' as [|y l' IH']; simpl; [done|]. by rewrite H, IH'.
Qed.

(** The shape of the forest depends on the ids, the dates of creation and
    the parentIds only. *)
Lemma buildCommentsTree_same_place cs cs' f :
  Forall2 same_place cs cs' → buildCommentsTree cs = Some f →
  ∃ f', buildCommentsTree cs' = Some f' ∧ same_shape f f'.
Proof.
  intros H Hf.
  pose proof (keys_same_place _ _ H) as Hkeys.
  assert (is_Some (buildCommentsTree cs')) as [f' Hf'].
  { apply buildCommentsTree_linkable. intros c' Hc'.
    apply list_elem_of_lookup in Hc' as [i Hi].
    destruct (Forall2_lookup_r _ _ _ _ _ H Hi) as (c & Hc & (_ & _ & Hp)).
    assert (is_Some (buildCommentsTree cs)) as Hsome by by eexists.
    rewrite buildCommentsTree_linkable in Hsome.
    specialize (Hsome c (list_elem_of_lookup_2 _ _ _ Hc)).
    unfold linkable in *. by rewrite Hp, Hkeys. }
  exists f'. split; [done|].
  apply buildCommentsTree_Some in Hf as [Hr Hn].
  apply buildCommentsTree_Some in Hf' as [Hr' Hn'].
  assert (root_keys cs' = root_keys cs) as Hroots.
  { apply keys_same_place, filter_same_place; [|done].
    intros ??. apply is_root_same_place. }
  assert (∀ k, reply_keys cs' k = reply_keys cs k) as Hreplies.
  { intros k. apply keys_same_place, filter_same_place; [|done].
    intros ??. apply replies_to_same_place. }
  assert (∀ k, match index_comments cs !! k, index_comments cs' !! k with
               | Some nd, Some nd' =>
                   c_createdAt (n_comment nd') = c_createdAt (n_comment nd) ∧
                   n_replies nd' = n_replies nd
               | None, None => True
               | _, _ => False
               end) as Hindex.
  { intros k. rewrite !index_comments_lookup.
    pose proof (last_same_place _ _
      (filter_same_place (λ c, bool_decide (comment_key c = k)) cs cs'
         (key_same_place k) H)) as Hl.
    destruct (last (List.filter _ cs)) as [c|], (last (List.filter _ cs')) as [c'|];
      simpl; try done.
    by destruct Hl as (_ & ? & _). }
  split.
  - rewrite Hr, Hr', Hroots. apply array_sort_ext. intros a b.
    unfold sortFn, created_of. rewrite !Hn, !Hn'.
    pose proof (Hindex a) as Ha. pose proof (Hindex b) as Hb.
    destruct (index_comments cs !! a), (index_comments cs' !! a),
             (index_comments cs !! b), (index_comments cs' !! b);
      simpl; try done; destruct Ha, Hb; lia.
  - intros k. rewrite Hn, Hn', Hreplies. specialize (Hindex k).
    destruct (index_comments cs !! k), (index_comments cs' !! k);
      simpl; try done.
    destruct Hindex as [_ ->]. done.
Qed.

Lemma same_place_sym cs cs' : Forall2 same_place cs cs' → Forall2 same_place cs' cs.
Proof.
  intros H. apply Forall2_flip. eapply Forall2_impl; [done|].
  intros c c' (?&?&?). by repeat split.
Qed.

Lemma list_comments_same_place d d' :
  Forall2 same_place (comments d) (comments d') →
  option_Forall2 same_shape (list_comments d) (list_comments d').
Proof.
  intros H. unfold list_comments.
  destruct (buildCommentsTree (comments d)) as [f|] eqn:Hf.
  - destruct (buildCommentsTree_same_place _ _ _ H Hf) as (f' & -> & Hs).
    by constructor.
  - destruct (buildCommentsTree (comments d')) as [f'|] eqn:Hf'; [|constructor].
    destruct (buildCommentsTree_same_place _ _ _ (same_place_sym _ _ H) Hf')
      as (f & Hf2 & _).
    congruence.
Qed.

(** X18: an edit or a reaction never moves a comment: the tree of the
    dataset such a request leaves can be built exactly when the tree of the
    dataset it found can, and then has the same roots in the same order
    and, under every comment, the same replies in the same order. *)
Theorem edit_and_react_keep_the_shape d uid commentId :
  (∀ content now,
     option_Forall2 same_shape (list_comments d)
       (list_comments (persisted (edit_comment d uid commentId content now)))) ∧
  (∀ reaction,
     option_Forall2 same_shape (list_comments d)
       (list_comments (persisted (react d uid commentId reaction)))).
Proof.
  assert (∀ r, (∀ uid content parentId now, r ≠ Create uid content parentId now) →
               (∀ uid commentId, r ≠ Delete uid commentId) →
               Forall2 same_place (comments d) (comments (persisted (handle 0 d r))))
    as Hall.
  { intros r Hnc Hnd.
    destruct (handle_shape 0 d r) as (_ & _ & [Heq|[Hcr|[Hed|[Hde|Hre]]]]).
    - rewrite Heq. apply Forall2_same_length_lookup. split; [done|].
      intros i x y Hx Hy. simplify_eq. by repeat split.
    - destruct Hcr as (? & ? & ? & ? & ? & ? & -> & _). by edestruct Hnc.
    - destruct Hed as (? & ? & ? & ? & ? & ? & _ & _ & _ & _ & -> & _).
      apply update_first_same_place. intros c.
      apply same_place_of_origin, same_origin_set_content.
    - destruct Hde as (? & ? & ? & ? & -> & _). by edestruct Hnd.
    - destruct Hre as (? & ? & ? & ? & ? & _ & _ & _ & -> & _).
      apply update_first_same_place. intros c.
      apply same_place_of_origin, same_origin_toggle_reaction. }
  split.
  - intros content now. apply list_comments_same_place.
    by apply (Hall (Edit uid commentId content now)).
  - intros reaction. apply list_comments_same_place.
    by apply (Hall (React uid commentId reaction)).
Qed.

(** ** Reading the comments *)

(** X19: [GET /api/comments] answers exactly when every comment is
    linkable: its parentId is null, or reads as a property name that is the
    key of a comment or is not a name every object inherits.  It always
    answers when every parentId is null or a number. *)
Theorem list_comments_answers d :
  (is_Some (list_comments d) ↔ ∀ c, c ∈ comments d → linkable (comments d) c) ∧
  ((∀ c, c ∈ comments d → c_parentId c = JNull ∨ ∃ p, c_parentId c = JNum p) →
   is_Some (list_comments d)).
Proof.
  unfold list_comments. split; [apply buildCommentsTree_linkable|].
  intros H. apply buildCommentsTree_linkable. intros c Hc.
  destruct (H c Hc) as [Hnull|[p Hp]].
  - apply linkable_null. by rewrite Hnull.
  - by eapply linkable_number.
Qed.

(** X20: what [GET /api/comments] answers on a list with distinct ids, all
    linkable: the roots are the comments with a null parentId, newest
    first, those of the same date in the order of the list; the replies of a
    comment are the comments filed under its key, in the order of the
    list. *)
Theorem list_comments_order d :
  NoDup (c_id <$> comments d) →
  (∀ c, c ∈ comments d → linkable (comments d) c) →
  ∃ f, list_comments d = Some f ∧
    root_comments f ≡ₚ List.filter is_root (comments d) ∧
    StronglySorted (λ a b, c_createdAt b ≤ c_createdAt a) (root_comments f) ∧
    (∀ v, List.filter (λ c, c_createdAt c =? v) (root_comments f)
          = List.filter (λ c, c_createdAt c =? v) (List.filter is_root (comments d))) ∧
    (∀ p, p ∈ comments d →
          reply_comments f (comment_key p)
          = List.filter (replies_to (comment_key p)) (comments d)).
Proof.
  intros Hnd [f Hf]%buildCommentsTree_linkable.
  exists f. split; [done|]. by apply buildCommentsTree_order.
Qed.

Lemma list_comments_order_witness :
  ∃ f, list_comments (board thread 6) = Some f ∧
    root_comments f ≡ₚ List.filter is_root thread ∧
    StronglySorted (λ a b, c_createdAt b ≤ c_createdAt a) (root_comments f) ∧
    (∀ v, List.filter (λ c, c_createdAt c =? v) (root_comments f)
          = List.filter (λ c, c_createdAt c =? v) (List.filter is_root thread)) ∧
    (∀ p, p ∈ thread →
          reply_comments f (comment_key p)
          = List.filter (replies_to (comment_key p)) thread).
Proof.
  apply (list_comments_order (board thread 6)).
  - apply (bool_decide_unpack _). vm_compute. exact I.
  - intros c Hc. apply throws_on_linkable.
    revert c Hc. apply Forall_forall. apply (bool_decide_unpack _).
    vm_compute. exact I.
Defined.

(** ** When a deletion can take effect *)

(** X21: the delete request of the author of a comment changes the dataset
    for some size of the call stack exactly when the parentId links below
    the comment form no cycle; on a cycle it changes nothing whatever the
    stack. *)
Theorem delete_takes_effect_iff_no_cycle d uid commentId c :
  find_comment commentId (comments d) = Some c → c_userId c = uid →
  (∃ stack, persisted (delete_comment stack d uid commentId) ≠ d) ↔
  (∃ rank, acyclic_below (comments d) commentId rank).
Proof.
  intros Hf Hu. rewrite <- markDescendants_returns_iff_acyclic. split.
  - intros [stack Hne]. exists stack.
    destruct (markDescendants stack (comments d) commentId no_marks) as [m|] eqn:Hm;
      [by eexists|].
    destruct Hne. by rewrite (delete_comment_overflow _ _ _ _ _ Hf Hu Hm).
  - intros [stack [m Hm]]. exists stack.
    rewrite (delete_comment_accepted _ _ _ _ _ _ Hf Hu Hm).
    rewrite persisted_emit_and_respond. intros Heq.
    apply (f_equal comments) in Heq. simpl in Heq.
    apply find_comment_split in Hf as (before & after & Hcs & Hid & _).
    assert (c ∈ comments d) as Hc by (rewrite Hcs; set_solver).
    rewrite <- Heq in Hc. apply elem_of_filter_list in Hc as [_ Hkeep].
    apply negb_true_iff, bool_decide_eq_false in Hkeep. apply Hkeep.
    apply (marked_iff_descends _ _ _ _ Hm). rewrite Hid. apply descends_refl.
Qed.

Lemma delete_takes_effect_iff_no_cycle_witness :
  (∃ stack, persisted (delete_comment stack (board two_cycle 3) 1 1) ≠ board two_cycle 3) ↔
  (∃ rank, acyclic_below two_cycle 1 rank).
Proof.
  apply (delete_takes_effect_iff_no_cycle (board two_cycle 3) 1 1
           (sample_comment 1 1 10 (JNum 2))); reflexivity.
Defined.

(** ** The theorems on the sample board *)

Local Ltac each_of_thread H :=
  simpl in H; unfold thread in H;
  repeat (apply elem_of_cons in H as [->|H]; [|]);
  [..|by apply elem_of_nil in H].



Lemma comments_keep_their_origin_witness :
  (∃ c, c ∈ comments (board thread 6) ∧
        same_origin c (set_content "new" 60 (sample_comment 1 1 10 JNull))) ∨
  (nextCommentId (board thread 6) ≤ 1 ∧
   ∃ u, u ∈ users (board thread 6) ∧ 1 = u_id u ∧ JStr "ann" = u_name u ∧
        "avatar-a" = u_avatar u).
Proof.
  apply (comments_keep_their_origin 8 (board thread 6)
           [Edit 1 1 (JStr " new ") 60; Create 2 (JStr "hi") (JNum 1) 70]
           (set_content "new" 60 (sample_comment 1 1 10 JNull))).
  vm_compute. set_solver.
Defined.


Lemma reactions_stay_distinct_witness :
  reactions_distinct
    (final 8 (board thread 6) [React 1 2 (JStr "like"); React 2 2 (JStr "like");
                               React 1 2 (JStr "like")]).
Proof.
  apply (reactions_stay_distinct 8 (board thread 6)).
  intros c k Hc. each_of_thread Hc; destruct k; constructor.
Defined.

Lemma contents_stay_clean_witness :
  contents_clean
    (final 8 (board thread 6) [Create 1 (JStr "  hi  ") JNull 70;
                               Edit 2 2 (JStr "again ") 80]).
Proof.
  apply (contents_stay_clean 8 (board thread 6)).
  intros c Hc. each_of_thread Hc; by split.
Defined.

